(** * Grid-based path planning: brushfire, wavefront and descent extractors

    A shallow embedding of the planning core of the repository
    ([brushfire.py], [wavefront.py], [gradient_descent.py],
    [greedy_descent.py], [attractive_field.py], [repulsive_field.py]) and the
    properties its specification states about it.

    Conventions.
    - A numpy 2-D array is a list of rows; indexing follows numpy: an index
      [i] with [-n <= i < 0] addresses position [i + n], anything outside
      [-n, n) raises [IndexError].
    - Python exceptions are values of [exn]; a computation returns an
      [outcome].  [while] loops take a fuel argument and answer [OutOfFuel]
      when it is exhausted; the theorems show how much fuel is enough.
    - Hop counts are small integers, on which float arithmetic is exact; they
      are modelled in [Z].  The wavefront field adds the value [inf]. *)

From Stdlib Require Import ZArith Lia.
From stdpp Require Import base option list strings pretty gmap.

Local Open Scope Z_scope.

(** ** Exceptions and outcomes *)

Inductive exn : Type :=
  | ValueError (msg : string)
  | IndexError.

Inductive outcome (A : Type) : Type :=
  | Ok (a : A)
  | Raise (e : exn)
  | OutOfFuel.

Arguments Ok {A} a.
Arguments Raise {A} e.
Arguments OutOfFuel {A}.

#[global] Instance outcome_ret : MRet outcome := fun _ a => Ok a.
#[global] Instance outcome_bind : MBind outcome := fun _ _ k m =>
  match m with
  | Ok a => k a
  | Raise e => Raise e
  | OutOfFuel => OutOfFuel
  end.
#[global] Instance outcome_fmap : FMap outcome := fun _ _ f m =>
  match m with
  | Ok a => Ok (f a)
  | Raise e => Raise e
  | OutOfFuel => OutOfFuel
  end.

(** [for x in xs: s = body(s, x)] *)
Fixpoint for_each {A S : Type} (xs : list A) (body : S -> A -> outcome S) (s : S)
  : outcome S :=
  match xs with
  | [] => Ok s
  | x :: xs' => s' ← body s x; for_each xs' body s'
  end.

(** The f-string of every connectivity check in the sources. *)
Definition unsupported_connectivity (connectivity : Z) : exn :=
  ValueError ("Unsupported connectivity: " +:+ pretty connectivity +:+ ". Use 4 or 8.").

(** ** numpy arrays *)

Definition cell : Type := Z * Z.

Definition cell_eqb (p q : cell) : bool := (p.1 =? q.1) && (p.2 =? q.2).

Definition cell_add (p m : cell) : cell := (p.1 + m.1, p.2 + m.2).

(** A 2-D array is the list of its rows. *)
Abbreviation array V := (list (list V)) (only parsing).

Section Numpy.
Context {V : Type}.

(** [a.shape[0]] and [a.shape[1]] *)
Definition nrows (a : array V) : Z := Z.of_nat (length a).

Definition ncols (a : array V) : Z :=
  match a with
  | [] => 0
  | row :: _ => Z.of_nat (length row)
  end.

(** numpy arrays are rectangular *)
Definition rect (a : array V) : Prop :=
  Forall (fun row => Z.of_nat (length row) = ncols a) a.

Definition in_bounds (a : array V) (p : cell) : Prop :=
  0 <= p.1 < nrows a /\ 0 <= p.2 < ncols a.

(** Index normalisation along an axis of length [n]. *)
Definition norm_index (n i : Z) : option nat :=
  if (0 <=? i) && (i <? n) then Some (Z.to_nat i)
  else if (- n <=? i) && (i <? 0) then Some (Z.to_nat (i + n))
  else None.

(** Reading a cell that is known to be in bounds. *)
Definition peek (a : array V) (p : cell) : option V :=
  row ← a !! Z.to_nat p.1; row !! Z.to_nat p.2.

(** [a[r][c]] and [a[r, c]] *)
Definition np_get (a : array V) (r c : Z) : outcome V :=
  match norm_index (nrows a) r, norm_index (ncols a) c with
  | Some i, Some j =>
      match a !! i ≫= (.!! j) with
      | Some v => Ok v
      | None => Raise IndexError
      end
  | _, _ => Raise IndexError
  end.

(** [a[r][c] = v] *)
Definition np_set (a : array V) (r c : Z) (v : V) : outcome (array V) :=
  match norm_index (nrows a) r, norm_index (ncols a) c with
  | Some i, Some j =>
      match a !! i with
      | Some row => Ok (<[i := <[j := v]> row]> a)
      | None => Raise IndexError
      end
  | _, _ => Raise IndexError
  end.

End Numpy.

(** Elementwise operations ([a - 1], [a.astype(float)]) build a new array. *)
Definition np_map {V W : Type} (f : V -> W) (a : array V) : array W :=
  (fun row : list V => f <$> row) <$> a.

(** [np.ndindex(shape)]: every index pair in row-major order. *)
Definition ndindex (r c : nat) : list cell :=
  i ← seq 0 r; j ← seq 0 c; [(Z.of_nat i, Z.of_nat j)].

Definition all_cells {V} (a : array V) : list cell :=
  ndindex (Z.to_nat (nrows a)) (Z.to_nat (ncols a)).

(** ** Brushfire distance transform ([brushfire.py]) *)

Module Brushfire.

Definition move_type (connectivity : Z) : outcome (list cell) :=
  if connectivity =? 4 then
    Ok [(-1, 0); (0, -1); (1, 0); (0, 1)]
  else if connectivity =? 8 then
    Ok [(-1, 0); (-1, -1); (0, -1); (1, -1); (1, 0); (1, 1); (0, 1); (-1, 1)]
  else Raise (unsupported_connectivity connectivity).

(** Body of the seeding loop: [if result[i][j] == 1: queue.append([i, j])]. *)
Definition seed (result : array Z) (queue : list cell) (p : cell)
  : outcome (list cell) :=
  v ← np_get result p.1 p.2;
  if v =? 1 then Ok (queue ++ [p]) else Ok queue.

(** Body of [for move in move_type] for the dequeued cell [t]. *)
Definition visit (t : cell) (st : array Z * list cell) (move : cell)
  : outcome (array Z * list cell) :=
  let '(result, queue) := st in
  let nr := t.1 + move.1 in
  let nc := t.2 + move.2 in
  if (nr >=? nrows result) || (nc >=? ncols result) || (nr <? 0) || (nc <? 0)
  then Ok st
  else
    v ← np_get result nr nc;
    if v =? 0 then
      tv ← np_get result t.1 t.2;
      result' ← np_set result nr nc (tv + 1);
      Ok (result', queue ++ [(nr, nc)])
    else Ok st.

(** [while len(queue) != 0] *)
Fixpoint propagate (fuel : nat) (moves : list cell) (result : array Z)
    (queue : list cell) : outcome (array Z) :=
  match queue with
  | [] => Ok result
  | t :: queue' =>
      match fuel with
      | O => OutOfFuel
      | S fuel' =>
          st ← for_each moves (visit t) (result, queue');
          propagate fuel' moves st.1 st.2
      end
  end.

Definition compute_obstacle_distance (fuel : nat) (grid_map : array Z)
    (connectivity : Z) : outcome (array Z) :=
  let result := grid_map in
  queue ← for_each (all_cells result) (seed result) [];
  moves ← move_type connectivity;
  result ← propagate fuel moves result queue;
  Ok (np_map (fun v => v - 1) result).

End Brushfire.

(** ** Wavefront planner ([wavefront.py]) *)

(** The float values a wavefront field takes: integers and [np.inf]. *)
Inductive dist : Type :=
  | Num (z : Z)
  | Inf.

Definition dist_eqb (a b : dist) : bool :=
  match a, b with
  | Num x, Num y => x =? y
  | Inf, Inf => true
  | _, _ => false
  end.

Definition dist_ltb (a b : dist) : bool :=
  match a, b with
  | Num x, Num y => x <? y
  | Num _, Inf => true
  | Inf, _ => false
  end.

Definition dist_add (a b : dist) : dist :=
  match a, b with
  | Num x, Num y => Num (x + y)
  | _, _ => Inf
  end.

(** [1e9], the "not yet reached" value of a free cell *)
Definition unreached : Z := 1000000000.

Module Wavefront.

Definition is_valid_cell (grid_map : array dist) (point : cell) : outcome bool :=
  if (point.1 <? 0) || (point.1 >=? nrows grid_map) then Ok false
  else if (point.2 <? 0) || (point.2 >=? ncols grid_map) then Ok false
  else
    v ← np_get grid_map point.1 point.2;
    if dist_eqb v Inf then Ok false else Ok true.

Definition move_type (connectivity : Z) : outcome (list cell) :=
  if connectivity =? 4 then
    Ok [(1, 0); (0, 1); (-1, 0); (0, -1)]
  else if connectivity =? 8 then
    Ok [(-1, 0); (-1, -1); (0, -1); (1, -1); (1, 0); (1, 1); (0, 1); (-1, 1)]
  else Raise (unsupported_connectivity connectivity).

(** Body of the marking loop: obstacles become [inf], free cells [+ 1e9]. *)
Definition mark (result : array dist) (p : cell) : outcome (array dist) :=
  v ← np_get result p.1 p.2;
  if dist_eqb v (Num 1) then np_set result p.1 p.2 Inf
  else
    v' ← np_get result p.1 p.2;
    np_set result p.1 p.2 (dist_add v' (Num unreached)).

(** Body of [for move in move_type] for the dequeued cell [t]. *)
Definition relax (t : cell) (st : array dist * list cell) (move : cell)
  : outcome (array dist * list cell) :=
  let '(result, queue) := st in
  let nr := t.1 + move.1 in
  let nc := t.2 + move.2 in
  valid ← is_valid_cell result (nr, nc);
  if negb valid then Ok st
  else
    v ← np_get result nr nc;
    closer ← (if negb (dist_eqb v Inf) then
                v' ← np_get result nr nc;
                tv ← np_get result t.1 t.2;
                Ok (dist_ltb (dist_add tv (Num 1)) v')
              else Ok false);
    if closer : bool then
      tv ← np_get result t.1 t.2;
      result' ← np_set result nr nc (dist_add tv (Num 1));
      Ok (result', queue ++ [(nr, nc)])
    else Ok st.

(** [while len(queue) != 0] *)
Fixpoint expand (fuel : nat) (moves : list cell) (result : array dist)
    (queue : list cell) : outcome (array dist) :=
  match queue with
  | [] => Ok result
  | t :: queue' =>
      match fuel with
      | O => OutOfFuel
      | S fuel' =>
          st ← for_each moves (relax t) (result, queue');
          expand fuel' moves st.1 st.2
      end
  end.

(** Body of the display loop: [inf] becomes [0]. *)
Definition clear_inf (vis_map : array dist) (p : cell) : outcome (array dist) :=
  v ← np_get vis_map p.1 p.2;
  if dist_eqb v Inf then np_set vis_map p.1 p.2 (Num 0) else Ok vis_map.

Definition compute_wavefront (fuel : nat) (grid_map : array Z) (goal : cell)
    (connectivity : Z) : outcome (array dist * array dist) :=
  let result := np_map Num grid_map in
  result ← for_each (all_cells result) mark result;
  result ← np_set result goal.1 goal.2 (Num 0);
  let queue := [(goal.1, goal.2)] in
  moves ← move_type connectivity;
  result ← expand fuel moves result queue;
  let vis_map := result in
  vis_map ← for_each (all_cells vis_map) clear_inf vis_map;
  Ok (result, vis_map).

End Wavefront.

(** ** Gradient descent on a potential field ([gradient_descent.py]) *)

Module GradientDescent.
Section Gradient.
(** The field's values with their [-], [<] and [==]. *)
Context {V : Type} (sub : V -> V -> V) (ltb eqb : V -> V -> bool).

Definition move_type (connectivity : Z) : outcome (list cell) :=
  if connectivity =? 4 then
    Ok [(0, 0); (0, 1); (-1, 0); (1, 0); (0, -1)]
  else if connectivity =? 8 then
    Ok [(0, 0); (-1, -1); (-1, 0); (0, -1); (1, 0); (0, 1); (1, -1); (1, 1); (-1, 1)]
  else Raise (unsupported_connectivity connectivity).

(** Body of [for move in move_type]: [potential_diffs.append(diff)]. *)
Definition potential_diff (total_potential : array V) (current : cell)
    (potential_diffs : list V) (move : cell) : outcome (list V) :=
  a ← np_get total_potential (current.1 + move.1) (current.2 + move.2);
  b ← np_get total_potential current.1 current.2;
  Ok (potential_diffs ++ [sub a b]).

(** Python's [<] on the two-element lists [[dr, dc]]. *)
Definition list_lt (m1 m2 : cell) : bool :=
  if m1.1 =? m2.1 then m1.2 <? m2.2 else m1.1 <? m2.1.

(** Python's [<] on the tuples [(diff, move)]: the first component that is
    not [==] decides. *)
Definition tuple_lt (x y : V * cell) : bool :=
  if eqb x.1 y.1 then list_lt x.2 y.2 else ltb x.1 y.1.

(** Python's [min]: the running minimum is replaced by an item only when the
    item is [<] it. *)
Definition py_min (items : list (V * cell)) : outcome (V * cell) :=
  match items with
  | [] => Raise (ValueError "min() arg is an empty sequence")
  | x :: xs =>
      Ok (fold_left (fun best item => if tuple_lt item best then item else best) xs x)
  end.

Definition gradient_descent_step (total_potential : array V) (current : cell)
    (connectivity : Z) : outcome cell :=
  moves ← move_type connectivity;
  potential_diffs ← for_each moves (potential_diff total_potential current) [];
  best ← py_min (zip potential_diffs moves);
  let best_direction := best.2 in
  Ok (current.1 + best_direction.1, current.2 + best_direction.2).

(** [for _ in range(max_iters)] *)
Fixpoint iterate (iters : nat) (total_potential : array V) (goal : cell)
    (connectivity : Z) (current : cell) (trajectory_rows trajectory_cols : list Z)
  : outcome (list Z * list Z) :=
  match iters with
  | O => Ok (trajectory_rows, trajectory_cols)
  | S iters' =>
      if (current.1 =? goal.1) && (current.2 =? goal.2)
      then Ok (trajectory_rows, trajectory_cols)
      else
        current' ← gradient_descent_step total_potential current connectivity;
        iterate iters' total_potential goal connectivity current'
          (trajectory_rows ++ [current'.1]) (trajectory_cols ++ [current'.2])
  end.

Definition gradient_descent_path (total_potential : array V) (start goal : cell)
    (connectivity : Z) (max_iters : Z) : outcome (list Z * list Z) :=
  let current := start in
  iterate (Z.to_nat max_iters) total_potential goal connectivity current
    [current.1] [current.2].

End Gradient.
End GradientDescent.

(** ** Greedy descent on a wavefront map ([greedy_descent.py]) *)

Module GreedyDescent.
Section Greedy.
(** The field's values and their [<]; for floats [<] is a strict partial
    order (a NaN is not below anything and nothing is below it). *)
Context {V : Type} (ltb : V -> V -> bool).

Definition move_type (connectivity : Z) : outcome (list cell) :=
  if connectivity =? 4 then
    Ok [(1, 0); (0, 1); (-1, 0); (0, -1)]
  else if connectivity =? 8 then
    Ok [(1, 0); (1, 1); (-1, 1); (-1, -1); (0, 1); (0, -1); (-1, 0); (1, -1)]
  else Raise (unsupported_connectivity connectivity).

(** Body of [for move in move_type], on [(best_value, next_cell)]. *)
Definition scan_move (wavefront_map : array V) (current : cell)
    (st : V * cell) (move : cell) : outcome (V * cell) :=
  let '(best_value, next_cell) := st in
  let nr := current.1 + move.1 in
  let nc := current.2 + move.2 in
  if (0 <=? nr) && (nr <? nrows wavefront_map)
     && (0 <=? nc) && (nc <? ncols wavefront_map) then
    v ← np_get wavefront_map nr nc;
    if ltb v best_value then
      v' ← np_get wavefront_map nr nc;
      Ok (v', (nr, nc))
    else Ok st
  else Ok st.

(** The [while current != goal] loop. *)
Fixpoint descend (fuel : nat) (wavefront_map : array V) (goal : cell)
    (moves : list cell) (current : cell) (trajectory_rows trajectory_cols : list Z)
  : outcome (list Z * list Z) :=
  if negb (current.1 =? goal.1) || negb (current.2 =? goal.2) then
    match fuel with
    | O => OutOfFuel
    | S fuel' =>
        best_value ← np_get wavefront_map current.1 current.2;
        st ← for_each moves (scan_move wavefront_map current) (best_value, current);
        let next_cell := st.2 in
        if cell_eqb next_cell current then Ok (trajectory_rows, trajectory_cols)
        else descend fuel' wavefront_map goal moves next_cell
               (trajectory_rows ++ [next_cell.1]) (trajectory_cols ++ [next_cell.2])
    end
  else Ok (trajectory_rows, trajectory_cols).

Definition greedy_descent_path (fuel : nat) (wavefront_map : array V)
    (start goal : cell) (connectivity : Z) : outcome (list Z * list Z) :=
  let current := start in
  let trajectory_rows := [current.1] in
  let trajectory_cols := [current.2] in
  moves ← move_type connectivity;
  descend fuel wavefront_map goal moves current trajectory_rows trajectory_cols.

End Greedy.
End GreedyDescent.

(** ** Smoke tests: the concrete scenarios of the specification *)

Example greedy_smoke :
  GreedyDescent.greedy_descent_path Z.ltb 5 [[0; 1; 2; 3; 4]] (0, 4) (0, 0) 4
  = Ok ([0; 0; 0; 0; 0], [4; 3; 2; 1; 0]).
Proof. reflexivity. Qed.

Example brushfire_scenario3_conn4 :
  Brushfire.compute_obstacle_distance 9 [[0; 0; 0]; [0; 1; 0]; [0; 0; 0]] 4
  = Ok [[2; 1; 2]; [1; 0; 1]; [2; 1; 2]].
Proof. vm_compute. reflexivity. Qed.

Example brushfire_scenario3_conn8 :
  Brushfire.compute_obstacle_distance 9 [[0; 0; 0]; [0; 1; 0]; [0; 0; 0]] 8
  = Ok [[1; 1; 1]; [1; 0; 1]; [1; 1; 1]].
Proof. vm_compute. reflexivity. Qed.

Example wavefront_scenario1 :
  fst <$> Wavefront.compute_wavefront 20 [[0; 0; 0]; [0; 0; 0]; [0; 0; 0]] (0, 0) 4
  = Ok [[Num 0; Num 1; Num 2]; [Num 1; Num 2; Num 3]; [Num 2; Num 3; Num 4]].
Proof. vm_compute. reflexivity. Qed.

(** * Verification *)

(** ** Facts about the outcome monad and numpy indexing *)

Lemma bind_Ok {A B : Type} (m : outcome A) (k : A -> outcome B) (b : B) :
  m ≫= k = Ok b <-> exists a, m = Ok a /\ k a = Ok b.
Proof.
  destruct m; simpl; split; try (intros [a' [? ?]]); try discriminate; eauto.
  intros; simplify_eq; done.
Qed.

Section NumpyFacts.
Context {V : Type}.
Implicit Types (a : array V) (p q : cell) (v : V).

Lemma norm_index_inb (n i : Z) :
  0 <= i < n -> norm_index n i = Some (Z.to_nat i).
Proof.
  intros H. unfold norm_index.
  replace ((0 <=? i) && (i <? n)) with true; [done|].
  symmetry. apply andb_true_iff. lia.
Qed.

Lemma rect_row a i row :
  rect a -> a !! i = Some row -> Z.of_nat (length row) = ncols a.
Proof.
  unfold rect. rewrite Forall_lookup. intros H Hi. exact (H i row Hi).
Qed.

Lemma peek_inb a p :
  rect a -> in_bounds a p -> is_Some (peek a p).
Proof.
  intros Hr [H1 H2]. unfold peek, nrows in *.
  destruct (lookup_lt_is_Some_2 a (Z.to_nat p.1)) as [row Hrow]; [lia|].
  rewrite Hrow. simpl.
  apply lookup_lt_is_Some_2. pose proof (rect_row _ _ _ Hr Hrow). lia.
Qed.

Lemma peek_Some_inb a p v :
  rect a -> 0 <= p.1 -> 0 <= p.2 -> peek a p = Some v -> in_bounds a p.
Proof.
  intros Hr H1 H2. unfold peek, in_bounds, nrows.
  destruct (a !! Z.to_nat p.1) as [row|] eqn:Hrow; simpl; [|done].
  intros Hv. pose proof (rect_row a _ row Hr Hrow) as Hc.
  apply lookup_lt_Some in Hrow, Hv. lia.
Qed.

Lemma np_get_inb a p :
  in_bounds a p ->
  np_get a p.1 p.2 = match peek a p with Some v => Ok v | None => Raise IndexError end.
Proof.
  intros [H1 H2]. unfold np_get, peek.
  rewrite !norm_index_inb by done. done.
Qed.

Lemma np_get_peek a p v :
  in_bounds a p -> peek a p = Some v -> np_get a p.1 p.2 = Ok v.
Proof. intros Hb Hv. rewrite np_get_inb, Hv; done. Qed.

(** The array after [a[p] = v], for [p] in bounds. *)
Definition poke a p v : array V :=
  match a !! Z.to_nat p.1 with
  | Some row => <[Z.to_nat p.1 := <[Z.to_nat p.2 := v]> row]> a
  | None => a
  end.

Lemma np_set_inb a p v :
  in_bounds a p -> np_set a p.1 p.2 v = Ok (poke a p v).
Proof.
  intros [H1 H2]. unfold np_set, poke, nrows in *.
  rewrite !norm_index_inb by done.
  destruct (lookup_lt_is_Some_2 a (Z.to_nat p.1)) as [row Hrow]; [lia|].
  by rewrite Hrow.
Qed.

Lemma nrows_poke a p v : nrows (poke a p v) = nrows a.
Proof.
  unfold poke, nrows. destruct (a !! _); [|done]. by rewrite length_insert.
Qed.

Lemma ncols_poke a p v : ncols (poke a p v) = ncols a.
Proof.
  unfold poke. destruct (a !! Z.to_nat p.1) as [row|] eqn:Hrow; [|done].
  destruct a as [|r0 a']; [done|].
  destruct (Z.to_nat p.1) as [|n]; simpl in *.
  - simplify_eq. by rewrite length_insert.
  - done.
Qed.

Lemma rect_poke a p v : rect a -> rect (poke a p v).
Proof.
  intros Hr. unfold rect. rewrite ncols_poke.
  unfold poke. destruct (a !! Z.to_nat p.1) as [row|] eqn:Hrow; [|done].
  apply Forall_insert; [done|].
  rewrite length_insert. eapply rect_row; eauto.
Qed.

Lemma in_bounds_poke a p v q : in_bounds (poke a p v) q <-> in_bounds a q.
Proof. unfold in_bounds. by rewrite nrows_poke, ncols_poke. Qed.

Lemma peek_poke_eq a p v :
  rect a -> in_bounds a p -> peek (poke a p v) p = Some v.
Proof.
  intros Hr Hb. destruct (peek_inb a p Hr Hb) as [w Hw].
  unfold peek, poke in *.
  destruct (a !! Z.to_nat p.1) as [row|] eqn:Hrow; [|done]. simpl in Hw.
  rewrite list_lookup_insert_eq by (by eapply lookup_lt_Some). simpl.
  apply list_lookup_insert_eq. by eapply lookup_lt_Some.
Qed.

Lemma peek_poke_ne a p v q :
  0 <= p.1 -> 0 <= p.2 -> 0 <= q.1 -> 0 <= q.2 -> p <> q ->
  peek (poke a p v) q = peek a q.
Proof.
  intros Hp1 Hp2 Hq1 Hq2 Hne. unfold peek, poke.
  destruct (a !! Z.to_nat p.1) as [row|] eqn:Hrow; [|done].
  destruct (decide (Z.to_nat p.1 = Z.to_nat q.1)) as [E|E].
  - rewrite <- E. rewrite list_lookup_insert_eq by (by eapply lookup_lt_Some).
    rewrite Hrow. simpl. apply list_lookup_insert_ne.
    intros E2. apply Hne. destruct p, q; simpl in *. f_equal; lia.
  - by rewrite list_lookup_insert_ne.
Qed.

Lemma nrows_np_map {W} (f : V -> W) a : nrows (np_map f a) = nrows a.
Proof. unfold nrows, np_map. by rewrite length_fmap. Qed.

Lemma ncols_np_map {W} (f : V -> W) a : ncols (np_map f a) = ncols a.
Proof. destruct a; simpl; [done|]. by rewrite length_fmap. Qed.

Lemma rect_np_map {W} (f : V -> W) a : rect a -> rect (np_map f a).
Proof.
  unfold rect. rewrite ncols_np_map. unfold np_map.
  rewrite Forall_fmap. intros H. eapply Forall_impl; [exact H|].
  intros row. simpl. by rewrite length_fmap.
Qed.

Lemma peek_np_map {W} (f : V -> W) a p : peek (np_map f a) p = f <$> peek a p.
Proof.
  unfold peek, np_map. rewrite list_lookup_fmap.
  destruct (a !! Z.to_nat p.1); simpl; [|done]. by rewrite list_lookup_fmap.
Qed.

End NumpyFacts.

(** Rewrite with an equation after projecting the pairs in it. *)
Ltac rewrite_proj H :=
  let E := fresh "E" in
  pose proof H as E; cbn [fst snd] in E; rewrite E; clear E.

(** ** Facts about [np.ndindex] *)

Lemma elem_of_ndindex (r c : nat) (p : cell) :
  p ∈ ndindex r c <-> 0 <= p.1 < Z.of_nat r /\ 0 <= p.2 < Z.of_nat c.
Proof.
  unfold ndindex. rewrite list_elem_of_bind. split.
  - intros (i & Hp & Hi). apply list_elem_of_bind in Hp as (j & Hp & Hj).
    apply list_elem_of_singleton in Hp. subst p. simpl.
    apply elem_of_seq in Hi, Hj. lia.
  - intros [H1 H2]. exists (Z.to_nat p.1). split.
    + apply list_elem_of_bind. exists (Z.to_nat p.2). split.
      * apply list_elem_of_singleton. destruct p; simpl in *. f_equal; lia.
      * apply elem_of_seq. lia.
    + apply elem_of_seq. lia.
Qed.

Lemma length_bind_const {A B} (f : A -> list B) (l : list A) (c : nat) :
  (forall x, length (f x) = c) -> length (l ≫= f) = (length l * c)%nat.
Proof.
  intros Hf. induction l as [|x l IH]; [done|].
  rewrite bind_cons, length_app, IH, Hf. done.
Qed.

Lemma length_ndindex (r c : nat) : length (ndindex r c) = (r * c)%nat.
Proof.
  unfold ndindex. rewrite (length_bind_const _ _ c).
  - by rewrite length_seq.
  - intros i. rewrite (length_bind_const _ _ 1%nat); [|done].
    rewrite length_seq. lia.
Qed.

Lemma elem_of_all_cells {V} (a : array V) (p : cell) :
  p ∈ all_cells a <-> in_bounds a p.
Proof.
  unfold all_cells, in_bounds. rewrite elem_of_ndindex.
  unfold nrows. destruct a; simpl; lia.
Qed.

Lemma length_all_cells {V} (a : array V) :
  length (all_cells a) = (Z.to_nat (nrows a) * Z.to_nat (ncols a))%nat.
Proof. apply length_ndindex. Qed.

(** ** Greedy descent: termination and descent *)

Section GreedyFacts.
Context {V : Type} (ltb : V -> V -> bool).
Hypothesis ltb_irrefl : forall x, ltb x x = false.
Hypothesis ltb_trans : forall x y z, ltb x y = true -> ltb y z = true -> ltb x z = true.
Implicit Types (a : array V) (p q : cell).

(** The field value at [p] is strictly below the one at [q]. *)
Definition below a p q : Prop :=
  match peek a p, peek a q with
  | Some x, Some y => ltb x y = true
  | _, _ => False
  end.

#[local] Instance below_dec a p q : Decision (below a p q).
Proof. unfold below. destruct (peek a p), (peek a q); apply _. Defined.

(** How many cells of the array lie strictly below [q]. *)
Definition rank a q : nat := length (filter (fun p => below a p q) (all_cells a)).

(** Every step of the path goes strictly down. *)
Fixpoint descending a (path : list cell) : Prop :=
  match path with
  | p :: rest => match rest with q :: _ => below a q p | [] => True end /\ descending a rest
  | [] => True
  end.

Lemma below_trans a p q r : below a p q -> below a q r -> below a p r.
Proof.
  unfold below. destruct (peek a p), (peek a q), (peek a r); try done.
  apply ltb_trans.
Qed.

Lemma below_irrefl a p : ~ below a p p.
Proof. unfold below. destruct (peek a p); [|tauto]. by rewrite ltb_irrefl. Qed.

Lemma rank_below a p q : in_bounds a p -> below a p q -> (rank a p < rank a q)%nat.
Proof.
  intros Hb Hpq. unfold rank.
  rewrite (list_filter_iff (fun x => below a x p) (fun x => below a x p /\ below a x q)).
  2:{ intros x. split; [|tauto]. intros Hx. split; [done|]. by eapply below_trans. }
  rewrite <- list_filter_filter.
  apply (length_filter_lt _ _ p).
  - apply list_elem_of_filter. split; [done|]. by apply elem_of_all_cells.
  - apply below_irrefl.
Qed.

Lemma rank_bound a q : (rank a q <= Z.to_nat (nrows a) * Z.to_nat (ncols a))%nat.
Proof. unfold rank. rewrite <- length_all_cells. apply length_filter. Qed.

(** What the scan of the moves keeps true of [(best_value, next_cell)]. *)
Definition scan_inv a (current : cell) (vc : V) (st : V * cell) : Prop :=
  st = (vc, current)
  \/ (in_bounds a st.2 /\ peek a st.2 = Some st.1 /\ ltb st.1 vc = true).

Lemma scan_move_inv a current vc st move :
  rect a -> scan_inv a current vc st ->
  exists st', GreedyDescent.scan_move ltb a current st move = Ok st'
              /\ scan_inv a current vc st'.
Proof.
  intros Hr Hinv. unfold GreedyDescent.scan_move. destruct st as [best next].
  set (nr := current.1 + move.1). set (nc := current.2 + move.2).
  destruct ((0 <=? nr) && (nr <? nrows a) && (0 <=? nc) && (nc <? ncols a)) eqn:Hin;
    [|eauto].
  assert (Hb : in_bounds a (nr, nc)).
  { repeat (apply andb_true_iff in Hin as [Hin ?]). unfold in_bounds. simpl. lia. }
  destruct (peek_inb a _ Hr Hb) as [v Hv].
  rewrite_proj (np_get_peek a (nr, nc) v Hb Hv). simpl.
  destruct (ltb v best) eqn:Hlt; [|eauto].
  simpl. eexists. split; [done|]. right. simpl. split_and!; [done..|].
  destruct Hinv as [E|(_ & _ & Hlt')]; simplify_eq; simpl in *; [done|].
  by eapply ltb_trans.
Qed.

Lemma scan_inv_loop a current vc moves st :
  rect a -> scan_inv a current vc st ->
  exists st', for_each moves (GreedyDescent.scan_move ltb a current) st = Ok st'
              /\ scan_inv a current vc st'.
Proof.
  intros Hr. revert st. induction moves as [|m moves IH]; intros st Hinv; simpl.
  - eauto.
  - destruct (scan_move_inv a current vc st m Hr Hinv) as (st1 & E & Hinv1).
    rewrite E. simpl. by apply IH.
Qed.

Lemma cell_eqb_eq p q : cell_eqb p q = true <-> p = q.
Proof.
  unfold cell_eqb. rewrite andb_true_iff, !Z.eqb_eq.
  destruct p, q; simpl. split; [intros []; congruence|intros; simplify_eq; done].
Qed.

Lemma descend_total a goal moves :
  rect a ->
  forall fuel current rows cols,
    in_bounds a current -> (rank a current < fuel)%nat ->
    exists tail,
      GreedyDescent.descend ltb fuel a goal moves current rows cols
        = Ok (rows ++ tail.*1, cols ++ tail.*2)
      /\ descending a (current :: tail)
      /\ Forall (in_bounds a) tail
      /\ (length tail <= rank a current)%nat.
Proof.
  intros Hr. induction fuel as [|fuel IH]; intros current rows cols Hb Hfuel; [lia|].
  simpl.
  destruct (negb (current.1 =? goal.1) || negb (current.2 =? goal.2)).
  2:{ exists []. simpl. rewrite !app_nil_r. split_and!; [done..|lia]. }
  destruct (peek_inb a _ Hr Hb) as [vc Hvc].
  rewrite (np_get_peek a current vc Hb Hvc). simpl.
  destruct (scan_inv_loop a current vc moves (vc, current) Hr) as (st & E & Hinv);
    [by left|].
  rewrite E. simpl.
  destruct (cell_eqb st.2 current) eqn:Heq.
  { exists []. simpl. rewrite !app_nil_r. split_and!; [done..|lia]. }
  destruct Hinv as [->|(Hb' & Hv' & Hlt)].
  { simpl in Heq. assert (cell_eqb current current = true) by by apply cell_eqb_eq.
    congruence. }
  assert (Hbelow : below a st.2 current).
  { unfold below. by rewrite Hv', Hvc. }
  pose proof (rank_below a _ _ Hb' Hbelow) as Hrank.
  destruct (IH st.2 (rows ++ [st.2.1]) (cols ++ [st.2.2]) Hb') as (tail & E' & Hd & Hall & Hlen);
    [lia|].
  exists (st.2 :: tail). rewrite E'. rewrite <- !app_assoc.
  split; [done|]. split; [split; [done|exact Hd]|].
  split; [by constructor|simpl; lia].
Qed.

(** More fuel never changes an answer. *)
Lemma descend_fuel_mono a goal moves fuel fuel' current rows cols r :
  (fuel <= fuel')%nat ->
  GreedyDescent.descend ltb fuel a goal moves current rows cols = Ok r ->
  GreedyDescent.descend ltb fuel' a goal moves current rows cols = Ok r.
Proof.
  revert fuel' current rows cols.
  induction fuel as [|fuel IH]; intros fuel' current rows cols Hle; simpl.
  - destruct (negb _ || negb _) eqn:E; [done|].
    intros <-. destruct fuel'; simpl; by rewrite E.
  - destruct fuel' as [|fuel']; [lia|]. simpl.
    destruct (negb _ || negb _); [|done].
    destruct (np_get a current.1 current.2); simpl; [|done..].
    destruct (for_each moves _ _); simpl; [|done..].
    destruct (cell_eqb _ _); [done|]. apply IH. lia.
Qed.

(** C10. [greedy_descent_path] terminates on every rectangular field, whatever
    its values (only that [<] is a strict partial order is used), from every
    in-bounds start and for connectivity 4 and 8: with fuel [R * C] or more it
    returns a path that starts at [start], stays in bounds, goes strictly down
    in field value at every move, and so visits at most [R * C] cells, which
    is at most [R * C - 1 <= R * C] moves. *)
Theorem greedy_descent_path_terminates a start goal connectivity fuel :
  rect a -> in_bounds a start -> connectivity = 4 \/ connectivity = 8 ->
  (Z.to_nat (nrows a) * Z.to_nat (ncols a) <= fuel)%nat ->
  exists path,
    GreedyDescent.greedy_descent_path ltb fuel a start goal connectivity
      = Ok (path.*1, path.*2)
    /\ head path = Some start
    /\ descending a path
    /\ Forall (in_bounds a) path
    /\ Z.of_nat (length path) - 1 < nrows a * ncols a.
Proof.
  intros Hr Hb Hc Hfuel.
  assert (Hrank : (rank a start < Z.to_nat (nrows a) * Z.to_nat (ncols a))%nat).
  { unfold rank. rewrite <- length_all_cells.
    apply (length_filter_lt _ _ start); [by apply elem_of_all_cells|].
    apply below_irrefl. }
  unfold GreedyDescent.greedy_descent_path.
  assert (exists moves, GreedyDescent.move_type connectivity = Ok moves) as [moves ->].
  { destruct Hc as [-> | ->]; eexists; reflexivity. }
  simpl.
  destruct (descend_total a goal moves Hr fuel start [start.1] [start.2] Hb)
    as (tail & E & Hd & Hall & Hlen); [lia|].
  exists (start :: tail). rewrite E. split_and!; [done|done|exact Hd|by constructor|].
  simpl length. destruct Hb. unfold in_bounds in *. nia.
Qed.

End GreedyFacts.

Lemma greedy_descent_path_terminates_witness :
  exists path,
    GreedyDescent.greedy_descent_path Z.ltb 6 [[5; 1; 4]; [3; 0; 2]] (0, 0) (1, 1) 8
      = Ok (path.*1, path.*2)
    /\ head path = Some (0, 0)
    /\ descending Z.ltb [[5; 1; 4]; [3; 0; 2]] path
    /\ Forall (in_bounds [[5; 1; 4]; [3; 0; 2]]) path
    /\ Z.of_nat (length path) - 1 < nrows [[5; 1; 4]; [3; 0; 2]] * ncols [[5; 1; 4]; [3; 0; 2]].
Proof.
  apply (greedy_descent_path_terminates Z.ltb Z.ltb_irrefl).
  - intros x y z. rewrite !Z.ltb_lt. lia.
  - repeat constructor.
  - unfold in_bounds, nrows, ncols; cbn; lia.
  - right; reflexivity.
  - unfold nrows, ncols; cbn; lia.
Defined.

(** ** Gradient descent: which move a step selects *)

(** The selection rule in the words of the specification: the first move, in
    enumeration order, whose potential difference is the minimum. *)
Definition spec_first_minimum {V : Type} (ltb : V -> V -> bool)
    (items : list (V * cell)) : option (V * cell) :=
  match items with
  | [] => None
  | x :: xs => Some (fold_left (fun best item => if ltb item.1 best.1 then item else best) xs x)
  end.

(** A descent step that selects its move by that rule. *)
Definition spec_gradient_descent_step {V : Type} (sub : V -> V -> V)
    (ltb : V -> V -> bool) (total_potential : array V) (current : cell)
    (connectivity : Z) : outcome cell :=
  moves ← GradientDescent.move_type connectivity;
  potential_diffs ←
    for_each moves (GradientDescent.potential_diff sub total_potential current) [];
  match spec_first_minimum ltb (zip potential_diffs moves) with
  | Some best => Ok (current.1 + best.2.1, current.2 + best.2.2)
  | None => Raise (ValueError "min() arg is an empty sequence")
  end.

(** The potential difference of one candidate move. *)
Definition diff_at {V : Type} (sub : V -> V -> V) (total_potential : array V)
    (current move : cell) : outcome V :=
  a ← np_get total_potential (current.1 + move.1) (current.2 + move.2);
  b ← np_get total_potential current.1 current.2;
  Ok (sub a b).

Section GradientFacts.
Context {V : Type} (sub : V -> V -> V) (ltb eqb : V -> V -> bool).
(** [<] is a strict order and [==] a partial equivalence compatible with it;
    this holds of floats, NaN included. *)
Hypothesis ltb_irrefl : forall x, ltb x x = false.
Hypothesis ltb_trans : forall x y z, ltb x y = true -> ltb y z = true -> ltb x z = true.
Hypothesis eqb_sym : forall x y, eqb x y = true -> eqb y x = true.
Hypothesis eqb_trans : forall x y z, eqb x y = true -> eqb y z = true -> eqb x z = true.
Hypothesis ltb_eqb_l : forall x y z, eqb x y = true -> ltb x z = ltb y z.
Hypothesis ltb_eqb_r : forall x y z, eqb x y = true -> ltb z x = ltb z y.

Abbreviation tuple_lt := (GradientDescent.tuple_lt ltb eqb).
Abbreviation list_lt := GradientDescent.list_lt.

Lemma list_lt_irrefl m : list_lt m m = false.
Proof. unfold list_lt. rewrite Z.eqb_refl. apply Z.ltb_irrefl. Qed.

Lemma list_lt_trans m1 m2 m3 :
  list_lt m1 m2 = true -> list_lt m2 m3 = true -> list_lt m1 m3 = true.
Proof.
  unfold list_lt.
  destruct (Z.eqb_spec m1.1 m2.1), (Z.eqb_spec m2.1 m3.1), (Z.eqb_spec m1.1 m3.1);
    rewrite ?Z.ltb_lt; lia.
Qed.

Lemma tuple_lt_irrefl x : tuple_lt x x = false.
Proof.
  unfold GradientDescent.tuple_lt. destruct (eqb x.1 x.1); [apply list_lt_irrefl|done].
Qed.

Lemma tuple_lt_trans x y z :
  tuple_lt x y = true -> tuple_lt y z = true -> tuple_lt x z = true.
Proof.
  unfold GradientDescent.tuple_lt.
  destruct (eqb x.1 y.1) eqn:Exy, (eqb y.1 z.1) eqn:Eyz; intros Hxy Hyz.
  - rewrite (eqb_trans _ _ _ Exy Eyz). by eapply list_lt_trans.
  - destruct (eqb x.1 z.1) eqn:Exz.
    + rewrite (eqb_trans _ _ _ (eqb_sym _ _ Exy) Exz) in Eyz. done.
    + by rewrite (ltb_eqb_l _ _ _ Exy).
  - destruct (eqb x.1 z.1) eqn:Exz.
    + rewrite (eqb_trans _ _ _ Exz (eqb_sym _ _ Eyz)) in Exy. done.
    + by rewrite <- (ltb_eqb_r _ _ _ Eyz).
  - destruct (eqb x.1 z.1) eqn:Exz.
    + rewrite (ltb_eqb_l _ _ _ Exz) in Hxy.
      pose proof (ltb_trans _ _ _ Hxy Hyz) as Hzz. by rewrite ltb_irrefl in Hzz.
    + by eapply ltb_trans.
Qed.

(** Python's [min] returns an item that no item is below. *)
Lemma fold_min_least xs best0 :
  let best := fold_left (fun best item => if tuple_lt item best then item else best) xs best0 in
  (best = best0 \/ (best ∈ xs /\ tuple_lt best best0 = true))
  /\ forall x, x ∈ xs -> tuple_lt x best = false.
Proof.
  revert best0. induction xs as [|x xs IH]; intros best0; simpl.
  - split; [by left|]. intros x Hx. by apply elem_of_nil in Hx.
  - destruct (tuple_lt x best0) eqn:Hlt.
    + specialize (IH x). simpl in IH. revert IH.
      generalize (fold_left (fun best item => if tuple_lt item best then item else best) xs x).
      intros best (Hin & Hall). split.
      * right. destruct Hin as [->|[Hin Hlt']]; [split; [left|done]|].
        split; [by right|]. by eapply tuple_lt_trans.
      * intros y [->|Hy]%elem_of_cons; [|by apply Hall].
        destruct Hin as [->|[Hin Hlt']]; [apply tuple_lt_irrefl|].
        destruct (tuple_lt x best) eqn:E; [|done].
        pose proof (tuple_lt_trans _ _ _ E Hlt') as Hyy.
        by rewrite tuple_lt_irrefl in Hyy.
    + specialize (IH best0). simpl in IH. revert IH.
      generalize (fold_left (fun best item => if tuple_lt item best then item else best) xs best0).
      intros best (Hin & Hall). split.
      * destruct Hin as [->|[Hin Hlt']]; [by left|right]. split; [by right|done].
      * intros y [->|Hy]%elem_of_cons; [|by apply Hall].
        destruct Hin as [->|[Hin Hlt']]; [done|].
        destruct (tuple_lt x best) eqn:E; [|done].
        pose proof (tuple_lt_trans _ _ _ E Hlt') as Hyy. congruence.
Qed.

Lemma potential_diffs_spec tp current moves acc :
  (forall m, m ∈ moves -> exists d, diff_at sub tp current m = Ok d) ->
  exists ds,
    for_each moves (GradientDescent.potential_diff sub tp current) acc = Ok (acc ++ ds)
    /\ Forall2 (fun d m => diff_at sub tp current m = Ok d) ds moves.
Proof.
  revert acc. induction moves as [|m moves IH]; intros acc Hall; simpl.
  - exists []. by rewrite app_nil_r.
  - destruct (Hall m) as [d Hd]; [by left|].
    assert (GradientDescent.potential_diff sub tp current acc m = Ok (acc ++ [d])) as ->.
    { unfold GradientDescent.potential_diff. unfold diff_at in Hd.
      destruct (np_get tp (current.1 + m.1) (current.2 + m.2)); simpl in *; [|done..].
      destruct (np_get tp current.1 current.2); simpl in *; [|done..]. congruence. }
    simpl. destruct (IH (acc ++ [d])) as (ds & E & HF).
    { intros m' Hm'. apply Hall. by right. }
    exists (d :: ds). rewrite E, <- app_assoc. split; [done|]. by constructor.
Qed.

Lemma elem_of_zip_Forall2 {A B} (R : A -> B -> Prop) (xs : list A) (ys : list B) x y :
  Forall2 R xs ys -> (x, y) ∈ zip xs ys -> R x y /\ y ∈ ys.
Proof.
  induction 1 as [|x0 y0 xs ys HR HF IH]; simpl; [by intros ?%elem_of_nil|].
  intros [E|Hin]%elem_of_cons.
  - simplify_eq. split; [done|by left].
  - destruct (IH Hin). split; [done|by right].
Qed.

Lemma elem_of_zip_r {A B} (R : A -> B -> Prop) (xs : list A) (ys : list B) y :
  Forall2 R xs ys -> y ∈ ys -> exists x, (x, y) ∈ zip xs ys /\ R x y.
Proof.
  induction 1 as [|x0 y0 xs ys HR HF IH]; simpl; [by intros ?%elem_of_nil|].
  intros [->|Hin]%elem_of_cons.
  - exists x0. split; [by left|done].
  - destruct (IH Hin) as (x & Hx & HRx). exists x. split; [by right|done].
Qed.

(** C2, as the code has it.  In every gradient-descent step whose candidate
    reads all succeed, the selected move has a minimum potential difference
    (no candidate's difference is below it), and among the moves that tie on
    that difference the lexicographically smallest move vector (row offset
    first, then column offset) wins: no tied move vector is below the
    selected one. *)
Theorem gradient_descent_step_selects tp current connectivity moves :
  GradientDescent.move_type connectivity = Ok moves ->
  (forall m, m ∈ moves -> exists d, diff_at sub tp current m = Ok d) ->
  exists m d,
    m ∈ moves /\ diff_at sub tp current m = Ok d
    /\ GradientDescent.gradient_descent_step sub ltb eqb tp current connectivity
        = Ok (current.1 + m.1, current.2 + m.2)
    /\ forall m' d', m' ∈ moves -> diff_at sub tp current m' = Ok d' ->
         ltb d' d = false /\ (eqb d' d = true -> GradientDescent.list_lt m' m = false).
Proof.
  intros Hmoves Hall. unfold GradientDescent.gradient_descent_step.
  rewrite Hmoves. simpl.
  destruct (potential_diffs_spec tp current moves [] Hall) as (ds & E & HF).
  rewrite E. simpl.
  destruct (zip ds moves) as [|x xs] eqn:Hzip.
  { destruct HF; simpl in *; [|done].
    unfold GradientDescent.move_type in Hmoves.
    repeat case_match; simplify_eq. }
  simpl.
  pose proof (fold_min_least xs x) as [Hin Hleast]. simpl in *.
  revert Hin Hleast.
  generalize (fold_left (fun best item => if tuple_lt item best then item else best) xs x).
  intros [d m] Hin Hleast.
  assert (Hbest : (d, m) ∈ zip ds moves).
  { rewrite Hzip. destruct Hin as [->|[Hin _]]; [by left|by right]. }
  assert (Hx : tuple_lt x (d, m) = false).
  { destruct Hin as [<-|[_ Hlt]]; [apply tuple_lt_irrefl|].
    destruct (tuple_lt x (d, m)) eqn:Hx; [|done].
    pose proof (tuple_lt_trans _ _ _ Hlt Hx) as Hdd. by rewrite tuple_lt_irrefl in Hdd. }
  destruct (elem_of_zip_Forall2 _ _ _ _ _ HF Hbest) as [Hd Hm].
  exists m, d. split_and!; [done..|].
  intros m' d' Hm' Hd'.
  destruct (elem_of_zip_r _ _ _ _ HF Hm') as (d'' & Hin' & Hd'').
  assert (d'' = d') as -> by congruence.
  assert (Hnlt : tuple_lt (d', m') (d, m) = false).
  { rewrite Hzip in Hin'. apply elem_of_cons in Hin' as [<-|Hin']; [done|by apply Hleast]. }
  unfold GradientDescent.tuple_lt in Hnlt. simpl in Hnlt.
  destruct (eqb d' d) eqn:Heq.
  - split; [|done]. by rewrite (ltb_eqb_l _ _ _ Heq).
  - split; [done|]. done.
Qed.

End GradientFacts.

Lemma gradient_descent_step_selects_witness :
  exists m d,
    m ∈ [(0, 0); (0, 1); (-1, 0); (1, 0); (0, -1)]
    /\ diff_at Z.sub [[9; 1; 9]; [9; 5; 1]; [9; 9; 9]] (1, 1) m = Ok d
    /\ GradientDescent.gradient_descent_step Z.sub Z.ltb Z.eqb
          [[9; 1; 9]; [9; 5; 1]; [9; 9; 9]] (1, 1) 4
        = Ok (1 + m.1, 1 + m.2)
    /\ forall m' d', m' ∈ [(0, 0); (0, 1); (-1, 0); (1, 0); (0, -1)] ->
         diff_at Z.sub [[9; 1; 9]; [9; 5; 1]; [9; 9; 9]] (1, 1) m' = Ok d' ->
         Z.ltb d' d = false /\ (Z.eqb d' d = true -> GradientDescent.list_lt m' m = false).
Proof.
  apply (gradient_descent_step_selects Z.sub Z.ltb Z.eqb).
  - apply Z.ltb_irrefl.
  - intros x y z. rewrite !Z.ltb_lt. lia.
  - intros x y. rewrite !Z.eqb_eq. lia.
  - intros x y z. rewrite !Z.eqb_eq. lia.
  - intros x y z ->%Z.eqb_eq. done.
  - intros x y z ->%Z.eqb_eq. done.
  - reflexivity.
  - intros m Hm. repeat (apply elem_of_cons in Hm as [->|Hm]; [eexists; reflexivity|]).
    by apply elem_of_nil in Hm.
Defined.

(** C2, as the specification words it, fails: on this field the moves [(0, 1)]
    and [(-1, 0)] tie at the minimum difference [-4]; [(0, 1)] comes first in
    the enumeration, yet the step goes to [(0, 1) = (1, 1) + (-1, 0)]. *)
Lemma gradient_descent_step_not_first_minimum :
  GradientDescent.gradient_descent_step Z.sub Z.ltb Z.eqb
    [[9; 1; 9]; [9; 5; 1]; [9; 9; 9]] (1, 1) 4 = Ok (0, 1)
  /\ spec_gradient_descent_step Z.sub Z.ltb
       [[9; 1; 9]; [9; 5; 1]; [9; 9; 9]] (1, 1) 4 = Ok (1, 2)
  /\ GradientDescent.gradient_descent_step Z.sub Z.ltb Z.eqb
       [[9; 1; 9]; [9; 5; 1]; [9; 9; 9]] (1, 1) 4
     <> spec_gradient_descent_step Z.sub Z.ltb
          [[9; 1; 9]; [9; 5; 1]; [9; 9; 9]] (1, 1) 4.
Proof. vm_compute. split_and!; [reflexivity|reflexivity|discriminate]. Qed.

(** C3. [gradient_descent_step] reads its candidate neighbours without any
    bounds check.  On the 1x2 field [[1, 0]] the first step from the in-bounds
    start [(0, 0)] reads row [1] for the move [(1, 0)] and raises
    [IndexError]; on the 2x2 field below the move [(-1, 0)] wraps around to the
    last row, wins, and the returned path holds the point [(-1, 0)]. *)
Theorem gradient_descent_path_out_of_bounds :
  GradientDescent.gradient_descent_path Z.sub Z.ltb Z.eqb
    [[1; 0]] (0, 0) (0, 1) 4 1 = Raise IndexError
  /\ GradientDescent.gradient_descent_path Z.sub Z.ltb Z.eqb
       [[5; 5]; [0; 5]] (0, 0) (1, 0) 4 1 = Ok ([0; -1], [0; 0]).
Proof. split; vm_compute; reflexivity. Qed.

(** ** Walks on the grid *)

(** [walk ok moves n p q]: [n] moves of [moves] lead from [p] to [q], and
    every cell entered on the way satisfies [ok]. *)
Inductive walk (ok : cell -> Prop) (moves : list cell) : nat -> cell -> cell -> Prop :=
  | walk_nil p : walk ok moves 0 p p
  | walk_snoc n p q m :
      walk ok moves n p q -> m ∈ moves -> ok (cell_add q m) ->
      walk ok moves (S n) p (cell_add q m).

(** A move list is symmetric when it holds the opposite of each move. *)
Definition symmetric (moves : list cell) : Prop :=
  forall m, m ∈ moves -> (- m.1, - m.2) ∈ moves.

Lemma NoDup_ndindex (r c : nat) : NoDup (ndindex r c).
Proof.
  unfold ndindex. apply NoDup_bind.
  - intros i1 i2 p _ _ H1 H2.
    apply list_elem_of_bind in H1 as (j1 & H1 & _), H2 as (j2 & H2 & _).
    apply list_elem_of_singleton in H1, H2. simplify_eq. lia.
  - intros i _. apply NoDup_bind.
    + intros j1 j2 p _ _ H1 H2. apply list_elem_of_singleton in H1, H2.
      simplify_eq. lia.
    + intros j _. apply NoDup_singleton.
    + apply NoDup_seq.
  - apply NoDup_seq.
Qed.

Lemma NoDup_all_cells {V} (a : array V) : NoDup (all_cells a).
Proof. apply NoDup_ndindex. Qed.

(** A loop over distinct in-bounds cells whose body rewrites the cell it visits
    from that cell's value alone changes each visited cell once. *)
Lemma for_each_pointwise {V} (f : V -> V) (body : array V -> cell -> outcome (array V))
    (cells : list cell) (a : array V) :
  (forall r p v, rect r -> in_bounds r p -> peek r p = Some v ->
                 body r p = Ok (poke r p (f v))) ->
  rect a -> NoDup cells -> Forall (in_bounds a) cells ->
  exists a',
    for_each cells body a = Ok a'
    /\ rect a' /\ nrows a' = nrows a /\ ncols a' = ncols a
    /\ forall p, in_bounds a p ->
         peek a' p = if decide (p ∈ cells) then f <$> peek a p else peek a p.
Proof.
  intros Hbody. revert a.
  induction cells as [|c cells IH]; intros a Hr Hnd Hall; cbn [for_each].
  - exists a. split_and!; [done..|]. intros p _. case_decide as Hp; [|done].
    by apply elem_of_nil in Hp.
  - apply NoDup_cons in Hnd as [Hc Hnd]. apply Forall_cons in Hall as [Hbc Hall].
    destruct (peek_inb a c Hr Hbc) as [v Hv].
    rewrite (Hbody a c v Hr Hbc Hv). simpl.
    destruct (IH (poke a c (f v))) as (a' & E & Hr' & Hn & Hm & Hpeek).
    { by apply rect_poke. }
    { done. }
    { eapply Forall_impl; [exact Hall|]. intros q. by rewrite in_bounds_poke. }
    exists a'. rewrite E, Hn, Hm, nrows_poke, ncols_poke. split_and!; [done..|].
    intros p Hp. rewrite Hpeek by by apply in_bounds_poke.
    destruct (decide (p = c)) as [->|Hne].
    + repeat case_decide; try done.
      * rewrite peek_poke_eq, Hv by done. done.
      * exfalso. auto using list_elem_of_here.
    + destruct Hp as [? ?], Hbc as [? ?].
      rewrite peek_poke_ne by (try lia; congruence).
      repeat case_decide; try done.
      * exfalso. auto using list_elem_of_further.
      * match goal with H : _ ∈ _ :: _ |- _ => apply elem_of_cons in H as [?|?]; done end.
Qed.

Lemma poke_id {V} (a : array V) p v : peek a p = Some v -> poke a p v = a.
Proof.
  unfold peek, poke. destruct (a !! Z.to_nat p.1) as [row|] eqn:Hrow; [|done].
  simpl. intros Hv. rewrite (list_insert_id row) by done. by apply list_insert_id.
Qed.

(** ** Occupancy grids *)

(** A GridMap: a rectangular array whose cells are 0 (free) or 1 (occupied). *)
Definition grid_ok (g : array Z) : Prop :=
  rect g /\ Forall (Forall (fun v => v = 0 \/ v = 1)) g.

Definition free_cell (g : array Z) (p : cell) : Prop :=
  in_bounds g p /\ peek g p = Some 0.

Definition occupied (g : array Z) (p : cell) : Prop :=
  in_bounds g p /\ peek g p = Some 1.

Lemma grid_ok_cell g p :
  grid_ok g -> in_bounds g p -> peek g p = Some 0 \/ peek g p = Some 1.
Proof.
  intros [Hr Hall] Hb. destruct (peek_inb g p Hr Hb) as [v Hv]. rewrite Hv.
  unfold peek in Hv. destruct (g !! Z.to_nat p.1) as [row|] eqn:Hrow; [|done].
  simpl in Hv. rewrite Forall_lookup in Hall. specialize (Hall _ _ Hrow).
  rewrite Forall_lookup in Hall. destruct (Hall _ _ Hv) as [-> | ->]; auto.
Qed.

Lemma connectivity_moves_symmetric :
  symmetric [(1, 0); (0, 1); (-1, 0); (0, -1)]
  /\ symmetric [(-1, 0); (-1, -1); (0, -1); (1, -1); (1, 0); (1, 1); (0, 1); (-1, 1)]
  /\ symmetric [(-1, 0); (0, -1); (1, 0); (0, 1)].
Proof.
  unfold symmetric. split_and!; intros m Hm;
    repeat (apply elem_of_cons in Hm as [->|Hm]; [cbn; set_solver|]);
    by apply elem_of_nil in Hm.
Qed.

(** ** Wavefront: the relaxation invariant *)

(** The finite part of a field value, for the termination measure. *)
Definition weight (d : dist) : nat :=
  match d with
  | Num v => Z.to_nat v
  | Inf => 0
  end.

Definition total (r : array dist) : nat :=
  sum_list_with (sum_list_with weight) r.

Lemma sum_list_with_insert {A} (f : A -> nat) (l : list A) (i : nat) (x y : A) :
  l !! i = Some x ->
  (sum_list_with f (<[i := y]> l) + f x = sum_list_with f l + f y)%nat.
Proof.
  revert i. induction l as [|z l IH]; intros [|i] Hi; simplify_eq/=; [lia|].
  specialize (IH i Hi). lia.
Qed.

Lemma total_poke (r : array dist) p old new :
  peek r p = Some old ->
  (total (poke r p new) + weight old = total r + weight new)%nat.
Proof.
  unfold peek, poke, total.
  destruct (r !! Z.to_nat p.1) as [row|] eqn:Hrow; [|done]. simpl. intros Hold.
  pose proof (sum_list_with_insert (sum_list_with weight) r _ row
                (<[Z.to_nat p.2 := new]> row) Hrow) as H1.
  pose proof (sum_list_with_insert weight row _ old new Hold) as H2. lia.
Qed.

(** What the marking loop writes in place of a grid value. *)
Definition marked (d : dist) : dist :=
  if dist_eqb d (Num 1) then Inf else dist_add d (Num unreached).

Lemma mark_spec r p v :
  rect r -> in_bounds r p -> peek r p = Some v ->
  Wavefront.mark r p = Ok (poke r p (marked v)).
Proof.
  intros Hr Hb Hv. unfold Wavefront.mark, marked.
  rewrite (np_get_peek r p v Hb Hv). simpl.
  destruct (dist_eqb v (Num 1)); [by apply np_set_inb|].
  simpl. by apply np_set_inb.
Qed.

Lemma mark_loop (g : array Z) :
  rect g ->
  exists r,
    for_each (all_cells (np_map Num g)) Wavefront.mark (np_map Num g) = Ok r
    /\ rect r /\ nrows r = nrows g /\ ncols r = ncols g
    /\ forall p, in_bounds g p -> peek r p = (fun v => marked (Num v)) <$> peek g p.
Proof.
  intros Hr.
  destruct (for_each_pointwise marked Wavefront.mark (all_cells (np_map Num g)) (np_map Num g))
    as (r & E & Hr' & Hn & Hm & Hpeek).
  - apply mark_spec.
  - by apply rect_np_map.
  - apply NoDup_all_cells.
  - apply Forall_forall. intros p. by rewrite elem_of_all_cells.
  - exists r. rewrite nrows_np_map in Hn. rewrite ncols_np_map in Hm.
    split_and!; [done..|]. intros p Hp.
    assert (Hp' : in_bounds (np_map Num g) p).
    { unfold in_bounds. by rewrite nrows_np_map, ncols_np_map. }
    rewrite (Hpeek p Hp'). rewrite decide_True by by apply elem_of_all_cells.
    rewrite peek_np_map. by destruct (peek g p).
Qed.

Lemma is_valid_cell_spec (r : array dist) (n : cell) :
  rect r ->
  exists b, Wavefront.is_valid_cell r n = Ok b
    /\ (b = true -> in_bounds r n /\ exists v, peek r n = Some (Num v))
    /\ (b = false -> ~ in_bounds r n \/ peek r n = Some Inf).
Proof.
  intros Hr. unfold Wavefront.is_valid_cell.
  destruct ((n.1 <? 0) || (n.1 >=? nrows r)) eqn:H1.
  { exists false. split_and!; [done|done|]. intros _. left. intros [? ?].
    apply orb_true_iff in H1. lia. }
  destruct ((n.2 <? 0) || (n.2 >=? ncols r)) eqn:H2.
  { exists false. split_and!; [done|done|]. intros _. left. intros [? ?].
    apply orb_true_iff in H2. lia. }
  apply orb_false_iff in H1 as [? ?], H2 as [? ?].
  assert (Hb : in_bounds r n) by (unfold in_bounds; lia).
  destruct (peek_inb r n Hr Hb) as [v Hv].
  rewrite (np_get_peek r n v Hb Hv). simpl.
  destruct v as [z|]; simpl.
  - exists true. split_and!; [done| |done]. intros _. eauto.
  - exists false. split_and!; [done|done|]. intros _. by right.
Qed.

Section WavefrontInvariant.
Context (g : array Z) (goal : cell) (moves : list cell).
Hypothesis g_ok : grid_ok g.
Hypothesis goal_free : free_cell g goal.

(** The neighbour of [p] along [m] is at most one hop farther than [p]. *)
Definition relaxed1 (r : array dist) (p m : cell) : Prop :=
  forall v w, peek r p = Some (Num v) -> in_bounds g (cell_add p m) ->
              peek r (cell_add p m) = Some (Num w) -> w <= v + 1.

(** Obstacles read [inf]; a free cell reads a number in [0, 1e9], which below
    [1e9] is the length of a walk from the goal through free cells. *)
Definition wf_core (r : array dist) : Prop :=
  rect r /\ nrows r = nrows g /\ ncols r = ncols g
  /\ (forall p, occupied g p -> peek r p = Some Inf)
  /\ (forall p, free_cell g p ->
        exists v, peek r p = Some (Num v) /\ 0 <= v <= unreached
                  /\ (v < unreached -> walk (free_cell g) moves (Z.to_nat v) goal p))
  /\ peek r goal = Some (Num 0).

Definition reached (r : array dist) (p : cell) : Prop :=
  in_bounds g p /\ exists v, peek r p = Some (Num v) /\ v < unreached.

(** Every reached cell is pending or has all its neighbours relaxed. *)
Definition wf_front (r : array dist) (pending : cell -> Prop) : Prop :=
  forall p, reached r p -> pending p \/ forall m, m ∈ moves -> relaxed1 r p m.

Lemma core_num r p v :
  wf_core r -> in_bounds g p -> peek r p = Some (Num v) ->
  free_cell g p /\ 0 <= v <= unreached
  /\ (v < unreached -> walk (free_cell g) moves (Z.to_nat v) goal p).
Proof.
  intros (_ & _ & _ & Hocc & Hfree & _) Hb Hv.
  destruct (grid_ok_cell g p g_ok Hb) as [H0|H1].
  - destruct (Hfree p) as (v' & Hv' & Hrange & Hwalk); [done|].
    assert (v' = v) as -> by congruence. done.
  - rewrite (Hocc p) in Hv; [done|]. done.
Qed.

Lemma core_in_bounds r p : wf_core r -> in_bounds r p <-> in_bounds g p.
Proof. intros (_ & Hn & Hm & _). unfold in_bounds. by rewrite Hn, Hm. Qed.

(** Relaxing the neighbour [n] of the reached cell [t]. *)
Lemma core_relax r t m vt vn :
  wf_core r -> in_bounds g t -> peek r t = Some (Num vt) -> vt < unreached ->
  m ∈ moves -> in_bounds g (cell_add t m) ->
  peek r (cell_add t m) = Some (Num vn) -> vt + 1 < vn ->
  wf_core (poke r (cell_add t m) (Num (vt + 1))).
Proof.
  intros Hcore Hbt Hvt Hlt Hm Hbn Hvn Hcloser.
  destruct (core_num r t vt Hcore Hbt Hvt) as (Hft & Hrt & Hwt).
  destruct (core_num r _ vn Hcore Hbn Hvn) as (Hfn & Hrn & _).
  pose proof (proj2 (core_in_bounds r _ Hcore) Hbn) as Hbn'.
  destruct Hcore as (Hr & Hrows & Hcols & Hocc & Hfree & Hgoal).
  set (n := cell_add t m) in *.
  assert (Hother : forall p, in_bounds g p -> p <> n ->
                             peek (poke r n (Num (vt + 1))) p = peek r p).
  { intros p [? ?] Hne. destruct Hbn as [? ?]. apply peek_poke_ne; try lia. congruence. }
  split_and!.
  - by apply rect_poke.
  - by rewrite nrows_poke.
  - by rewrite ncols_poke.
  - intros p [Hbp Hp]. rewrite Hother; [by apply Hocc|done|].
    intros ->. rewrite (Hocc n) in Hvn; done.
  - intros p Hp. destruct (decide (p = n)) as [->|Hne].
    + exists (vt + 1). rewrite peek_poke_eq by done. split_and!; [done|lia|lia|].
      intros _. replace (Z.to_nat (vt + 1)) with (S (Z.to_nat vt)) by lia.
      apply walk_snoc; [apply Hwt; lia|done|done].
    + rewrite Hother; [by apply Hfree|by destruct Hp|done].
  - rewrite Hother; [done|by destruct goal_free|].
    intros E. rewrite E in Hgoal. assert (vn = 0) by congruence. lia.
Qed.

Lemma relax_step r q t m :
  wf_core r -> Forall (reached r) q -> reached r t ->
  wf_front r (fun p => p ∈ q \/ p = t) -> m ∈ moves ->
  exists r' q',
    Wavefront.relax t (r, q) m = Ok (r', q')
    /\ wf_core r' /\ Forall (reached r') q' /\ reached r' t
    /\ wf_front r' (fun p => p ∈ q' \/ p = t)
    /\ relaxed1 r' t m
    /\ (forall m0, relaxed1 r t m0 -> relaxed1 r' t m0)
    /\ (total r' + length q' <= total r + length q)%nat.
Proof.
  intros Hcore Hq Ht Hfront Hm.
  pose proof Hcore as (Hr & Hrows & Hcols & _).
  destruct Ht as (Hbt & vt & Hvt & Hlt).
  pose proof (proj2 (core_in_bounds r _ Hcore) Hbt) as Hbt'.
  unfold Wavefront.relax. fold (cell_add t m).
  change (t.1 + m.1, t.2 + m.2) with (cell_add t m).
  set (n := cell_add t m).
  destruct (is_valid_cell_spec r n Hr) as (b & -> & Htrue & Hfalse). simpl.
  destruct b; simpl.
  2:{ exists r, q. split_and!; try done.
      - split; eauto.
      - intros v w Hv Hbn Hw. destruct Hfalse as [Hnb|Hinf]; [done| |].
        + destruct Hnb. by apply (core_in_bounds r).
        + fold n in Hw. congruence. }
  destruct Htrue as (Hbn' & vn & Hvn); [done|].
  pose proof (proj1 (core_in_bounds r _ Hcore) Hbn') as Hbn.
  change (t.1 + m.1) with n.1. change (t.2 + m.2) with n.2.
  rewrite (np_get_peek r n _ Hbn' Hvn). simpl.
  rewrite (np_get_peek r t _ Hbt' Hvt). simpl.
  destruct (vt + 1 <? vn) eqn:Hcloser; simpl.
  2:{ apply Z.ltb_ge in Hcloser. exists r, q. split_and!; try done.
      - split; eauto.
      - intros v w Hv _ Hw. fold n in Hw. simplify_eq. lia. }
  apply Z.ltb_lt in Hcloser.
  rewrite (np_set_inb r n _ Hbn'). simpl.
  destruct (core_num r t vt Hcore Hbt Hvt) as (Hft & Hrt & Hwt).
  destruct (core_num r n vn Hcore Hbn Hvn) as (Hfn & Hrn & _).
  assert (Htn : t <> n) by (intros E; rewrite <- E in Hvn; simplify_eq; lia).
  set (r' := poke r n (Num (vt + 1))).
  assert (Hsame : forall p, in_bounds g p -> p <> n -> peek r' p = peek r p).
  { intros p [? ?] Hne. destruct Hbn as [? ?]. apply peek_poke_ne; try lia. congruence. }
  assert (Hnew : peek r' n = Some (Num (vt + 1))) by by apply peek_poke_eq.
  assert (Hdown : forall p w', in_bounds g p -> peek r' p = Some (Num w') ->
                    exists w, peek r p = Some (Num w) /\ w' <= w).
  { intros p w' Hp Hw'. destruct (decide (p = n)) as [->|Hne].
    - exists vn. split; [done|]. rewrite Hnew in Hw'. simplify_eq. lia.
    - rewrite Hsame in Hw' by done. exists w'. split; [done|lia]. }
  assert (Hkeep : forall p m0, in_bounds g p -> p <> n -> relaxed1 r p m0 -> relaxed1 r' p m0).
  { intros p m0 Hp Hne Hrel v w Hv Hb Hw. rewrite Hsame in Hv by done.
    destruct (Hdown _ _ Hb Hw) as (w0 & Hw0 & Hle).
    specialize (Hrel v w0 Hv Hb Hw0). lia. }
  exists r', (q ++ [n]). split_and!.
  - done.
  - by apply (core_relax r t m vt vn).
  - apply Forall_app. split.
    + eapply Forall_impl; [exact Hq|]. intros p (Hp & v & Hv & Hvlt). split; [done|].
      destruct (decide (p = n)) as [->|Hne].
      * exists (vt + 1). split; [done|lia].
      * exists v. rewrite Hsame by done. done.
    + apply Forall_singleton. split; [done|]. exists (vt + 1). split; [done|lia].
  - split; [done|]. exists vt. by rewrite Hsame.
  - intros p (Hp & v & Hv & Hvlt).
    destruct (decide (p = n)) as [->|Hne].
    { left. left. apply elem_of_app. right. by left. }
    rewrite Hsame in Hv by done.
    destruct (Hfront p) as [[Hin| ->]|Hrel].
    + split; [done|]. eauto.
    + left. left. apply elem_of_app. by left.
    + left. by right.
    + right. intros m0 Hm0. apply Hkeep; [done|done|]. by apply Hrel.
  - intros v w Hv _ Hw. fold n in Hw. rewrite Hsame in Hv by done. simplify_eq. lia.
  - intros m0. by apply Hkeep.
  - pose proof (total_poke r n (Num vn) (Num (vt + 1)) Hvn) as Ht. fold r' in Ht.
    rewrite length_app. simpl in *. lia.
Qed.

Lemma relax_loop ms r q t :
  wf_core r -> Forall (reached r) q -> reached r t ->
  wf_front r (fun p => p ∈ q \/ p = t) -> (forall m, m ∈ ms -> m ∈ moves) ->
  exists r' q',
    for_each ms (Wavefront.relax t) (r, q) = Ok (r', q')
    /\ wf_core r' /\ Forall (reached r') q' /\ reached r' t
    /\ wf_front r' (fun p => p ∈ q' \/ p = t)
    /\ (forall m0, m0 ∈ ms \/ relaxed1 r t m0 -> relaxed1 r' t m0)
    /\ (total r' + length q' <= total r + length q)%nat.
Proof.
  revert r q. induction ms as [|m ms IH]; intros r q Hcore Hq Ht Hfront Hms; cbn [for_each].
  - exists r, q. split_and!; try done. intros m0 [Hin|?]; [|done]. by apply elem_of_nil in Hin.
  - destruct (relax_step r q t m Hcore Hq Ht Hfront)
      as (r1 & q1 & -> & Hcore1 & Hq1 & Ht1 & Hfront1 & Hm1 & Hkeep1 & Hle1).
    { apply Hms. by left. }
    destruct (IH r1 q1 Hcore1 Hq1 Ht1 Hfront1)
      as (r2 & q2 & E & Hcore2 & Hq2 & Ht2 & Hfront2 & Hkeep2 & Hle2).
    { intros m0 Hm0. apply Hms. by right. }
    exists r2, q2. split_and!; try done; [|lia].
    intros m0 [[->|Hin]%elem_of_cons|Hrel]; apply Hkeep2; auto.
Qed.

Lemma expand_total fuel r q :
  wf_core r -> Forall (reached r) q -> wf_front r (fun p => p ∈ q) ->
  (total r + length q <= fuel)%nat ->
  exists r', Wavefront.expand fuel moves r q = Ok r'
             /\ wf_core r' /\ wf_front r' (fun _ => False).
Proof.
  revert r q. induction fuel as [|fuel IH]; intros r q Hcore Hq Hfront Hfuel.
  - destruct q as [|t q]; [|simpl in Hfuel; lia].
    exists r. split_and!; [done..|].
    intros p Hp. destruct (Hfront p Hp) as [Hin|?]; [|by right]. by apply elem_of_nil in Hin.
  - destruct q as [|t q].
    { exists r. split_and!; [done..|].
      intros p Hp. destruct (Hfront p Hp) as [Hin|?]; [|by right]. by apply elem_of_nil in Hin. }
    cbn [Wavefront.expand]. apply Forall_cons in Hq as [Ht Hq].
    destruct (relax_loop moves r q t Hcore Hq Ht)
      as (r1 & q1 & -> & Hcore1 & Hq1 & Ht1 & Hfront1 & Hkeep1 & Hle1); [|done|].
    { intros p Hp. destruct (Hfront p Hp) as [[->|Hin]%elem_of_cons|?]; auto. }
    simpl. apply IH; [done|done| |simpl in Hfuel; lia].
    intros p Hp. destruct (Hfront1 p Hp) as [[Hin| ->]|?]; [by left| |by right].
    right. intros m Hm. apply Hkeep1. by left.
Qed.

Lemma expand_fuel_mono fuel fuel' r q r' :
  (fuel <= fuel')%nat ->
  Wavefront.expand fuel moves r q = Ok r' -> Wavefront.expand fuel' moves r q = Ok r'.
Proof.
  revert fuel' r q. induction fuel as [|fuel IH]; intros fuel' r q Hle.
  - destruct q; simpl; [|done]. intros <-. by destruct fuel'.
  - destruct fuel' as [|fuel']; [lia|]. destruct q as [|t q]; [done|]. simpl.
    destruct (for_each moves _ _); simpl; [|done..]. apply IH. lia.
Qed.

(** A field on which nothing is left to relax is 1-Lipschitz along moves and
    bounded by the length of every walk from the goal. *)
Lemma front_done_step r p m v w :
  wf_core r -> wf_front r (fun _ => False) -> m ∈ moves ->
  in_bounds g p -> in_bounds g (cell_add p m) ->
  peek r p = Some (Num v) -> peek r (cell_add p m) = Some (Num w) -> w <= v + 1.
Proof.
  intros Hcore Hfront Hm Hp Hn Hv Hw.
  destruct (core_num r _ w Hcore Hn Hw) as (_ & Hrw & _).
  destruct (decide (v < unreached)) as [Hlt|Hge]; [|lia].
  destruct (Hfront p) as [[]|Hrel]; [split; eauto|].
  by apply (Hrel m Hm v w).
Qed.

Lemma front_done_walk r n s p :
  wf_core r -> wf_front r (fun _ => False) ->
  walk (free_cell g) moves n s p -> s = goal ->
  free_cell g p /\ exists v, peek r p = Some (Num v) /\ v <= Z.of_nat n.
Proof.
  intros Hcore Hfront Hwalk. induction Hwalk as [p|n s q m Hwalk IH Hm Hfree]; intros ->.
  - split; [done|]. exists 0. split; [|lia]. by destruct Hcore as (_ & _ & _ & _ & _ & ?).
  - destruct (IH eq_refl) as ([Hq _] & v & Hv & Hle). split; [done|].
    pose proof Hcore as (_ & _ & _ & _ & Hfreer & _).
    destruct (Hfreer _ Hfree) as (w & Hw & _).
    exists w. split; [done|]. destruct Hfree as [Hn _].
    pose proof (front_done_step r q m v w Hcore Hfront Hm Hq Hn Hv Hw). lia.
Qed.

End WavefrontInvariant.

(** What the display loop writes in place of a field value. *)
Definition cleared (d : dist) : dist := if dist_eqb d Inf then Num 0 else d.

Lemma clear_inf_spec r p v :
  rect r -> in_bounds r p -> peek r p = Some v ->
  Wavefront.clear_inf r p = Ok (poke r p (cleared v)).
Proof.
  intros Hr Hb Hv. unfold Wavefront.clear_inf, cleared.
  rewrite (np_get_peek r p v Hb Hv). simpl.
  destruct (dist_eqb v Inf); [by apply np_set_inb|]. by rewrite poke_id.
Qed.

Lemma clear_inf_loop (r : array dist) :
  rect r -> exists vis, for_each (all_cells r) Wavefront.clear_inf r = Ok vis.
Proof.
  intros Hr.
  destruct (for_each_pointwise cleared Wavefront.clear_inf (all_cells r) r)
    as (vis & E & _); eauto using clear_inf_spec, NoDup_all_cells.
  apply Forall_forall. intros p. by rewrite elem_of_all_cells.
Qed.

Lemma wavefront_moves connectivity :
  connectivity = 4 \/ connectivity = 8 ->
  exists moves, Wavefront.move_type connectivity = Ok moves /\ symmetric moves.
Proof.
  intros [-> | ->]; eexists; (split; [reflexivity|]);
    apply connectivity_moves_symmetric.
Qed.

(** The wavefront of a free goal: enough fuel gives a field that satisfies the
    invariant with nothing left to relax. *)
Lemma compute_wavefront_spec g goal connectivity moves :
  grid_ok g -> free_cell g goal -> Wavefront.move_type connectivity = Ok moves ->
  exists fuel0, forall fuel, (fuel0 <= fuel)%nat ->
    exists d vis,
      Wavefront.compute_wavefront fuel g goal connectivity = Ok (d, vis)
      /\ wf_core g goal moves d /\ wf_front g moves d (fun _ => False).
Proof.
  intros Hg Hgoal Hmoves. pose proof Hg as [Hrect _].
  destruct goal as [gr gc]. destruct Hgoal as [Hbg Hvg].
  unfold Wavefront.compute_wavefront. cbn [fst snd].
  destruct (mark_loop g Hrect) as (r1 & -> & Hr1 & Hn1 & Hm1 & Hpeek1).
  cbn [mbind outcome_bind].
  assert (Hbg1 : in_bounds r1 (gr, gc)) by (unfold in_bounds; by rewrite Hn1, Hm1).
  rewrite_proj (np_set_inb r1 (gr, gc) (Num 0) Hbg1). cbn [mbind outcome_bind].
  rewrite Hmoves. cbn [mbind outcome_bind].
  set (r2 := poke r1 (gr, gc) (Num 0)).
  assert (Hsame : forall p, in_bounds g p -> p <> (gr, gc) -> peek r2 p = peek r1 p).
  { intros p [? ?] Hne. destruct Hbg as [? ?]. apply peek_poke_ne; simpl in *; try lia.
    congruence. }
  assert (Hgoal2 : peek r2 (gr, gc) = Some (Num 0)) by by apply peek_poke_eq.
  assert (Hcore : wf_core g (gr, gc) moves r2).
  { split_and!.
    - by apply rect_poke.
    - unfold r2. by rewrite nrows_poke.
    - unfold r2. by rewrite ncols_poke.
    - intros p [Hp Hv]. rewrite Hsame; [|done|congruence].
      rewrite Hpeek1, Hv by done. done.
    - intros p [Hp Hv]. destruct (decide (p = (gr, gc))) as [->|Hne].
      + exists 0. split_and!; [done|lia|unfold unreached; lia|]. intros _. apply walk_nil.
      + exists unreached. rewrite Hsame, Hpeek1, Hv by done.
        split_and!; [done|unfold unreached; lia|lia|lia].
    - done. }
  assert (Hreached : forall p, reached g r2 p -> p = (gr, gc)).
  { intros p (Hp & v & Hv & Hlt). destruct (decide (p = (gr, gc))) as [|Hne]; [done|].
    rewrite Hsame, Hpeek1 in Hv by done.
    destruct (grid_ok_cell g p Hg Hp) as [E|E]; rewrite E in Hv; vm_compute in Hv;
      by simplify_eq. }
  exists (total r2 + 1)%nat. intros fuel Hfuel.
  destruct (expand_total g (gr, gc) moves Hg (conj Hbg Hvg) fuel r2 [(gr, gc)] Hcore)
    as (d & -> & Hcored & Hfrontd).
  - apply Forall_singleton. split; [done|]. exists 0. split; [done|]. unfold unreached; lia.
  - intros p Hp. left. apply list_elem_of_singleton. by apply Hreached.
  - simpl. lia.
  - cbn [mbind outcome_bind].
    destruct (clear_inf_loop d) as [vis ->]; [by destruct Hcored|].
    cbn [mbind outcome_bind]. eauto.
Qed.

(** C4, as the code has it.  For every GridMap, free goal and connectivity 4
    or 8, the wavefront field has the grid's dimensions, carries [inf] at the
    occupied cells and only there, and every free cell carries a number [v]
    with [0 <= v <= 1e9] that no walk from the goal through free cells
    undercuts; when [v < 1e9] such a walk of exactly [v] hops exists, so [v]
    is the hop-count distance to the goal; a free cell that no walk reaches
    keeps the value [1e9]. *)
Theorem wavefront_field_values g goal connectivity :
  grid_ok g -> free_cell g goal -> connectivity = 4 \/ connectivity = 8 ->
  exists moves fuel0,
    Wavefront.move_type connectivity = Ok moves
    /\ forall fuel, (fuel0 <= fuel)%nat ->
       exists d vis,
         Wavefront.compute_wavefront fuel g goal connectivity = Ok (d, vis)
         /\ nrows d = nrows g /\ ncols d = ncols g
         /\ forall p, in_bounds g p ->
              (peek d p = Some Inf <-> occupied g p)
              /\ (free_cell g p ->
                    exists v, peek d p = Some (Num v) /\ 0 <= v <= unreached
                      /\ (v < unreached -> walk (free_cell g) moves (Z.to_nat v) goal p)
                      /\ (forall n, walk (free_cell g) moves n goal p -> v <= Z.of_nat n)
                      /\ ((forall n, ~ walk (free_cell g) moves n goal p) -> v = unreached)).
Proof.
  intros Hg Hgoal Hc. destruct (wavefront_moves connectivity Hc) as (moves & Hmoves & _).
  destruct (compute_wavefront_spec g goal connectivity moves Hg Hgoal Hmoves) as [fuel0 Hrun].
  exists moves, fuel0. split; [done|]. intros fuel Hfuel.
  destruct (Hrun fuel Hfuel) as (d & vis & E & Hcore & Hfront).
  exists d, vis. pose proof Hcore as (_ & Hn & Hm & Hocc & Hfree & _).
  split_and!; [done..|]. intros p Hp. split.
  - split; [|by apply Hocc]. intros Hinf.
    destruct (grid_ok_cell g p Hg Hp) as [E0|E1]; [|by split].
    destruct (Hfree p) as (v & Hv & _); [by split|]. congruence.
  - intros Hfp. destruct (Hfree p Hfp) as (v & Hv & Hrange & Hwalk).
    exists v. split_and!; [done|lia|lia|done| |].
    + intros n Hn'.
      destruct (front_done_walk g goal moves Hg Hgoal d n goal p Hcore Hfront Hn' eq_refl)
        as (_ & v' & Hv' & Hle). by simplify_eq.
    + intros Hnone. destruct (decide (v < unreached)) as [Hlt|]; [|lia].
      destruct (Hnone _ (Hwalk Hlt)).
Qed.

(** C7. For every GridMap, free goal and connectivity 4 or 8, the wavefront
    distances of two free cells adjacent under the connectivity differ by at
    most 1. *)
Theorem wavefront_adjacent_within_one g goal connectivity :
  grid_ok g -> free_cell g goal -> connectivity = 4 \/ connectivity = 8 ->
  exists moves fuel0,
    Wavefront.move_type connectivity = Ok moves
    /\ forall fuel, (fuel0 <= fuel)%nat ->
       exists d vis,
         Wavefront.compute_wavefront fuel g goal connectivity = Ok (d, vis)
         /\ forall p q m, m ∈ moves -> q = cell_add p m ->
              free_cell g p -> free_cell g q ->
              exists a b, peek d p = Some (Num a) /\ peek d q = Some (Num b)
                          /\ Z.abs (a - b) <= 1.
Proof.
  intros Hg Hgoal Hc. destruct (wavefront_moves connectivity Hc) as (moves & Hmoves & Hsym).
  destruct (compute_wavefront_spec g goal connectivity moves Hg Hgoal Hmoves) as [fuel0 Hrun].
  exists moves, fuel0. split; [done|]. intros fuel Hfuel.
  destruct (Hrun fuel Hfuel) as (d & vis & E & Hcore & Hfront).
  exists d, vis. split; [done|]. intros p q m Hm -> Hp Hq.
  pose proof Hcore as (_ & _ & _ & _ & Hfree & _).
  destruct (Hfree p Hp) as (a & Ha & _), (Hfree _ Hq) as (b & Hb & _).
  exists a, b. split_and!; [done..|].
  pose proof (front_done_step g goal moves Hg d p m a b Hcore Hfront Hm
                (proj1 Hp) (proj1 Hq) Ha Hb) as H1.
  assert (Hback : cell_add (cell_add p m) (- m.1, - m.2) = p).
  { destruct p, m. unfold cell_add. simpl. f_equal; lia. }
  pose proof (front_done_step g goal moves Hg d (cell_add p m) (- m.1, - m.2) b a
                Hcore Hfront (Hsym m Hm) (proj1 Hq)) as H2.
  rewrite Hback in H2. specialize (H2 (proj1 Hp) Hb Ha). lia.
Qed.

(** Checks [grid_ok] and cell facts on concrete grids. *)
Ltac grid_ok_tac :=
  split; [repeat constructor|];
  repeat match goal with
         | |- Forall _ _ => constructor
         | |- _ \/ _ => lia
         end.

Ltac cell_tac := split; [unfold in_bounds, nrows, ncols; cbn; lia|reflexivity].

Lemma wavefront_field_values_witness :
  exists moves fuel0,
    Wavefront.move_type 4 = Ok moves
    /\ forall fuel, (fuel0 <= fuel)%nat ->
       exists d vis,
         Wavefront.compute_wavefront fuel [[0; 0]; [1; 0]] (0, 0) 4 = Ok (d, vis)
         /\ nrows d = nrows [[0; 0]; [1; 0]] /\ ncols d = ncols [[0; 0]; [1; 0]]
         /\ forall p, in_bounds [[0; 0]; [1; 0]] p ->
              (peek d p = Some Inf <-> occupied [[0; 0]; [1; 0]] p)
              /\ (free_cell [[0; 0]; [1; 0]] p ->
                    exists v, peek d p = Some (Num v) /\ 0 <= v <= unreached
                      /\ (v < unreached ->
                          walk (free_cell [[0; 0]; [1; 0]]) moves (Z.to_nat v) (0, 0) p)
                      /\ (forall n, walk (free_cell [[0; 0]; [1; 0]]) moves n (0, 0) p ->
                                    v <= Z.of_nat n)
                      /\ ((forall n, ~ walk (free_cell [[0; 0]; [1; 0]]) moves n (0, 0) p) ->
                          v = unreached)).
Proof.
  apply (wavefront_field_values [[0; 0]; [1; 0]] (0, 0) 4).
  - grid_ok_tac.
  - cell_tac.
  - left; reflexivity.
Defined.

Lemma wavefront_adjacent_within_one_witness :
  exists moves fuel0,
    Wavefront.move_type 8 = Ok moves
    /\ forall fuel, (fuel0 <= fuel)%nat ->
       exists d vis,
         Wavefront.compute_wavefront fuel [[0; 0]; [1; 0]] (1, 1) 8 = Ok (d, vis)
         /\ forall p q m, m ∈ moves -> q = cell_add p m ->
              free_cell [[0; 0]; [1; 0]] p -> free_cell [[0; 0]; [1; 0]] q ->
              exists a b, peek d p = Some (Num a) /\ peek d q = Some (Num b)
                          /\ Z.abs (a - b) <= 1.
Proof.
  apply (wavefront_adjacent_within_one [[0; 0]; [1; 0]] (1, 1) 8).
  - grid_ok_tac.
  - cell_tac.
  - right; reflexivity.
Defined.

Lemma no_walk_past_obstacle n p :
  walk (free_cell [[0; 1; 0]]) [(1, 0); (0, 1); (-1, 0); (0, -1)] n (0, 0) p ->
  p = (0, 0).
Proof.
  remember (0, 0) as s eqn:Hs. intros Hwalk.
  induction Hwalk as [p|n s q m Hwalk IH Hm Hfree]; [done|].
  rewrite (IH Hs) in Hfree. subst s. exfalso.
  destruct Hfree as [[? ?] Hv].
  repeat (apply elem_of_cons in Hm as [->|Hm];
          [unfold nrows, ncols in *; cbn in *; first [lia|discriminate]|]).
  by apply elem_of_nil in Hm.
Qed.

(** C4, as the specification words it, fails twice.  An occupied goal cell
    reads [0], not the sentinel; and a free cell that the obstacles cut off
    from the goal keeps [1e9], which is no hop count: no walk through free
    cells reaches it. *)
Lemma wavefront_sentinel_counterexample :
  (occupied [[1]] (0, 0)
   /\ fst <$> Wavefront.compute_wavefront 4 [[1]] (0, 0) 4 = Ok [[Num 0]])
  /\ (free_cell [[0; 1; 0]] (0, 2)
      /\ fst <$> Wavefront.compute_wavefront 4 [[0; 1; 0]] (0, 0) 4
         = Ok [[Num 0; Inf; Num 1000000000]]
      /\ forall n, ~ walk (free_cell [[0; 1; 0]]) [(1, 0); (0, 1); (-1, 0); (0, -1)]
                          n (0, 0) (0, 2)).
Proof.
  split_and!.
  - cell_tac.
  - vm_compute. reflexivity.
  - cell_tac.
  - vm_compute. reflexivity.
  - intros n Hwalk. apply no_walk_past_obstacle in Hwalk. discriminate.
Qed.

Lemma compute_wavefront_fuel_mono fuel fuel' g goal connectivity r :
  (fuel <= fuel')%nat ->
  Wavefront.compute_wavefront fuel g goal connectivity = Ok r ->
  Wavefront.compute_wavefront fuel' g goal connectivity = Ok r.
Proof.
  intros Hle. unfold Wavefront.compute_wavefront.
  destruct (for_each _ Wavefront.mark _) as [r1| |]; simpl; [|done..].
  destruct (np_set r1 _ _ _) as [r2| |]; simpl; [|done..].
  destruct (Wavefront.move_type connectivity) as [moves| |]; simpl; [|done..].
  destruct (Wavefront.expand fuel moves r2 _) as [d| |] eqn:E; simpl; [|done..].
  by rewrite (expand_fuel_mono moves fuel fuel' _ _ d Hle E).
Qed.

(** C8. On the fully free 1x5 grid with goal [(0, 0)] and connectivity 4,
    [greedy_descent_path] applied to the computed wavefront field from start
    [(0, 4)] returns the rows [[0,0,0,0,0]] and columns [[4,3,2,1,0]], that
    is, exactly the path [(0,4), (0,3), (0,2), (0,1), (0,0)]; the wavefront
    loop needs 5 units of fuel and the descent 4. *)
Theorem scenario4_greedy_path fuel_w fuel_g :
  (5 <= fuel_w)%nat -> (4 <= fuel_g)%nat ->
  exists d vis rows cols,
    Wavefront.compute_wavefront fuel_w [[0; 0; 0; 0; 0]] (0, 0) 4 = Ok (d, vis)
    /\ GreedyDescent.greedy_descent_path dist_ltb fuel_g d (0, 4) (0, 0) 4 = Ok (rows, cols)
    /\ zip rows cols = [(0, 4); (0, 3); (0, 2); (0, 1); (0, 0)].
Proof.
  intros Hw Hg.
  set (d := [[Num 0; Num 1; Num 2; Num 3; Num 4]]).
  exists d, d, [0; 0; 0; 0; 0], [4; 3; 2; 1; 0]. split_and!.
  - apply (compute_wavefront_fuel_mono 5); [done|]. vm_compute. reflexivity.
  - unfold GreedyDescent.greedy_descent_path. simpl mbind.
    apply (descend_fuel_mono dist_ltb d (0, 0) _ 4); [done|]. vm_compute. reflexivity.
  - reflexivity.
Qed.

Lemma scenario4_greedy_path_witness :
  exists d vis rows cols,
    Wavefront.compute_wavefront 5 [[0; 0; 0; 0; 0]] (0, 0) 4 = Ok (d, vis)
    /\ GreedyDescent.greedy_descent_path dist_ltb 4 d (0, 4) (0, 0) 4 = Ok (rows, cols)
    /\ zip rows cols = [(0, 4); (0, 3); (0, 2); (0, 1); (0, 0)].
Proof. apply (scenario4_greedy_path 5 4); lia. Defined.

(** ** Brushfire: the breadth-first invariant *)

(** The number of cells that still read 0. *)
Definition zeros (r : array Z) : nat :=
  sum_list_with (sum_list_with (fun v => if v =? 0 then 1%nat else 0%nat)) r.

Lemma zeros_poke (r : array Z) p v :
  peek r p = Some 0 -> v <> 0 -> (zeros (poke r p v) + 1 = zeros r)%nat.
Proof.
  unfold peek, poke, zeros.
  destruct (r !! Z.to_nat p.1) as [row|] eqn:Hrow; [|done]. simpl. intros Hold Hv.
  pose proof (sum_list_with_insert
                (sum_list_with (fun v => if v =? 0 then 1%nat else 0%nat)) r _ row
                (<[Z.to_nat p.2 := v]> row) Hrow) as H1.
  pose proof (sum_list_with_insert (fun v => if v =? 0 then 1%nat else 0%nat)
                row _ 0 v Hold) as H2.
  simpl in H2. destruct (Z.eqb_spec v 0); [done|]. lia.
Qed.

(** [hops g moves n p]: some occupied cell is [n] moves away from [p]. *)
Definition hops (g : array Z) (moves : list cell) (n : nat) (p : cell) : Prop :=
  exists o, occupied g o /\ walk (in_bounds g) moves n o p.

Section BrushfireInvariant.
Context (g : array Z) (moves : list cell).
Hypothesis g_ok : grid_ok g.

(** Occupied cells read 1; every other visited cell reads one more than the
    length of some walk from an occupied cell. *)
Definition bf_core (r : array Z) : Prop :=
  rect r /\ nrows r = nrows g /\ ncols r = ncols g
  /\ (forall p, occupied g p -> peek r p = Some 1)
  /\ (forall p, in_bounds g p ->
        exists v, peek r p = Some v
                  /\ (v = 0 \/ (1 <= v /\ hops g moves (Z.to_nat (v - 1)) p))).

Definition at_level (r : array Z) (v : Z) (p : cell) : Prop :=
  in_bounds g p /\ peek r p = Some v.

Definition visited (r : array Z) (p : cell) : Prop :=
  in_bounds g p /\ exists v, peek r p = Some v /\ v <> 0.

(** The neighbour of [p] along [m] is visited, at most one level above [p]. *)
Definition settled1 (r : array Z) (p m : cell) : Prop :=
  in_bounds g (cell_add p m) ->
  exists v w, peek r p = Some v /\ peek r (cell_add p m) = Some w
              /\ w <> 0 /\ w <= v + 1.

Definition bf_front (r : array Z) (pending : cell -> Prop) : Prop :=
  forall p, visited r p -> pending p \/ forall m, m ∈ moves -> settled1 r p m.

(** The queue holds cells of level [L] followed by cells of level [L + 1],
    and no cell is above level [L + 1]. *)
Definition levels (r : array Z) (q : list cell) (L : Z) : Prop :=
  1 <= L
  /\ (forall p v, in_bounds g p -> peek r p = Some v -> v <= L + 1)
  /\ exists q1 q2, q = q1 ++ q2
       /\ Forall (at_level r L) q1 /\ Forall (at_level r (L + 1)) q2.

Lemma levels_pop r t q L :
  levels r (t :: q) L -> exists L', at_level r L' t /\ levels r q L'.
Proof.
  intros (HL & Hmax & q1 & q2 & E & H1 & H2).
  destruct q1 as [|t1 q1]; simpl in E.
  - subst q2. apply Forall_cons in H2 as [Ht H2].
    exists (L + 1). split; [done|]. split_and!; [lia| |].
    + intros p v Hp Hv. specialize (Hmax p v Hp Hv). lia.
    + exists q, []. rewrite app_nil_r. split_and!; [done|done|constructor].
  - simplify_eq. apply Forall_cons in H1 as [Ht H1].
    exists L. split; [done|]. split_and!; [done|done|]. by exists q1, q2.
Qed.

Lemma bf_core_in_bounds r p : bf_core r -> in_bounds r p <-> in_bounds g p.
Proof. intros (_ & Hn & Hm & _). unfold in_bounds. by rewrite Hn, Hm. Qed.

Lemma visit_step r q t m L :
  bf_core r -> at_level r L t -> levels r q L ->
  bf_front r (fun p => p ∈ q \/ p = t) -> m ∈ moves ->
  exists r' q',
    Brushfire.visit t (r, q) m = Ok (r', q')
    /\ bf_core r' /\ at_level r' L t /\ levels r' q' L
    /\ bf_front r' (fun p => p ∈ q' \/ p = t)
    /\ settled1 r' t m
    /\ (forall m0, settled1 r t m0 -> settled1 r' t m0)
    /\ (zeros r' + length q' = zeros r + length q)%nat.
Proof.
  intros Hcore [Hbt Hvt] Hlev Hfront Hm.
  pose proof Hcore as (Hr & Hrows & Hcols & Hocc & Hval).
  pose proof Hlev as (HL & Hmax & q1 & q2 & Eq & Hq1 & Hq2).
  pose proof (proj2 (bf_core_in_bounds r _ Hcore) Hbt) as Hbt'.
  unfold Brushfire.visit.
  change (t.1 + m.1) with (cell_add t m).1. change (t.2 + m.2) with (cell_add t m).2.
  set (n := cell_add t m).
  destruct ((n.1 >=? nrows r) || (n.2 >=? ncols r) || (n.1 <? 0) || (n.2 <? 0)) eqn:Hout.
  { exists r, q. split_and!; try done. intros [? ?]. rewrite Hrows, Hcols in Hout.
    fold n in H, H0. repeat (apply orb_true_iff in Hout as [Hout|Hout]); lia. }
  repeat (apply orb_false_iff in Hout as [Hout ?]).
  assert (Hbn' : in_bounds r n) by (unfold in_bounds; lia).
  pose proof (proj1 (bf_core_in_bounds r _ Hcore) Hbn') as Hbn.
  destruct (Hval n Hbn) as (vn & Hvn & Hvn').
  rewrite (np_get_peek r n _ Hbn' Hvn). simpl.
  destruct (Z.eqb_spec vn 0) as [->|Hnz].
  2:{ exists r, q. split_and!; try done. intros _. exists L, vn. fold n.
      split_and!; [done..|]. by apply (Hmax n). }
  rewrite (np_get_peek r t _ Hbt' Hvt). simpl.
  rewrite (np_set_inb r n _ Hbn'). simpl.
  set (r' := poke r n (L + 1)).
  assert (Hsame : forall p, in_bounds g p -> p <> n -> peek r' p = peek r p).
  { intros p [? ?] Hne. destruct Hbn as [? ?]. apply peek_poke_ne; try lia. congruence. }
  assert (Hnew : peek r' n = Some (L + 1)) by by apply peek_poke_eq.
  assert (Hnz : forall p v, in_bounds g p -> peek r p = Some v -> v <> 0 -> peek r' p = Some v).
  { intros p v Hp Hv Hv0. rewrite Hsame; [done|done|]. intros ->. congruence. }
  assert (Htn : t <> n) by (intros E; rewrite <- E in Hvn; simplify_eq; lia).
  assert (Hkeep : forall p m0, in_bounds g p -> p <> n ->
                               settled1 r p m0 -> settled1 r' p m0).
  { intros p m0 Hp Hne Hset Hb. destruct (Hset Hb) as (v & w & Hv & Hw & Hw0 & Hle).
    exists v, w. split_and!; [|by apply Hnz|done|done]. by rewrite Hsame. }
  exists r', (q ++ [n]). split_and!.
  - done.
  - split_and!.
    + by apply rect_poke.
    + unfold r'. by rewrite nrows_poke.
    + unfold r'. by rewrite ncols_poke.
    + intros p Hp. apply Hnz; [by destruct Hp|by apply Hocc|done].
    + intros p Hp. destruct (decide (p = n)) as [->|Hne].
      * exists (L + 1). split; [done|]. right. split; [lia|].
        destruct (Hval t Hbt) as (vt & Hvt' & Hcase).
        assert (vt = L) as -> by congruence.
        destruct Hcase as [->|[_ (o & Ho & Hwalk)]]; [lia|].
        exists o. split; [done|].
        replace (Z.to_nat (L + 1 - 1)) with (S (Z.to_nat (L - 1))) by lia.
        by apply walk_snoc.
      * rewrite Hsame by done. by apply Hval.
  - split; [done|]. apply Hnz; [done|done|lia].
  - split_and!; [done| |].
    + intros p v Hp Hv. destruct (decide (p = n)) as [->|Hne].
      * rewrite Hnew in Hv. simplify_eq. lia.
      * rewrite Hsame in Hv by done. by apply (Hmax p).
    + exists q1, (q2 ++ [n]). rewrite Eq, app_assoc. split_and!; [done| |].
      * eapply Forall_impl; [exact Hq1|]. intros p [Hp Hv]. split; [done|].
        apply Hnz; [done|done|lia].
      * apply Forall_app. split; [|by apply Forall_singleton].
        eapply Forall_impl; [exact Hq2|]. intros p [Hp Hv]. split; [done|].
        apply Hnz; [done|done|lia].
  - intros p (Hp & v & Hv & Hv0).
    destruct (decide (p = n)) as [->|Hne].
    { left. left. apply elem_of_app. right. by left. }
    rewrite Hsame in Hv by done.
    destruct (Hfront p) as [[Hin| ->]|Hset].
    + split; eauto.
    + left. left. apply elem_of_app. by left.
    + left. by right.
    + right. intros m0 Hm0. apply Hkeep; [done|done|]. by apply Hset.
  - intros _. exists L, (L + 1). fold n. split_and!; [|done|lia|lia].
    apply Hnz; [done|done|lia].
  - intros m0. by apply Hkeep.
  - pose proof (zeros_poke r n (L + 1) Hvn) as Hz. fold r' in Hz.
    rewrite length_app. simpl. lia.
Qed.

Lemma visit_loop ms r q t L :
  bf_core r -> at_level r L t -> levels r q L ->
  bf_front r (fun p => p ∈ q \/ p = t) -> (forall m, m ∈ ms -> m ∈ moves) ->
  exists r' q',
    for_each ms (Brushfire.visit t) (r, q) = Ok (r', q')
    /\ bf_core r' /\ at_level r' L t /\ levels r' q' L
    /\ bf_front r' (fun p => p ∈ q' \/ p = t)
    /\ (forall m0, m0 ∈ ms \/ settled1 r t m0 -> settled1 r' t m0)
    /\ (zeros r' + length q' = zeros r + length q)%nat.
Proof.
  revert r q. induction ms as [|m ms IH]; intros r q Hcore Ht Hlev Hfront Hms; cbn [for_each].
  - exists r, q. split_and!; try done. intros m0 [Hin|?]; [|done]. by apply elem_of_nil in Hin.
  - destruct (visit_step r q t m L Hcore Ht Hlev Hfront)
      as (r1 & q1 & -> & Hcore1 & Ht1 & Hlev1 & Hfront1 & Hm1 & Hkeep1 & Hle1).
    { apply Hms. by left. }
    destruct (IH r1 q1 Hcore1 Ht1 Hlev1 Hfront1)
      as (r2 & q2 & E & Hcore2 & Ht2 & Hlev2 & Hfront2 & Hkeep2 & Hle2).
    { intros m0 Hm0. apply Hms. by right. }
    exists r2, q2. split_and!; try done; [|lia].
    intros m0 [[->|Hin]%elem_of_cons|Hset]; apply Hkeep2; auto.
Qed.

Lemma propagate_total fuel r q :
  bf_core r -> bf_front r (fun p => p ∈ q) -> (q = [] \/ exists L, levels r q L) ->
  (zeros r + length q <= fuel)%nat ->
  exists r', Brushfire.propagate fuel moves r q = Ok r'
             /\ bf_core r' /\ bf_front r' (fun _ => False).
Proof.
  revert r q. induction fuel as [|fuel IH]; intros r q Hcore Hfront Hlev Hfuel.
  - destruct q as [|t q]; [|simpl in Hfuel; lia].
    exists r. split_and!; [done..|].
    intros p Hp. destruct (Hfront p Hp) as [Hin|?]; [|by right]. by apply elem_of_nil in Hin.
  - destruct q as [|t q].
    { exists r. split_and!; [done..|].
      intros p Hp. destruct (Hfront p Hp) as [Hin|?]; [|by right]. by apply elem_of_nil in Hin. }
    cbn [Brushfire.propagate]. destruct Hlev as [?|[L Hlev]]; [done|].
    destruct (levels_pop r t q L Hlev) as (L' & Ht & Hlev').
    destruct (visit_loop moves r q t L' Hcore Ht Hlev')
      as (r1 & q1 & -> & Hcore1 & Ht1 & Hlev1 & Hfront1 & Hkeep1 & Hle1); [|done|].
    { intros p Hp. destruct (Hfront p Hp) as [[->|Hin]%elem_of_cons|?]; auto. }
    simpl. apply IH; [done| |eauto|simpl in Hfuel; lia].
    intros p Hp. destruct (Hfront1 p Hp) as [[Hin| ->]|?]; [by left| |by right].
    right. intros m Hm. apply Hkeep1. by left.
Qed.

(** When nothing is pending, a walk of [n] moves from an occupied cell ends on
    a cell that reads at most [n + 1]. *)
Lemma bf_done_walk r n o p :
  bf_core r -> bf_front r (fun _ => False) ->
  walk (in_bounds g) moves n o p -> occupied g o ->
  in_bounds g p /\ exists v, peek r p = Some v /\ 1 <= v <= Z.of_nat n + 1.
Proof.
  intros Hcore Hfront Hwalk Ho.
  pose proof Hcore as (_ & _ & _ & Hocc & Hval).
  induction Hwalk as [p|n o q m Hwalk IH Hm Hb].
  - split; [by destruct Ho|]. exists 1. split; [by apply Hocc|lia].
  - destruct (IH Ho) as (Hq & v & Hv & Hrange). split; [done|].
    destruct (Hfront q) as [[]|Hset]; [split; [done|]; exists v; split; [done|lia]|].
    destruct (Hset m Hm Hb) as (v' & w & Hv' & Hw & Hw0 & Hle).
    assert (v' = v) as -> by congruence.
    exists w. split; [done|].
    destruct (Hval _ Hb) as (w' & Hw' & Hcase). assert (w' = w) as -> by congruence.
    destruct Hcase as [->|[? _]]; [done|lia].
Qed.

Lemma seed_loop cells acc :
  Forall (in_bounds g) cells ->
  for_each cells (Brushfire.seed g) acc
  = Ok (acc ++ filter (fun p => peek g p = Some 1) cells).
Proof.
  destruct g_ok as [Hr _]. revert acc.
  induction cells as [|c cells IH]; intros acc Hall; cbn [for_each].
  - by rewrite app_nil_r.
  - apply Forall_cons in Hall as [Hc Hall].
    destruct (peek_inb g c Hr Hc) as [v Hv].
    assert (Brushfire.seed g acc c = Ok (if v =? 1 then acc ++ [c] else acc)) as ->.
    { unfold Brushfire.seed. rewrite (np_get_peek g c v Hc Hv). simpl. by destruct (v =? 1). }
    rewrite filter_cons. destruct (Z.eqb_spec v 1) as [->|Hne]; simpl.
    + rewrite IH by done. rewrite decide_True by done. by rewrite <- app_assoc.
    + rewrite IH by done. rewrite decide_False by congruence. done.
Qed.

End BrushfireInvariant.

(** ** The grid is connected under every move set with the four axis moves *)

Lemma walk_app ok moves n1 n2 p q s :
  walk ok moves n1 p q -> walk ok moves n2 q s -> walk ok moves (n1 + n2) p s.
Proof.
  intros H1 H2. induction H2 as [q|n2 q s m H2 IH Hm Hok].
  - by rewrite Nat.add_0_r.
  - rewrite Nat.add_succ_r. apply walk_snoc; auto.
Qed.

Lemma walk_line ok moves (k : nat) p m :
  m ∈ moves ->
  (forall j, 1 <= j <= Z.of_nat k -> ok (p.1 + j * m.1, p.2 + j * m.2)) ->
  walk ok moves k p (p.1 + Z.of_nat k * m.1, p.2 + Z.of_nat k * m.2).
Proof.
  intros Hm. induction k as [|k IH]; intros Hok.
  - replace (p.1 + Z.of_nat 0 * m.1, p.2 + Z.of_nat 0 * m.2) with p.
    + apply walk_nil.
    + destruct p; simpl. f_equal; lia.
  - replace (p.1 + Z.of_nat (S k) * m.1, p.2 + Z.of_nat (S k) * m.2)
      with (cell_add (p.1 + Z.of_nat k * m.1, p.2 + Z.of_nat k * m.2) m).
    + apply walk_snoc; [apply IH; intros j Hj; apply Hok; lia|done|].
      unfold cell_add. simpl.
      replace (p.1 + Z.of_nat k * m.1 + m.1) with (p.1 + Z.of_nat (S k) * m.1) by lia.
      replace (p.2 + Z.of_nat k * m.2 + m.2) with (p.2 + Z.of_nat (S k) * m.2) by lia.
      apply Hok. lia.
    + unfold cell_add. simpl. f_equal; lia.
Qed.

Lemma grid_connected {V} (g : array V) moves p q :
  (1, 0) ∈ moves -> (-1, 0) ∈ moves -> (0, 1) ∈ moves -> (0, -1) ∈ moves ->
  in_bounds g p -> in_bounds g q ->
  exists n, walk (in_bounds g) moves n p q.
Proof.
  intros Hd Hu Hr Hl [Hp1 Hp2] [Hq1 Hq2].
  assert (Hrows : exists n, walk (in_bounds g) moves n p (q.1, p.2)).
  { destruct (Z.le_ge_cases p.1 q.1).
    - exists (Z.to_nat (q.1 - p.1)).
      pose proof (walk_line (in_bounds g) moves (Z.to_nat (q.1 - p.1)) p (1, 0) Hd) as Hw.
      simpl in Hw. replace (p.1 + Z.of_nat (Z.to_nat (q.1 - p.1)) * 1) with q.1 in Hw by lia.
      replace (p.2 + Z.of_nat (Z.to_nat (q.1 - p.1)) * 0) with p.2 in Hw by lia.
      apply Hw. intros j Hj. unfold in_bounds. simpl. lia.
    - exists (Z.to_nat (p.1 - q.1)).
      pose proof (walk_line (in_bounds g) moves (Z.to_nat (p.1 - q.1)) p (-1, 0) Hu) as Hw.
      simpl in Hw. replace (p.1 + Z.of_nat (Z.to_nat (p.1 - q.1)) * -1) with q.1 in Hw by lia.
      replace (p.2 + Z.of_nat (Z.to_nat (p.1 - q.1)) * 0) with p.2 in Hw by lia.
      apply Hw. intros j Hj. unfold in_bounds. simpl. lia. }
  assert (Hcols : exists n, walk (in_bounds g) moves n (q.1, p.2) q).
  { destruct (Z.le_ge_cases p.2 q.2).
    - exists (Z.to_nat (q.2 - p.2)).
      pose proof (walk_line (in_bounds g) moves (Z.to_nat (q.2 - p.2)) (q.1, p.2) (0, 1) Hr) as Hw.
      simpl in Hw. replace (q.1 + Z.of_nat (Z.to_nat (q.2 - p.2)) * 0) with q.1 in Hw by lia.
      replace (p.2 + Z.of_nat (Z.to_nat (q.2 - p.2)) * 1) with q.2 in Hw by lia.
      rewrite <- surjective_pairing in Hw.
      apply Hw. intros j Hj. unfold in_bounds. simpl. lia.
    - exists (Z.to_nat (p.2 - q.2)).
      pose proof (walk_line (in_bounds g) moves (Z.to_nat (p.2 - q.2)) (q.1, p.2) (0, -1) Hl) as Hw.
      simpl in Hw. replace (q.1 + Z.of_nat (Z.to_nat (p.2 - q.2)) * 0) with q.1 in Hw by lia.
      replace (p.2 + Z.of_nat (Z.to_nat (p.2 - q.2)) * -1) with q.2 in Hw by lia.
      rewrite <- surjective_pairing in Hw.
      apply Hw. intros j Hj. unfold in_bounds. simpl. lia. }
  destruct Hrows as [n1 H1], Hcols as [n2 H2]. exists (n1 + n2)%nat.
  by eapply walk_app.
Qed.

(** Under a symmetric move set a walk can be walked backwards, so the hops
    from an occupied cell to [p] are the hops from [p] to that cell. *)
Lemma walk_cons ok moves n p m q :
  m ∈ moves -> ok (cell_add p m) -> walk ok moves n (cell_add p m) q ->
  walk ok moves (S n) p q.
Proof.
  intros Hm Hok Hwalk.
  change (S n) with (1 + n)%nat. eapply walk_app; [|exact Hwalk].
  apply walk_snoc; [apply walk_nil|done|done].
Qed.

Lemma walk_reverse ok moves n p q :
  symmetric moves -> ok p -> walk ok moves n p q -> walk ok moves n q p.
Proof.
  intros Hsym Hp Hwalk. induction Hwalk as [p|n p q m Hwalk IH Hm Hok].
  - apply walk_nil.
  - assert (Hback : cell_add (cell_add q m) (- m.1, - m.2) = q).
    { destruct q, m. unfold cell_add. simpl. f_equal; lia. }
    assert (Hq : ok q).
    { clear IH Hback. destruct Hwalk; [done|done]. }
    apply (walk_cons ok moves n _ (- m.1, - m.2)); [by apply Hsym| |];
      rewrite Hback; [done|by apply IH].
Qed.

Lemma hops_to_occupied g moves n p :
  symmetric moves -> in_bounds g p ->
  hops g moves n p <-> exists o, occupied g o /\ walk (in_bounds g) moves n p o.
Proof.
  intros Hsym Hp. split.
  - intros (o & Ho & Hwalk). exists o. split; [done|].
    apply walk_reverse; [done|by destruct Ho|done].
  - intros (o & Ho & Hwalk). exists o. split; [done|]. by apply walk_reverse.
Qed.

Lemma brushfire_moves connectivity :
  connectivity = 4 \/ connectivity = 8 ->
  exists moves, Brushfire.move_type connectivity = Ok moves
    /\ (1, 0) ∈ moves /\ (-1, 0) ∈ moves /\ (0, 1) ∈ moves /\ (0, -1) ∈ moves.
Proof.
  intros [-> | ->]; eexists; (split; [reflexivity|]); split_and!; set_solver.
Qed.

(** The brushfire loop: enough fuel gives an array that satisfies the
    invariant with nothing pending; the result is that array minus 1. *)
Lemma compute_obstacle_distance_spec g connectivity moves :
  grid_ok g -> Brushfire.move_type connectivity = Ok moves ->
  exists fuel0, forall fuel, (fuel0 <= fuel)%nat ->
    exists r,
      Brushfire.compute_obstacle_distance fuel g connectivity
        = Ok (np_map (fun v => v - 1) r)
      /\ bf_core g moves r /\ bf_front g moves r (fun _ => False).
Proof.
  intros Hg Hmoves. pose proof Hg as [Hrect _].
  unfold Brushfire.compute_obstacle_distance.
  rewrite (seed_loop g Hg) by (apply Forall_forall; intros p; by rewrite elem_of_all_cells).
  cbn [mbind outcome_bind app]. rewrite Hmoves. cbn [mbind outcome_bind].
  set (q := filter (fun p => peek g p = Some 1) (all_cells g)).
  assert (Hq : forall p, p ∈ q <-> occupied g p).
  { intros p. unfold q. rewrite list_elem_of_filter, elem_of_all_cells.
    unfold occupied. tauto. }
  assert (Hcore : bf_core g moves g).
  { split_and!; [done..| |].
    - by intros p [_ Hp].
    - intros p Hp. destruct (grid_ok_cell g p Hg Hp) as [E|E]; rewrite E.
      + exists 0. eauto.
      + exists 1. split; [done|]. right. split; [lia|].
        exists p. split; [by split|]. apply walk_nil. }
  exists (zeros g + length q)%nat. intros fuel Hfuel.
  destruct (propagate_total g moves fuel g q Hcore) as (r & -> & Hcore' & Hfront'); try done.
  - intros p (Hp & v & Hv & Hv0). left. apply Hq. split; [done|].
    destruct (grid_ok_cell g p Hg Hp) as [E|E]; congruence.
  - right. exists 1. split_and!; [lia| |].
    + intros p v Hp Hv. destruct (grid_ok_cell g p Hg Hp) as [E|E];
        rewrite E in Hv; simplify_eq; lia.
    + exists q, []. rewrite app_nil_r. split_and!; [done| |constructor].
      apply Forall_forall. intros p Hp. by apply Hq.
  - cbn [mbind outcome_bind]. eauto.
Qed.

(** The brushfire result in terms of hop counts, for a grid with an obstacle. *)
Lemma compute_obstacle_distance_hops g connectivity :
  grid_ok g -> (exists o, occupied g o) -> connectivity = 4 \/ connectivity = 8 ->
  exists moves fuel0,
    Brushfire.move_type connectivity = Ok moves
    /\ forall fuel, (fuel0 <= fuel)%nat ->
       exists d,
         Brushfire.compute_obstacle_distance fuel g connectivity = Ok d
         /\ nrows d = nrows g /\ ncols d = ncols g
         /\ forall p, in_bounds g p ->
              exists n, peek d p = Some (Z.of_nat n)
                /\ hops g moves n p
                /\ (forall n', hops g moves n' p -> (n <= n')%nat)
                /\ (occupied g p -> n = 0%nat).
Proof.
  intros Hg [o Ho] Hc.
  destruct (brushfire_moves connectivity Hc) as (moves & Hmoves & Hd & Hu & Hr & Hl).
  destruct (compute_obstacle_distance_spec g connectivity moves Hg Hmoves) as [fuel0 Hrun].
  exists moves, fuel0. split; [done|]. intros fuel Hfuel.
  destruct (Hrun fuel Hfuel) as (r & -> & Hcore & Hfront).
  pose proof Hcore as (_ & Hn & Hm & Hocc & Hval).
  eexists. split; [done|]. rewrite nrows_np_map, ncols_np_map.
  split_and!; [done..|]. intros p Hp.
  destruct (grid_connected g moves o p Hd Hu Hr Hl (proj1 Ho) Hp) as [n0 Hwalk].
  destruct (bf_done_walk g moves r n0 o p Hcore Hfront Hwalk Ho) as (_ & v & Hv & Hv1 & _).
  destruct (Hval p Hp) as (v' & Hv' & Hcase). assert (v' = v) as -> by congruence.
  destruct Hcase as [->|[_ Hhops]]; [lia|].
  exists (Z.to_nat (v - 1)). rewrite peek_np_map, Hv. simpl.
  split_and!.
  - f_equal. lia.
  - done.
  - intros n' (o' & Ho' & Hwalk').
    destruct (bf_done_walk g moves r n' o' p Hcore Hfront Hwalk' Ho') as (_ & w & Hw & Hrange).
    assert (w = v) as -> by congruence. lia.
  - intros Hop. rewrite (Hocc p Hop) in Hv. simplify_eq. done.
Qed.

(** C1, as the code has it.  For every GridMap with at least one occupied
    cell and connectivity 4 or 8, [compute_obstacle_distance] returns a field
    of the grid's dimensions in which every occupied cell reads 0 and every
    free cell reads the minimum number of hops, under the connectivity's
    moves, between it and an occupied cell ([hops] counts them from the
    occupied cell; by [hops_to_occupied] the count from the free cell is the
    same, the move sets being symmetric). *)
Theorem distance_transform_min_hops g connectivity :
  grid_ok g -> (exists o, occupied g o) -> connectivity = 4 \/ connectivity = 8 ->
  exists moves fuel0,
    Brushfire.move_type connectivity = Ok moves
    /\ forall fuel, (fuel0 <= fuel)%nat ->
       exists d,
         Brushfire.compute_obstacle_distance fuel g connectivity = Ok d
         /\ nrows d = nrows g /\ ncols d = ncols g
         /\ forall p,
              (occupied g p -> peek d p = Some 0)
              /\ (free_cell g p ->
                    exists n, peek d p = Some (Z.of_nat n)
                      /\ hops g moves n p
                      /\ forall n', hops g moves n' p -> (n <= n')%nat).
Proof.
  intros Hg Ho Hc.
  destruct (compute_obstacle_distance_hops g connectivity Hg Ho Hc)
    as (moves & fuel0 & Hmoves & Hrun).
  exists moves, fuel0. split; [done|]. intros fuel Hfuel.
  destruct (Hrun fuel Hfuel) as (d & E & Hn & Hm & Hcells).
  exists d. split_and!; [done..|]. intros p. split.
  - intros Hp. destruct (Hcells p (proj1 Hp)) as (n & Hv & _ & _ & H0).
    by rewrite Hv, (H0 Hp).
  - intros Hp. destruct (Hcells p (proj1 Hp)) as (n & Hv & Hhops & Hmin & _). eauto.
Qed.

Lemma distance_transform_min_hops_witness :
  exists moves fuel0,
    Brushfire.move_type 4 = Ok moves
    /\ forall fuel, (fuel0 <= fuel)%nat ->
       exists d,
         Brushfire.compute_obstacle_distance fuel [[0; 0; 0]; [0; 1; 0]] 4 = Ok d
         /\ nrows d = nrows [[0; 0; 0]; [0; 1; 0]]
         /\ ncols d = ncols [[0; 0; 0]; [0; 1; 0]]
         /\ forall p,
              (occupied [[0; 0; 0]; [0; 1; 0]] p -> peek d p = Some 0)
              /\ (free_cell [[0; 0; 0]; [0; 1; 0]] p ->
                    exists n, peek d p = Some (Z.of_nat n)
                      /\ hops [[0; 0; 0]; [0; 1; 0]] moves n p
                      /\ forall n', hops [[0; 0; 0]; [0; 1; 0]] moves n' p -> (n <= n')%nat).
Proof.
  apply (distance_transform_min_hops [[0; 0; 0]; [0; 1; 0]] 4).
  - grid_ok_tac.
  - exists (1, 1). cell_tac.
  - left; reflexivity.
Defined.

Lemma no_occupied_all_free (o : cell) : ~ occupied [[0; 0]] o.
Proof.
  intros [[H1 H2] Hv]. unfold nrows, ncols in *. cbn in *.
  destruct o as [r c]. simpl in *.
  assert (r = 0) as -> by lia.
  assert (c = 0 \/ c = 1) as [-> | ->] by lia; discriminate.
Qed.

(** C1, as the specification words it, fails on a grid without obstacles:
    every free cell reads [-1], and no occupied cell is any number of hops
    away. *)
Lemma distance_transform_all_free_counterexample :
  Brushfire.compute_obstacle_distance 2 [[0; 0]] 4 = Ok [[-1; -1]]
  /\ free_cell [[0; 0]] (0, 0)
  /\ forall n, ~ hops [[0; 0]] [(-1, 0); (0, -1); (1, 0); (0, 1)] n (0, 0).
Proof.
  split_and!.
  - vm_compute. reflexivity.
  - cell_tac.
  - intros n (o & Ho & _). by apply no_occupied_all_free in Ho.
Qed.

(** C5, as the code has it.  For every GridMap with at least one occupied
    cell and connectivity 4 or 8, every value of the returned field is at
    least 0, and every occupied cell's value is exactly 0. *)
Theorem distance_transform_nonnegative g connectivity :
  grid_ok g -> (exists o, occupied g o) -> connectivity = 4 \/ connectivity = 8 ->
  exists fuel0, forall fuel, (fuel0 <= fuel)%nat ->
    exists d,
      Brushfire.compute_obstacle_distance fuel g connectivity = Ok d
      /\ forall p, in_bounds g p ->
           exists v, peek d p = Some v /\ 0 <= v /\ (occupied g p -> v = 0).
Proof.
  intros Hg Ho Hc.
  destruct (compute_obstacle_distance_hops g connectivity Hg Ho Hc)
    as (moves & fuel0 & Hmoves & Hrun).
  exists fuel0. intros fuel Hfuel.
  destruct (Hrun fuel Hfuel) as (d & E & Hn & Hm & Hcells).
  exists d. split; [done|]. intros p Hp.
  destruct (Hcells p Hp) as (n & Hv & _ & _ & H0).
  exists (Z.of_nat n). split_and!; [done|lia|]. intros Hop. by rewrite (H0 Hop).
Qed.

Lemma distance_transform_nonnegative_witness :
  exists fuel0, forall fuel, (fuel0 <= fuel)%nat ->
    exists d,
      Brushfire.compute_obstacle_distance fuel [[1; 0]; [0; 0]] 8 = Ok d
      /\ forall p, in_bounds [[1; 0]; [0; 0]] p ->
           exists v, peek d p = Some v /\ 0 <= v /\ (occupied [[1; 0]; [0; 0]] p -> v = 0).
Proof.
  apply (distance_transform_nonnegative [[1; 0]; [0; 0]] 8).
  - grid_ok_tac.
  - exists (0, 0). cell_tac.
  - right; reflexivity.
Defined.

(** C5, as the specification words it, fails on a grid without obstacles:
    the only cell of the free 1x1 grid reads [-1]. *)
Lemma distance_transform_negative_counterexample :
  Brushfire.compute_obstacle_distance 1 [[0]] 8 = Ok [[-1]]
  /\ peek [[-1]] (0, 0) = Some (-1) /\ ~ 0 <= -1.
Proof. split_and!; [vm_compute; reflexivity|reflexivity|lia]. Qed.

(** ** Unsupported connectivity *)

Lemma move_types_raise connectivity :
  connectivity <> 4 -> connectivity <> 8 ->
  Brushfire.move_type connectivity = Raise (unsupported_connectivity connectivity)
  /\ Wavefront.move_type connectivity = Raise (unsupported_connectivity connectivity)
  /\ GradientDescent.move_type connectivity = Raise (unsupported_connectivity connectivity)
  /\ GreedyDescent.move_type connectivity = Raise (unsupported_connectivity connectivity).
Proof.
  intros H4 H8.
  unfold Brushfire.move_type, Wavefront.move_type, GradientDescent.move_type,
    GreedyDescent.move_type.
  destruct (Z.eqb_spec connectivity 4); [done|].
  destruct (Z.eqb_spec connectivity 8); [done|]. done.
Qed.

(** Where the connectivity check does fire.  For every connectivity other
    than 4 and 8: [compute_obstacle_distance], [compute_wavefront] and
    [greedy_descent_path] raise the error "Unsupported connectivity: <value>.
    Use 4 or 8." for all otherwise-valid arguments, and
    [gradient_descent_path] raises it whenever it takes a step, that is when
    [max_iters >= 1] and the start is not the goal. *)
Lemma unsupported_connectivity_raises connectivity :
  connectivity <> 4 -> connectivity <> 8 ->
  (forall fuel g, grid_ok g ->
     Brushfire.compute_obstacle_distance fuel g connectivity
     = Raise (unsupported_connectivity connectivity))
  /\ (forall fuel g goal, grid_ok g -> in_bounds g goal ->
        Wavefront.compute_wavefront fuel g goal connectivity
        = Raise (unsupported_connectivity connectivity))
  /\ (forall (V : Type) (ltb : V -> V -> bool) fuel (field : array V) start goal,
        GreedyDescent.greedy_descent_path ltb fuel field start goal connectivity
        = Raise (unsupported_connectivity connectivity))
  /\ (forall (V : Type) (sub : V -> V -> V) (ltb eqb : V -> V -> bool)
             (field : array V) start goal max_iters,
        1 <= max_iters -> start <> goal ->
        GradientDescent.gradient_descent_path sub ltb eqb field start goal
          connectivity max_iters
        = Raise (unsupported_connectivity connectivity))
  /\ exists pre post,
       unsupported_connectivity connectivity
       = ValueError (pre +:+ pretty connectivity +:+ post).
Proof.
  intros H4 H8.
  destruct (move_types_raise connectivity H4 H8) as (Hbf & Hwf & Hgd & Hgr).
  split_and!.
  - intros fuel g Hg. unfold Brushfire.compute_obstacle_distance.
    rewrite (seed_loop g Hg) by (apply Forall_forall; intros p; by rewrite elem_of_all_cells).
    cbn [mbind outcome_bind]. by rewrite Hbf.
  - intros fuel g [gr gc] [Hrect _] Hgoal. unfold Wavefront.compute_wavefront. cbn [fst snd].
    destruct (mark_loop g Hrect) as (r1 & -> & Hr1 & Hn1 & Hm1 & _).
    cbn [mbind outcome_bind].
    assert (Hb : in_bounds r1 (gr, gc)) by (unfold in_bounds; by rewrite Hn1, Hm1).
    rewrite_proj (np_set_inb r1 (gr, gc) (Num 0) Hb). cbn [mbind outcome_bind].
    by rewrite Hwf.
  - intros V ltb fuel field start goal. unfold GreedyDescent.greedy_descent_path.
    by rewrite Hgr.
  - intros V sub ltb eqb field start goal max_iters Hiters Hne.
    unfold GradientDescent.gradient_descent_path.
    destruct (Z.to_nat max_iters) as [|n] eqn:E; [lia|]. cbn [GradientDescent.iterate].
    assert ((start.1 =? goal.1) && (start.2 =? goal.2) = false) as ->.
    { apply andb_false_iff. destruct (Z.eqb_spec start.1 goal.1) as [E1|]; [|by left].
      destruct (Z.eqb_spec start.2 goal.2) as [E2|]; [|by right].
      destruct Hne. destruct start, goal; simpl in *; congruence. }
    unfold GradientDescent.gradient_descent_step. by rewrite Hgd.
  - by exists "Unsupported connectivity: ", ". Use 4 or 8.".
Qed.

Lemma unsupported_connectivity_raises_witness :
  (forall fuel g, grid_ok g ->
     Brushfire.compute_obstacle_distance fuel g 6 = Raise (unsupported_connectivity 6))
  /\ (forall fuel g goal, grid_ok g -> in_bounds g goal ->
        Wavefront.compute_wavefront fuel g goal 6 = Raise (unsupported_connectivity 6))
  /\ (forall (V : Type) (ltb : V -> V -> bool) fuel (field : array V) start goal,
        GreedyDescent.greedy_descent_path ltb fuel field start goal 6
        = Raise (unsupported_connectivity 6))
  /\ (forall (V : Type) (sub : V -> V -> V) (ltb eqb : V -> V -> bool)
             (field : array V) start goal max_iters,
        1 <= max_iters -> start <> goal ->
        GradientDescent.gradient_descent_path sub ltb eqb field start goal 6 max_iters
        = Raise (unsupported_connectivity 6))
  /\ exists pre post,
       unsupported_connectivity 6 = ValueError (pre +:+ pretty 6 +:+ post).
Proof. apply (unsupported_connectivity_raises 6); lia. Defined.

Example unsupported_connectivity_message :
  unsupported_connectivity 6 = ValueError "Unsupported connectivity: 6. Use 4 or 8.".
Proof. vm_compute. reflexivity. Qed.

(** C6. [gradient_descent_path] looks at the connectivity only inside a
    descent step, after the goal test of its loop, where
    [greedy_descent_path], [compute_wavefront] and
    [compute_obstacle_distance] check it before their loops: with the start
    on the goal, or with no iteration allowed, connectivity 5 is accepted and
    the one-point path is returned instead of the error. *)
Theorem gradient_descent_path_accepts_bad_connectivity :
  GradientDescent.gradient_descent_path Z.sub Z.ltb Z.eqb [[0]] (0, 0) (0, 0) 5 1000
  = Ok ([0], [0])
  /\ GradientDescent.gradient_descent_path Z.sub Z.ltb Z.eqb [[0; 1]] (0, 1) (0, 0) 5 0
     = Ok ([0], [1]).
Proof. split; vm_compute; reflexivity. Qed.

(** * The store model: which arrays an operation writes

    The definitions above pass array values around, so they cannot say whether
    an operation writes into an array of its caller.  This part models the
    operations again over a store of arrays addressed by location: an
    argument array is a location, [a.copy()] allocates, [a[i][j] = v] writes
    at a location.  Points ([start], [goal]) are only ever read by index in
    the sources and stay values.  The float operations are left abstract: no
    frame property depends on what they compute. *)

Class FloatOps (F : Type) : Type := {
  f_lit : Z -> F;
  f_half : F;
  f_inf : F;
  f_add : F -> F -> F;
  f_sub : F -> F -> F;
  f_mul : F -> F -> F;
  f_div : F -> F -> F;
  f_sqrt : F -> F;
  f_eqb : F -> F -> bool;
  f_ltb : F -> F -> bool;
  f_leb : F -> F -> bool;
}.

Module Heap.
Section Store.
Context {F : Type} {float_ops : FloatOps F}.

Abbreviation store := (gmap nat (list (list F))).

(** A computation on the store; the store survives an exception. *)
Definition heapM (A : Type) : Type := store -> outcome A * store.

Definition ret {A} (a : A) : heapM A := fun h => (Ok a, h).

Definition bind {A B} (m : heapM A) (k : A -> heapM B) : heapM B := fun h =>
  match m h with
  | (Ok a, h') => k a h'
  | (Raise e, h') => (Raise e, h')
  | (OutOfFuel, h') => (OutOfFuel, h')
  end.

#[local] Instance heapM_ret : MRet heapM := @ret.
#[local] Instance heapM_bind : MBind heapM := fun A B k m => bind m k.

Definition lift {A} (o : outcome A) : heapM A := fun h => (o, h).

(** Using a location that holds no array. *)
Definition no_array : exn := ValueError "not an array".

(** A new array object with the given contents. *)
Definition alloc (a : array F) : heapM nat := fun h =>
  let l := fresh (dom h) in (Ok l, <[l := a]> h).

(** The contents of the array at [l]. *)
Definition load (l : nat) : heapM (array F) := fun h =>
  match h !! l with
  | Some a => (Ok a, h)
  | None => (Raise no_array, h)
  end.

(** [a.copy()], [a.astype(float)] *)
Definition copy (l : nat) : heapM nat := load l ≫= alloc.

(** [a[r][c]] *)
Definition get (l : nat) (r c : Z) : heapM F :=
  a ← load l; lift (np_get a r c).

(** [a[r][c] = v] *)
Definition set (l : nat) (r c : Z) (v : F) : heapM unit := fun h =>
  match h !! l with
  | Some a =>
      match np_set a r c v with
      | Ok a' => (Ok tt, <[l := a']> h)
      | Raise e => (Raise e, h)
      | OutOfFuel => (OutOfFuel, h)
      end
  | None => (Raise no_array, h)
  end.

(** [a[:] = b]: the contents of [b] are written into the array at [l]. *)
Definition assign (l : nat) (b : array F) : heapM unit := fun h =>
  match h !! l with
  | Some _ => (Ok tt, <[l := b]> h)
  | None => (Raise no_array, h)
  end.

(** [np.ndindex(a.shape)] *)
Definition indices (l : nat) : heapM (list cell) :=
  a ← load l; ret (all_cells a).

(** [a.shape] *)
Definition shape (l : nat) : heapM (Z * Z) :=
  a ← load l; ret (nrows a, ncols a).

Fixpoint for_each {A S : Type} (xs : list A) (body : S -> A -> heapM S) (s : S)
  : heapM S :=
  match xs with
  | [] => ret s
  | x :: xs' => s' ← body s x; for_each xs' body s'
  end.


(** *** [brushfire.py] *)

Definition seed (result : nat) (queue : list cell) (p : cell) : heapM (list cell) :=
  v ← get result p.1 p.2;
  if f_eqb v (f_lit 1) then ret (queue ++ [p]) else ret queue.

Definition visit (result : nat) (t : cell) (queue : list cell) (move : cell)
  : heapM (list cell) :=
  let nr := t.1 + move.1 in
  let nc := t.2 + move.2 in
  sh ← shape result;
  if (nr >=? sh.1) || (nc >=? sh.2) || (nr <? 0) || (nc <? 0) then ret queue
  else
    v ← get result nr nc;
    if f_eqb v (f_lit 0) then
      tv ← get result t.1 t.2;
      'tt ← set result nr nc (f_add tv (f_lit 1));
      ret (queue ++ [(nr, nc)])
    else ret queue.

Fixpoint propagate (fuel : nat) (moves : list cell) (result : nat)
    (queue : list cell) : heapM unit :=
  match queue with
  | [] => ret tt
  | t :: queue' =>
      match fuel with
      | O => lift OutOfFuel
      | S fuel' =>
          queue'' ← for_each moves (visit result t) queue';
          propagate fuel' moves result queue''
      end
  end.

(** [result[:] = result[:] - 1]: the difference is a temporary array, whose
    contents are then written into [result]. *)
Definition subtract_one (result : nat) : heapM unit :=
  a ← load result;
  tmp ← alloc (np_map (fun v => f_sub v (f_lit 1)) a);
  b ← load tmp;
  assign result b.

Definition compute_obstacle_distance (fuel : nat) (grid_map : nat)
    (connectivity : Z) : heapM nat :=
  copied ← copy grid_map;
  result ← copy copied;
  cells ← indices result;
  queue ← for_each cells (seed result) [];
  moves ← lift (Brushfire.move_type connectivity);
  'tt ← propagate fuel moves result queue;
  'tt ← subtract_one result;
  ret result.

(** *** [wavefront.py] *)

Definition is_valid_cell (grid_map : nat) (point : cell) : heapM bool :=
  sh ← shape grid_map;
  if (point.1 <? 0) || (point.1 >=? sh.1) then ret false
  else if (point.2 <? 0) || (point.2 >=? sh.2) then ret false
  else
    v ← get grid_map point.1 point.2;
    if f_eqb v f_inf then ret false else ret true.

Definition mark (result : nat) (_ : unit) (p : cell) : heapM unit :=
  v ← get result p.1 p.2;
  if f_eqb v (f_lit 1) then set result p.1 p.2 f_inf
  else
    v' ← get result p.1 p.2;
    set result p.1 p.2 (f_add v' (f_lit unreached)).

Definition relax (result : nat) (t : cell) (queue : list cell) (move : cell)
  : heapM (list cell) :=
  let nr := t.1 + move.1 in
  let nc := t.2 + move.2 in
  valid ← is_valid_cell result (nr, nc);
  if negb valid then ret queue
  else
    v ← get result nr nc;
    closer ←
      (if negb (f_eqb v f_inf) then
         v' ← get result nr nc;
         tv ← get result t.1 t.2;
         ret (f_ltb (f_add tv (f_lit 1)) v')
       else ret false);
    if closer : bool then
      tv ← get result t.1 t.2;
      'tt ← set result nr nc (f_add tv (f_lit 1));
      ret (queue ++ [(nr, nc)])
    else ret queue.

Fixpoint expand (fuel : nat) (moves : list cell) (result : nat)
    (queue : list cell) : heapM unit :=
  match queue with
  | [] => ret tt
  | t :: queue' =>
      match fuel with
      | O => lift OutOfFuel
      | S fuel' =>
          queue'' ← for_each moves (relax result t) queue';
          expand fuel' moves result queue''
      end
  end.

Definition clear_inf (vis_map : nat) (_ : unit) (p : cell) : heapM unit :=
  v ← get vis_map p.1 p.2;
  if f_eqb v f_inf then set vis_map p.1 p.2 (f_lit 0) else ret tt.

Definition compute_wavefront (fuel : nat) (grid_map : nat) (goal : cell)
    (connectivity : Z) : heapM (nat * nat) :=
  copied ← copy grid_map;
  result ← copy copied;
  cells ← indices result;
  'tt ← for_each cells (mark result) tt;
  'tt ← set result goal.1 goal.2 (f_lit 0);
  let queue := [(goal.1, goal.2)] in
  moves ← lift (Wavefront.move_type connectivity);
  'tt ← expand fuel moves result queue;
  vis_map ← copy result;
  cells' ← indices vis_map;
  'tt ← for_each cells' (clear_inf vis_map) tt;
  ret (result, vis_map).

(** *** [attractive_field.py] *)

Definition euclidean_distance (p1 p2 : cell) : F :=
  f_sqrt (f_lit ((p1.1 - p2.1) ^ 2 + (p1.2 - p2.2) ^ 2)).

Definition manhattan_distance (p1 p2 : cell) : F :=
  f_lit (Z.abs (p1.1 - p2.1) + Z.abs (p1.2 - p2.2)).

Definition quadratic (scaling_factor d : F) : F :=
  f_mul (f_mul f_half scaling_factor) (f_mul d d).

Definition closed_form (result : nat) (dist_fn : cell -> cell -> F) (goal : cell)
    (scaling_factor : F) (_ : unit) (p : cell) : heapM unit :=
  set result p.1 p.2 (quadratic scaling_factor (dist_fn p goal)).

Definition square (result : nat) (scaling_factor : F) (_ : unit) (p : cell)
  : heapM unit :=
  d ← get result p.1 p.2;
  set result p.1 p.2 (quadratic scaling_factor d).

Definition compute_attractive_field (fuel : nat) (grid_map : nat) (goal : cell)
    (scaling_factor : F) (mode : string) : heapM nat :=
  copied ← copy grid_map;
  result ← copy copied;
  a ← load result;
  'tt ← assign result (np_map (fun _ => f_lit 0) a);
  if String.eqb mode "euclidean" || String.eqb mode "manhattan" then
    let dist_fn :=
      if String.eqb mode "euclidean" then euclidean_distance else manhattan_distance in
    cells ← indices result;
    'tt ← for_each cells (closed_form result dist_fn goal scaling_factor) tt;
    ret result
  else
    'tt ← set result goal.1 goal.2 (f_lit 1);
    let queue := [(goal.1, goal.2)] in
    let move_type :=
      if String.eqb mode "4_point" then
        [(-1, 0); (0, -1); (1, 0); (0, 1)]
      else if String.eqb mode "8_point" then
        [(-1, 0); (-1, -1); (0, -1); (1, -1); (1, 0); (1, 1); (0, 1); (-1, 1)]
      else [] in
    'tt ← propagate fuel move_type result queue;
    'tt ← subtract_one result;
    cells ← indices result;
    'tt ← for_each cells (square result scaling_factor) tt;
    ret result.

(** *** [repulsive_field.py] *)

Definition repel (result : nat) (influence_distance scaling_factor : F)
    (_ : unit) (p : cell) : heapM unit :=
  d ← get result p.1 p.2;
  if f_leb d influence_distance then
    let x := f_sub (f_div (f_lit 1) d) (f_div (f_lit 1) influence_distance) in
    set result p.1 p.2 (f_mul (f_mul f_half scaling_factor) (f_mul x x))
  else set result p.1 p.2 (f_lit 0).

Definition compute_repulsive_field (distance_map : nat)
    (influence_distance scaling_factor : F) : heapM nat :=
  copied ← copy distance_map;
  result ← copy copied;
  cells ← indices result;
  'tt ← for_each cells (repel result influence_distance scaling_factor) tt;
  ret result.

(** *** [gradient_descent.py] *)

(** [attractive_map + repulsive_map], a new array; the operands are taken to
    have one shape, as the specification requires. *)
Definition compute_total_potential (attractive_map repulsive_map : nat) : heapM nat :=
  a ← load attractive_map;
  b ← load repulsive_map;
  if (nrows a =? nrows b) && (ncols a =? ncols b) then
    alloc (zip_with (zip_with f_add) a b)
  else lift (Raise (ValueError "operands could not be broadcast together")).

Definition potential_diff (total_potential : nat) (current : cell)
    (potential_diffs : list F) (move : cell) : heapM (list F) :=
  a ← get total_potential (current.1 + move.1) (current.2 + move.2);
  b ← get total_potential current.1 current.2;
  ret (potential_diffs ++ [f_sub a b]).

Definition gradient_descent_step (total_potential : nat) (current : cell)
    (connectivity : Z) : heapM cell :=
  moves ← lift (GradientDescent.move_type connectivity);
  potential_diffs ← for_each moves (potential_diff total_potential current) [];
  best ← lift (GradientDescent.py_min f_ltb f_eqb (zip potential_diffs moves));
  let best_direction := best.2 in
  ret (current.1 + best_direction.1, current.2 + best_direction.2).

Fixpoint iterate (iters : nat) (total_potential : nat) (goal : cell)
    (connectivity : Z) (current : cell) (trajectory_rows trajectory_cols : list Z)
  : heapM (list Z * list Z) :=
  match iters with
  | O => ret (trajectory_rows, trajectory_cols)
  | S iters' =>
      if (current.1 =? goal.1) && (current.2 =? goal.2)
      then ret (trajectory_rows, trajectory_cols)
      else
        current' ← gradient_descent_step total_potential current connectivity;
        iterate iters' total_potential goal connectivity current'
          (trajectory_rows ++ [current'.1]) (trajectory_cols ++ [current'.2])
  end.

Definition gradient_descent_path (total_potential : nat) (start goal : cell)
    (connectivity : Z) (max_iters : Z) : heapM (list Z * list Z) :=
  let current := start in
  iterate (Z.to_nat max_iters) total_potential goal connectivity current
    [current.1] [current.2].

(** *** [greedy_descent.py] *)

Definition scan_move (wavefront_map : nat) (current : cell)
    (st : F * cell) (move : cell) : heapM (F * cell) :=
  let nr := current.1 + move.1 in
  let nc := current.2 + move.2 in
  sh ← shape wavefront_map;
  if (0 <=? nr) && (nr <? sh.1) && (0 <=? nc) && (nc <? sh.2) then
    v ← get wavefront_map nr nc;
    if f_ltb v st.1 then
      v' ← get wavefront_map nr nc;
      ret (v', (nr, nc))
    else ret st
  else ret st.

Fixpoint descend (fuel : nat) (wavefront_map : nat) (goal : cell)
    (moves : list cell) (current : cell) (trajectory_rows trajectory_cols : list Z)
  : heapM (list Z * list Z) :=
  if negb (current.1 =? goal.1) || negb (current.2 =? goal.2) then
    match fuel with
    | O => lift OutOfFuel
    | S fuel' =>
        best_value ← get wavefront_map current.1 current.2;
        st ← for_each moves (scan_move wavefront_map current) (best_value, current);
        let next_cell := st.2 in
        if cell_eqb next_cell current then ret (trajectory_rows, trajectory_cols)
        else descend fuel' wavefront_map goal moves next_cell
               (trajectory_rows ++ [next_cell.1]) (trajectory_cols ++ [next_cell.2])
    end
  else ret (trajectory_rows, trajectory_cols).

Definition greedy_descent_path (fuel : nat) (wavefront_map : nat)
    (start goal : cell) (connectivity : Z) : heapM (list Z * list Z) :=
  let current := start in
  moves ← lift (GreedyDescent.move_type connectivity);
  descend fuel wavefront_map goal moves current [current.1] [current.2].

(** *** The frame judgement *)

(** [frames h0 X m Q]: run from any store that extends [h0] and holds the
    locations [X], the computation [m] leaves every array of [h0] as it was,
    whatever its outcome; and when it returns [a], the final store holds some
    set of locations [X'] with [Q a X']. *)
Definition frames (h0 : store) (X : gset nat) {A} (m : heapM A)
    (Q : A -> gset nat -> Prop) : Prop :=
  forall h, h0 ⊆ h -> X ⊆ dom h ->
    h0 ⊆ (m h).2
    /\ forall a, (m h).1 = Ok a -> exists X', X' ⊆ dom (m h).2 /\ Q a X'.

Lemma frames_weaken h0 X {A} (m : heapM A) (P Q : A -> gset nat -> Prop) :
  frames h0 X m P -> (forall a X', P a X' -> Q a X') -> frames h0 X m Q.
Proof.
  intros Hm HPQ h Hh HX. destruct (Hm h Hh HX) as [Hsub Hpost]. split; [done|].
  intros a Ha. destruct (Hpost a Ha) as (X' & HX' & HP). eauto.
Qed.

Lemma frames_ret h0 X {A} (a : A) (Q : A -> gset nat -> Prop) :
  Q a X -> frames h0 X (ret a) Q.
Proof. intros HQ h Hh HX. split; [done|]. intros a' [= <-]. eauto. Qed.

Lemma frames_lift h0 X {A} (o : outcome A) (Q : A -> gset nat -> Prop) :
  (forall a, o = Ok a -> Q a X) -> frames h0 X (lift o) Q.
Proof. intros HQ h Hh HX. split; [done|]. intros a Ha. eauto. Qed.

Lemma frames_bind h0 X {A B} (m : heapM A) (k : A -> heapM B)
    (P : A -> gset nat -> Prop) (Q : B -> gset nat -> Prop) :
  frames h0 X m P -> (forall a X', P a X' -> frames h0 X' (k a) Q) ->
  frames h0 X (m ≫= k) Q.
Proof.
  intros Hm Hk h Hh HX. destruct (Hm h Hh HX) as [Hsub Hpost].
  unfold mbind, heapM_bind, bind.
  destruct (m h) as [[a|e|] h'] eqn:E; simpl in *; [|by split..].
  destruct (Hpost a eq_refl) as (X' & HX' & HP).
  exact (Hk a X' HP h' Hsub HX').
Qed.

(** The post-conditions of the primitives: the known locations stay, and an
    allocation adds one that was not among them. *)
Definition keeps (X : gset nat) {A} (_ : A) (X' : gset nat) : Prop := X ⊆ X'.

Definition fresh_for (X : gset nat) (l : nat) (X' : gset nat) : Prop :=
  (l ∉ X) /\ l ∈ X' /\ X ⊆ X'.

Lemma frames_load h0 X l : frames h0 X (load l) (keeps X).
Proof.
  intros h Hh HX. unfold load. destruct (h !! l); simpl; (split; [done|]);
    intros a' ?; simplify_eq. exists X. by unfold keeps.
Qed.

Lemma frames_alloc h0 X (a : array F) : frames h0 X (alloc a) (fresh_for X).
Proof.
  intros h Hh HX. unfold alloc. simpl.
  pose proof (is_fresh (dom h)) as Hfresh. split.
  - apply insert_subseteq_r; [|done]. apply not_elem_of_dom.
    intros Hin. apply Hfresh. by apply (subseteq_dom _ _ Hh).
  - intros l [= <-]. exists (X ∪ {[fresh (dom h)]}). split.
    + rewrite dom_insert. apply union_least; [|by apply union_subseteq_l].
      etrans; [exact HX|]. apply union_subseteq_r.
    + split_and!.
      * intros Hin. apply Hfresh. by apply HX.
      * apply elem_of_union_r. by apply elem_of_singleton.
      * apply union_subseteq_l.
Qed.

Lemma frames_set h0 X l r c v :
  l ∉ dom h0 -> frames h0 X (set l r c v) (keeps X).
Proof.
  intros Hl h Hh HX. unfold set.
  destruct (h !! l) as [a|]; simpl; [|split; [done|]; intros; simplify_eq].
  destruct (np_set a r c v) as [a'| |]; simpl; [|split; [done|]; intros; simplify_eq..].
  split.
  - apply insert_subseteq_r; [by apply not_elem_of_dom|done].
  - intros u Hu. exists X. split; [|by unfold keeps]. rewrite dom_insert.
    etrans; [exact HX|]. apply union_subseteq_r.
Qed.

Lemma frames_assign h0 X l b :
  l ∉ dom h0 -> frames h0 X (assign l b) (keeps X).
Proof.
  intros Hl h Hh HX. unfold assign.
  destruct (h !! l) as [a|]; simpl; [|split; [done|]; intros; simplify_eq].
  split.
  - apply insert_subseteq_r; [by apply not_elem_of_dom|done].
  - intros u Hu. exists X. split; [|by unfold keeps]. rewrite dom_insert.
    etrans; [exact HX|]. apply union_subseteq_r.
Qed.

Lemma frames_copy h0 X l : frames h0 X (copy l) (fresh_for X).
Proof.
  unfold copy. eapply frames_bind; [apply frames_load|].
  intros a X' HX. eapply frames_weaken; [apply frames_alloc|].
  intros l' X'' (Hl & Hin & Hsub). unfold keeps in HX.
  split_and!; [|done|by etrans]. intros Hl'. apply Hl. by apply HX.
Qed.

Lemma frames_get h0 X l r c : frames h0 X (get l r c) (keeps X).
Proof.
  unfold get. eapply frames_bind; [apply frames_load|].
  intros a X' HX. by apply frames_lift.
Qed.

Lemma frames_indices h0 X l : frames h0 X (indices l) (keeps X).
Proof.
  unfold indices. eapply frames_bind; [apply frames_load|].
  intros a X' HX. by apply frames_ret.
Qed.

Lemma frames_shape h0 X l : frames h0 X (shape l) (keeps X).
Proof.
  unfold shape. eapply frames_bind; [apply frames_load|].
  intros a X' HX. by apply frames_ret.
Qed.

Lemma frames_keeps_bind h0 X {A B} (m : heapM A) (k : A -> heapM B) :
  frames h0 X m (keeps X) ->
  (forall a X', frames h0 X' (k a) (keeps X')) ->
  frames h0 X (m ≫= k) (keeps X).
Proof.
  intros Hm Hk. eapply frames_bind; [exact Hm|].
  intros a X' HX. eapply frames_weaken; [apply Hk|].
  intros b X'' HX'. unfold keeps in *. by etrans.
Qed.

Lemma frames_for_each h0 {A S} (xs : list A) (body : S -> A -> heapM S) :
  (forall X s x, frames h0 X (body s x) (keeps X)) ->
  forall X s, frames h0 X (for_each xs body s) (keeps X).
Proof.
  intros Hbody. induction xs as [|x xs IH]; intros X s; simpl.
  - apply frames_ret. by unfold keeps.
  - apply frames_keeps_bind; [apply Hbody|]. intros s' X'. apply IH.
Qed.

Lemma frames_keeps_sub h0 X X' {A} (m : heapM A) :
  X ⊆ X' -> frames h0 X' m (keeps X') -> frames h0 X' m (keeps X).
Proof.
  intros HX Hm. eapply frames_weaken; [exact Hm|].
  intros a X'' HX'. unfold keeps in *. by etrans.
Qed.

(** One step of a frame proof whose post-condition is [keeps]. *)
Ltac frames_keeps_step :=
  first
    [ apply frames_keeps_bind; [|intros ? ?]
    | apply frames_get
    | apply frames_shape
    | apply frames_indices
    | apply frames_load
    | apply frames_set; assumption
    | apply frames_assign; assumption
    | apply frames_ret; unfold keeps; reflexivity
    | apply frames_lift; intros; unfold keeps; reflexivity
    | apply frames_for_each; intros
    | match goal with
      | |- frames _ _ (if ?b then _ else _) _ => destruct b
      | |- frames _ _ (match ?x with tt => _ end) _ => destruct x
      end ].

Ltac frames_keeps := repeat frames_keeps_step.

(** Binds a step that only keeps the known locations. *)
Lemma frames_lift_keeps h0 X {A} (o : outcome A) : frames h0 X (lift o) (keeps X).
Proof. apply frames_lift. intros. by unfold keeps. Qed.

Section Owned.
(** [result] is an array the operation allocated itself. *)
Context (h0 : store) (result : nat) (Hresult : result ∉ dom h0).

Lemma frames_seed X queue p : frames h0 X (seed result queue p) (keeps X).
Proof. unfold seed. frames_keeps. Qed.

Lemma frames_visit X t queue move : frames h0 X (visit result t queue move) (keeps X).
Proof. unfold visit. cbv zeta. frames_keeps. Qed.

Lemma frames_propagate fuel moves X queue :
  frames h0 X (propagate fuel moves result queue) (keeps X).
Proof.
  revert X queue. induction fuel as [|fuel IH]; intros X [|t queue]; simpl.
  - frames_keeps.
  - by apply frames_lift.
  - frames_keeps.
  - apply frames_keeps_bind; [|intros; apply IH].
    apply frames_for_each. intros. apply frames_visit.
Qed.

Lemma frames_subtract_one X : frames h0 X (subtract_one result) (keeps X).
Proof.
  unfold subtract_one.
  apply frames_keeps_bind; [apply frames_load|]. intros a X1.
  eapply frames_bind; [apply frames_alloc|]. intros tmp X2 (_ & _ & HX2).
  apply frames_keeps_sub; [done|]. frames_keeps.
Qed.

Lemma frames_is_valid_cell X point : frames h0 X (is_valid_cell result point) (keeps X).
Proof. unfold is_valid_cell. frames_keeps. Qed.

Lemma frames_mark X u p : frames h0 X (mark result u p) (keeps X).
Proof. unfold mark. frames_keeps. Qed.

Lemma frames_relax X t queue move : frames h0 X (relax result t queue move) (keeps X).
Proof.
  unfold relax. cbv zeta.
  apply frames_keeps_bind; [apply frames_is_valid_cell|]. intros. frames_keeps.
Qed.

Lemma frames_expand fuel moves X queue :
  frames h0 X (expand fuel moves result queue) (keeps X).
Proof.
  revert X queue. induction fuel as [|fuel IH]; intros X [|t queue]; simpl.
  - frames_keeps.
  - by apply frames_lift.
  - frames_keeps.
  - apply frames_keeps_bind; [|intros; apply IH].
    apply frames_for_each. intros. apply frames_relax.
Qed.

Lemma frames_clear_inf X u p : frames h0 X (clear_inf result u p) (keeps X).
Proof. unfold clear_inf. frames_keeps. Qed.

Lemma frames_closed_form X dist_fn goal scaling_factor u p :
  frames h0 X (closed_form result dist_fn goal scaling_factor u p) (keeps X).
Proof. unfold closed_form. frames_keeps. Qed.

Lemma frames_square X scaling_factor u p :
  frames h0 X (square result scaling_factor u p) (keeps X).
Proof. unfold square. frames_keeps. Qed.

Lemma frames_repel X influence_distance scaling_factor u p :
  frames h0 X (repel result influence_distance scaling_factor u p) (keeps X).
Proof. unfold repel. cbv zeta. frames_keeps. Qed.

End Owned.

(** The extractors only read. *)

Lemma frames_potential_diff h0 X total_potential current diffs move :
  frames h0 X (potential_diff total_potential current diffs move) (keeps X).
Proof. unfold potential_diff. frames_keeps. Qed.

Lemma frames_gradient_descent_step h0 X total_potential current connectivity :
  frames h0 X (gradient_descent_step total_potential current connectivity) (keeps X).
Proof.
  unfold gradient_descent_step. cbv zeta. frames_keeps.
Qed.

Lemma frames_iterate h0 iters total_potential goal connectivity X current rows cols :
  frames h0 X (iterate iters total_potential goal connectivity current rows cols) (keeps X).
Proof.
  revert X current rows cols. induction iters as [|iters IH]; intros X current rows cols; simpl.
  - frames_keeps.
  - destruct ((current.1 =? goal.1) && (current.2 =? goal.2)); [frames_keeps|].
    apply frames_keeps_bind; [apply frames_gradient_descent_step|]. intros. apply IH.
Qed.

Lemma frames_scan_move h0 X wavefront_map current st move :
  frames h0 X (scan_move wavefront_map current st move) (keeps X).
Proof. unfold scan_move. cbv zeta. frames_keeps. Qed.

Lemma frames_descend h0 fuel wavefront_map goal moves X current rows cols :
  frames h0 X (descend fuel wavefront_map goal moves current rows cols) (keeps X).
Proof.
  revert X current rows cols. induction fuel as [|fuel IH]; intros X current rows cols; simpl.
  - destruct (negb _ || negb _); [by apply frames_lift|frames_keeps].
  - destruct (negb _ || negb _); [|frames_keeps].
    apply frames_keeps_bind; [apply frames_get|]. intros best_value X1.
    apply frames_keeps_bind; [apply frames_for_each; intros; apply frames_scan_move|].
    intros st X2. cbv zeta. destruct (cell_eqb _ _); [frames_keeps|apply IH].
Qed.

(** What a call may do to the store [h] it starts from: every array of [h]
    is still there, unchanged, when the call ends, however it ends; and the
    arrays it returns, [returned a], are pairwise distinct locations that [h]
    did not hold. *)
Definition pure_call {A} (m : heapM A) (returned : A -> list nat) : Prop :=
  forall h,
    h ⊆ (m h).2
    /\ forall a, (m h).1 = Ok a ->
         NoDup (returned a)
         /\ Forall (fun l => (l ∉ dom h) /\ l ∈ dom (m h).2) (returned a).

Lemma pure_call_keeps {A} (m : heapM A) :
  (forall h0 X, frames h0 X m (keeps X)) -> pure_call m (fun _ => []).
Proof.
  intros Hm h. destruct (Hm h (dom h) h) as [Hsub _]; [done..|].
  split; [done|]. intros a _. split; constructor.
Qed.

Lemma pure_call_fresh (m : heapM nat) :
  (forall h0, frames h0 (dom h0) m (fresh_for (dom h0))) -> pure_call m (fun r => [r]).
Proof.
  intros Hm h. destruct (Hm h h) as [Hsub Hpost]; [done..|].
  split; [done|]. intros r Hr. destruct (Hpost r Hr) as (X' & HX' & Hnew & Hin & _).
  split; [apply NoDup_singleton|]. apply Forall_singleton. split; [done|]. by apply HX'.
Qed.

Lemma frames_compute_obstacle_distance h0 fuel grid_map connectivity :
  frames h0 (dom h0) (compute_obstacle_distance fuel grid_map connectivity)
    (fresh_for (dom h0)).
Proof.
  unfold compute_obstacle_distance.
  eapply frames_bind; [apply frames_copy|]. intros copied X1 (Hc & _ & HX1).
  eapply frames_bind; [apply frames_copy|]. intros result X2 (Hr & Hin & HX2).
  assert (Hnew : result ∉ dom h0) by (intros ?; apply Hr; by apply HX1).
  eapply frames_bind; [apply frames_indices|]. intros cells X3 HX3.
  eapply frames_bind; [apply frames_for_each; intros; by apply frames_seed|].
  intros queue X4 HX4.
  eapply frames_bind; [apply (frames_lift h0 X4 _ (keeps X4)); intros; by unfold keeps|].
  intros moves X5 HX5.
  eapply frames_bind; [by apply frames_propagate|]. intros [] X6 HX6.
  eapply frames_bind; [by apply frames_subtract_one|]. intros [] X7 HX7.
  apply frames_ret. unfold keeps, fresh_for in *. set_solver.
Qed.

Lemma frames_compute_wavefront h0 fuel grid_map goal connectivity :
  frames h0 (dom h0) (compute_wavefront fuel grid_map goal connectivity)
    (fun r X' => (r.1 ∉ dom h0) /\ (r.2 ∉ dom h0) /\ r.1 <> r.2
                 /\ r.1 ∈ X' /\ r.2 ∈ X').
Proof.
  unfold compute_wavefront.
  eapply frames_bind; [apply frames_copy|]. intros copied X1 (Hc & _ & HX1).
  eapply frames_bind; [apply frames_copy|]. intros result X2 (Hr & Hin & HX2).
  assert (Hnew : result ∉ dom h0) by (intros ?; apply Hr; by apply HX1).
  eapply frames_bind; [apply frames_indices|]. intros cells X3 HX3.
  eapply frames_bind; [apply frames_for_each; intros; by apply frames_mark|].
  intros [] X4 HX4.
  eapply frames_bind; [by apply frames_set|]. intros [] X5 HX5.
  cbv zeta.
  eapply frames_bind; [apply frames_lift_keeps|]. intros moves X6 HX6.
  eapply frames_bind; [by apply frames_expand|]. intros [] X7 HX7.
  eapply frames_bind; [apply frames_copy|]. intros vis_map X8 (Hv & Hvin & HX8).
  assert (Hvnew : vis_map ∉ dom h0).
  { intros ?. apply Hv. unfold keeps in *. set_solver. }
  eapply frames_bind; [apply frames_indices|]. intros cells' X9 HX9.
  eapply frames_bind; [apply frames_for_each; intros; by apply frames_clear_inf|].
  intros [] X10 HX10.
  apply frames_ret. unfold keeps in *. simpl. split_and!; [done|done| |set_solver..].
  intros <-. apply Hv. set_solver.
Qed.

Lemma frames_compute_attractive_field h0 fuel grid_map goal scaling_factor mode :
  frames h0 (dom h0) (compute_attractive_field fuel grid_map goal scaling_factor mode)
    (fresh_for (dom h0)).
Proof.
  unfold compute_attractive_field.
  eapply frames_bind; [apply frames_copy|]. intros copied X1 (Hc & _ & HX1).
  eapply frames_bind; [apply frames_copy|]. intros result X2 (Hr & Hin & HX2).
  assert (Hnew : result ∉ dom h0) by (intros ?; apply Hr; by apply HX1).
  eapply frames_bind; [apply frames_load|]. intros a X3 HX3.
  eapply frames_bind; [by apply frames_assign|]. intros [] X4 HX4.
  destruct (String.eqb mode "euclidean" || String.eqb mode "manhattan"); cbv zeta.
  - eapply frames_bind; [apply frames_indices|]. intros cells X5 HX5.
    eapply frames_bind; [apply frames_for_each; intros; by apply frames_closed_form|].
    intros [] X6 HX6.
    apply frames_ret. unfold keeps, fresh_for in *. set_solver.
  - eapply frames_bind; [by apply frames_set|]. intros [] X5 HX5.
    eapply frames_bind; [by apply frames_propagate|]. intros [] X6 HX6.
    eapply frames_bind; [by apply frames_subtract_one|]. intros [] X7 HX7.
    eapply frames_bind; [apply frames_indices|]. intros cells X8 HX8.
    eapply frames_bind; [apply frames_for_each; intros; by apply frames_square|].
    intros [] X9 HX9.
    apply frames_ret. unfold keeps, fresh_for in *. set_solver.
Qed.

Lemma frames_compute_repulsive_field h0 distance_map influence_distance scaling_factor :
  frames h0 (dom h0) (compute_repulsive_field distance_map influence_distance scaling_factor)
    (fresh_for (dom h0)).
Proof.
  unfold compute_repulsive_field.
  eapply frames_bind; [apply frames_copy|]. intros copied X1 (Hc & _ & HX1).
  eapply frames_bind; [apply frames_copy|]. intros result X2 (Hr & Hin & HX2).
  assert (Hnew : result ∉ dom h0) by (intros ?; apply Hr; by apply HX1).
  eapply frames_bind; [apply frames_indices|]. intros cells X3 HX3.
  eapply frames_bind; [apply frames_for_each; intros; by apply frames_repel|].
  intros [] X4 HX4.
  apply frames_ret. unfold keeps, fresh_for in *. set_solver.
Qed.

Lemma frames_compute_total_potential h0 attractive_map repulsive_map :
  frames h0 (dom h0) (compute_total_potential attractive_map repulsive_map)
    (fresh_for (dom h0)).
Proof.
  unfold compute_total_potential.
  eapply frames_bind; [apply frames_load|]. intros a X1 HX1.
  eapply frames_bind; [apply frames_load|]. intros b X2 HX2.
  destruct ((nrows a =? nrows b) && (ncols a =? ncols b)).
  - eapply frames_weaken; [apply frames_alloc|].
    intros r X3 (Hr & Hin & Hsub). unfold keeps in *.
    split_and!; [|done|by do 2 (etrans; [eassumption|])].
    intros Hin0. apply Hr. by apply HX2, HX1.
  - by apply frames_lift.
Qed.

(** C9. No core operation writes into an array it did not allocate itself:
    whatever store a call starts from and however it ends, every array of that
    store, so each input array, holds the same elements afterwards; and each
    field an operation returns ([compute_wavefront] returns two) is a new
    array, at a location the starting store did not hold, hence distinct from
    every input.  (That the store model computes what the value model
    computes is [run_compute_obstacle_distance], [run_compute_wavefront],
    [run_gradient_descent_path] and [run_greedy_descent_path] below.) *)
Theorem inputs_never_mutated :
  (forall fuel grid_map connectivity,
     pure_call (compute_obstacle_distance fuel grid_map connectivity) (fun r => [r]))
  /\ (forall fuel grid_map goal scaling_factor mode,
        pure_call (compute_attractive_field fuel grid_map goal scaling_factor mode)
          (fun r => [r]))
  /\ (forall distance_map influence_distance scaling_factor,
        pure_call (compute_repulsive_field distance_map influence_distance scaling_factor)
          (fun r => [r]))
  /\ (forall attractive_map repulsive_map,
        pure_call (compute_total_potential attractive_map repulsive_map) (fun r => [r]))
  /\ (forall total_potential start goal connectivity max_iters,
        pure_call (gradient_descent_path total_potential start goal connectivity max_iters)
          (fun _ => []))
  /\ (forall fuel grid_map goal connectivity,
        pure_call (compute_wavefront fuel grid_map goal connectivity)
          (fun r => [r.1; r.2]))
  /\ (forall fuel wavefront_map start goal connectivity,
        pure_call (greedy_descent_path fuel wavefront_map start goal connectivity)
          (fun _ => [])).
Proof.
  split_and!; intros.
  - apply pure_call_fresh. intros. apply frames_compute_obstacle_distance.
  - apply pure_call_fresh. intros. apply frames_compute_attractive_field.
  - apply pure_call_fresh. intros. apply frames_compute_repulsive_field.
  - apply pure_call_fresh. intros. apply frames_compute_total_potential.
  - apply pure_call_keeps. intros. unfold gradient_descent_path. apply frames_iterate.
  - intros h. destruct (frames_compute_wavefront h fuel grid_map goal connectivity h)
      as [Hsub Hpost]; [done..|].
    split; [done|]. intros r Hr.
    destruct (Hpost r Hr) as (X' & HX' & H1 & H2 & Hne & Hin1 & Hin2).
    split.
    + apply NoDup_cons. split; [by intros ?%list_elem_of_singleton|apply NoDup_singleton].
    + repeat constructor; auto.
  - apply pure_call_keeps. intros. unfold greedy_descent_path. cbv zeta.
    apply frames_keeps_bind; [apply frames_lift_keeps|]. intros. apply frames_descend.
Qed.

End Store.
End Heap.

(** ** The store model agrees with the value model

    Run on a store that holds the array [a] at the argument location, an
    operation of the store model gives the outcome the value model gives on
    [a]; the extractors, which only read, also leave the store as it is. *)

Section Agreement.
Context {F : Type} {float_ops : FloatOps F}.
#[local] Existing Instance Heap.heapM_bind.
#[local] Existing Instance Heap.heapM_ret.
Implicit Types (h : gmap nat (list (list F))) (a : array F) (l : nat).

Lemma run_load h l a : h !! l = Some a -> Heap.load l h = (Ok a, h).
Proof. intros Hl. unfold Heap.load. by rewrite Hl. Qed.

Lemma run_get h l a r c : h !! l = Some a -> Heap.get l r c h = (np_get a r c, h).
Proof.
  intros Hl. unfold Heap.get, mbind, Heap.heapM_bind, Heap.bind.
  by rewrite (run_load h l a Hl).
Qed.

Lemma run_shape h l a : h !! l = Some a -> Heap.shape l h = (Ok (nrows a, ncols a), h).
Proof.
  intros Hl. unfold Heap.shape, mbind, Heap.heapM_bind, Heap.bind.
  by rewrite (run_load h l a Hl).
Qed.

Lemma run_indices h l a : h !! l = Some a -> Heap.indices l h = (Ok (all_cells a), h).
Proof.
  intros Hl. unfold Heap.indices, mbind, Heap.heapM_bind, Heap.bind.
  by rewrite (run_load h l a Hl).
Qed.

(** Binding after a step that leaves the store alone. *)
Lemma run_bind {A B} (m : Heap.heapM A) (k : A -> Heap.heapM B) h (o : outcome A) :
  m h = (o, h) ->
  (m ≫= k) h = match o with
               | Ok x => k x h
               | Raise e => (Raise e, h)
               | OutOfFuel => (OutOfFuel, h)
               end.
Proof.
  intros Hm. unfold mbind, Heap.heapM_bind, Heap.bind. rewrite Hm. by destruct o.
Qed.

(** A loop whose body only reads runs as the value-level loop. *)
Lemma run_for_each_reads {A S} (xs : list A) (body : S -> A -> Heap.heapM S)
    (vbody : S -> A -> outcome S) h (s : S) :
  (forall s x, body s x h = (vbody s x, h)) ->
  Heap.for_each xs body s h = (for_each xs vbody s, h).
Proof.
  intros Hbody. revert s. induction xs as [|x xs IH]; intros s; simpl; [done|].
  rewrite (run_bind _ _ h (vbody s x)) by apply Hbody.
  destruct (vbody s x); simpl; [apply IH|done..].
Qed.

Lemma run_potential_diff h l a current diffs move :
  h !! l = Some a ->
  Heap.potential_diff l current diffs move h
  = (GradientDescent.potential_diff f_sub a current diffs move, h).
Proof.
  intros Hl. unfold Heap.potential_diff, GradientDescent.potential_diff.
  rewrite (run_bind _ _ h _ (run_get h l a _ _ Hl)).
  destruct (np_get a (current.1 + move.1) (current.2 + move.2)); simpl; [|done..].
  rewrite (run_bind _ _ h _ (run_get h l a _ _ Hl)).
  by destruct (np_get a current.1 current.2).
Qed.

Lemma run_gradient_descent_step h l a current connectivity :
  h !! l = Some a ->
  Heap.gradient_descent_step l current connectivity h
  = (GradientDescent.gradient_descent_step f_sub f_ltb f_eqb a current connectivity, h).
Proof.
  intros Hl. unfold Heap.gradient_descent_step, GradientDescent.gradient_descent_step.
  rewrite (run_bind _ _ h (GradientDescent.move_type connectivity)) by done.
  destruct (GradientDescent.move_type connectivity) as [moves| |]; simpl; [|done..].
  rewrite (run_bind _ _ h _
             (run_for_each_reads moves _ _ h [] (fun s x => run_potential_diff h l a current s x Hl))).
  destruct (for_each moves _ []) as [diffs| |]; simpl; [|done..].
  rewrite (run_bind _ _ h (GradientDescent.py_min f_ltb f_eqb (zip diffs moves))) by done.
  by destruct (GradientDescent.py_min f_ltb f_eqb (zip diffs moves)).
Qed.

(** [gradient_descent_path] of the store model returns what the value model
    returns and leaves the store untouched. *)
Lemma run_gradient_descent_path h l a start goal connectivity max_iters :
  h !! l = Some a ->
  Heap.gradient_descent_path l start goal connectivity max_iters h
  = (GradientDescent.gradient_descent_path f_sub f_ltb f_eqb a start goal
       connectivity max_iters, h).
Proof.
  intros Hl. unfold Heap.gradient_descent_path, GradientDescent.gradient_descent_path.
  cbv zeta. generalize [start.1]. generalize [start.2]. generalize start.
  induction (Z.to_nat max_iters) as [|n IH]; intros current cols rows; simpl; [done|].
  destruct ((current.1 =? goal.1) && (current.2 =? goal.2)); [done|].
  rewrite (run_bind _ _ h _ (run_gradient_descent_step h l a current connectivity Hl)).
  destruct (GradientDescent.gradient_descent_step _ _ _ a current connectivity);
    simpl; [apply IH|done..].
Qed.

Lemma run_scan_move h l a current st move :
  h !! l = Some a ->
  Heap.scan_move l current st move h
  = (GreedyDescent.scan_move f_ltb a current st move, h).
Proof.
  intros Hl. unfold Heap.scan_move, GreedyDescent.scan_move. destruct st as [best next].
  cbv zeta. rewrite (run_bind _ _ h _ (run_shape h l a Hl)). cbn [fst snd].
  destruct ((0 <=? current.1 + move.1) && _ && _ && _); [|done].
  rewrite (run_bind _ _ h _ (run_get h l a _ _ Hl)).
  destruct (np_get a (current.1 + move.1) (current.2 + move.2)) as [v| |] eqn:E;
    simpl; [|done..].
  destruct (f_ltb v best); [|done].
  rewrite (run_bind _ _ h _ (run_get h l a _ _ Hl)). by rewrite E.
Qed.

(** [greedy_descent_path] of the store model returns what the value model
    returns and leaves the store untouched. *)
Lemma run_greedy_descent_path h l a fuel start goal connectivity :
  h !! l = Some a ->
  Heap.greedy_descent_path fuel l start goal connectivity h
  = (GreedyDescent.greedy_descent_path f_ltb fuel a start goal connectivity, h).
Proof.
  intros Hl. unfold Heap.greedy_descent_path, GreedyDescent.greedy_descent_path.
  cbv zeta. rewrite (run_bind _ _ h (GreedyDescent.move_type connectivity)) by done.
  destruct (GreedyDescent.move_type connectivity) as [moves| |]; simpl; [|done..].
  generalize [start.1]. generalize [start.2]. generalize start.
  induction fuel as [|fuel IH]; intros current cols rows; simpl.
  - by destruct (negb _ || negb _).
  - destruct (negb _ || negb _); [|done].
    rewrite (run_bind _ _ h _ (run_get h l a _ _ Hl)).
    destruct (np_get a current.1 current.2) as [best| |]; simpl; [|done..].
    rewrite (run_bind _ _ h _
               (run_for_each_reads moves _ _ h _ (fun s x => run_scan_move h l a current s x Hl))).
    destruct (for_each moves _ _) as [st| |]; simpl; [|done..].
    destruct (cell_eqb st.2 current); [done|]. apply IH.
Qed.

End Agreement.

(** The operations that write: the store model runs the value model on the
    array held at the location it allocated. *)

Section AgreementWrites.
Context {F : Type} {float_ops : FloatOps F}.
#[local] Existing Instance Heap.heapM_bind.
#[local] Existing Instance Heap.heapM_ret.
Implicit Types (h : gmap nat (list (list F))) (a : array F) (l : nat).

Lemma run_set h l a r c v :
  h !! l = Some a ->
  Heap.set l r c v h
  = match np_set a r c v with
    | Ok a' => (Ok tt, <[l := a']> h)
    | Raise e => (Raise e, h)
    | OutOfFuel => (OutOfFuel, h)
    end.
Proof. intros Hl. unfold Heap.set. by rewrite Hl. Qed.

Lemma run_copy h l a :
  h !! l = Some a ->
  Heap.copy l h = (Ok (fresh (dom h)), <[fresh (dom h) := a]> h).
Proof.
  intros Hl. unfold Heap.copy, mbind, Heap.heapM_bind, Heap.bind.
  by rewrite (run_load h l a Hl).
Qed.

(** [agrees l m h v]: from the store [h], the computation [m] ends as the
    value-level outcome [v] does, and when that is [Ok (a', s)] it returns
    [s] and the store differs from [h] in holding [a'] at [l]. *)
Definition agrees {S} l (m : Heap.heapM S) h (v : outcome (list (list F) * S)) : Prop :=
  match v with
  | Ok (a', s) => m h = (Ok s, <[l := a']> h)
  | Raise e => exists h', m h = (Raise e, h')
  | OutOfFuel => exists h', m h = (OutOfFuel, h')
  end.

Lemma run_bind_step {A B} (m : Heap.heapM A) (k : A -> Heap.heapM B) h o h1 :
  m h = (o, h1) ->
  (m ≫= k) h = match o with
               | Ok x => k x h1
               | Raise e => (Raise e, h1)
               | OutOfFuel => (OutOfFuel, h1)
               end.
Proof.
  intros Hm. unfold mbind, Heap.heapM_bind, Heap.bind. rewrite Hm. by destruct o.
Qed.

Lemma agrees_bind {A B} l (m : Heap.heapM A) (k : A -> Heap.heapM B) h
    (v : outcome (list (list F) * A)) (kv : list (list F) * A -> outcome (list (list F) * B)) :
  agrees l m h v ->
  (forall a' x, v = Ok (a', x) -> agrees l (k x) (<[l := a']> h) (kv (a', x))) ->
  agrees l (m ≫= k) h (v ≫= kv).
Proof.
  intros Hm Hk. destruct v as [[a' x]| |]; simpl in *.
  - specialize (Hk a' x eq_refl). unfold agrees in *.
    rewrite (run_bind_step m k h _ _ Hm).
    destruct (kv (a', x)) as [[a'' y]| |]; [|done..].
    by rewrite Hk, insert_insert_eq.
  - destruct Hm as [h' Hm]. rewrite (run_bind_step m k h _ _ Hm). eauto.
  - destruct Hm as [h' Hm]. rewrite (run_bind_step m k h _ _ Hm). eauto.
Qed.

Lemma agrees_reads {S} l (m : Heap.heapM S) h a (o : outcome S) :
  h !! l = Some a -> m h = (o, h) -> agrees l m h ((fun s => (a, s)) <$> o).
Proof.
  intros Hl Hm. unfold agrees. destruct o; simpl; rewrite Hm; eauto.
  by rewrite insert_id.
Qed.

Lemma agrees_for_each {A S} l (xs : list A) (body : S -> A -> Heap.heapM S)
    (vbody : list (list F) * S -> A -> outcome (list (list F) * S)) :
  (forall h a s x, h !! l = Some a -> agrees l (body s x) h (vbody (a, s) x)) ->
  forall h a s, h !! l = Some a ->
    agrees l (Heap.for_each xs body s) h (for_each xs vbody (a, s)).
Proof.
  intros Hbody. induction xs as [|x xs IH]; intros h a s Hl; simpl.
  - unfold agrees, Heap.ret. by rewrite insert_id.
  - apply agrees_bind; [by apply Hbody|].
    intros a' s' _. apply IH. apply lookup_insert_eq.
Qed.

(** The same for a loop whose only state is the array. *)
Lemma agrees_for_each_unit {A} l (xs : list A) (body : unit -> A -> Heap.heapM unit)
    (vbody : list (list F) -> A -> outcome (list (list F))) :
  (forall h a x, h !! l = Some a ->
     agrees l (body tt x) h ((fun a' => (a', tt)) <$> vbody a x)) ->
  forall h a, h !! l = Some a ->
    agrees l (Heap.for_each xs body tt) h ((fun a' => (a', tt)) <$> for_each xs vbody a).
Proof.
  intros Hbody. induction xs as [|x xs IH]; intros h a Hl; simpl.
  - unfold agrees, Heap.ret. by rewrite insert_id.
  - specialize (Hbody h a x Hl). unfold agrees in *.
    destruct (vbody a x) as [a'| |]; simpl in *.
    + rewrite (run_bind_step _ _ h _ _ Hbody).
      specialize (IH (<[l := a']> h) a' (lookup_insert_eq _ _ _)).
      destruct (for_each xs vbody a') as [a''| |]; simpl in *; [|done..].
      by rewrite IH, insert_insert_eq.
    + destruct Hbody as [h' Hm]. rewrite (run_bind_step _ _ h _ _ Hm). eauto.
    + destruct Hbody as [h' Hm]. rewrite (run_bind_step _ _ h _ _ Hm). eauto.
Qed.

End AgreementWrites.

(** The integers as the float type of the brushfire arrays: literals, [+],
    [-] and [==] are the integer ones; the other operations do not occur in
    [brushfire.py] and are given integer stand-ins. *)
Definition int_ops : FloatOps Z := {|
  f_lit := id; f_half := 0; f_inf := 0;
  f_add := Z.add; f_sub := Z.sub; f_mul := Z.mul; f_div := Z.div; f_sqrt := Z.sqrt;
  f_eqb := Z.eqb; f_ltb := Z.ltb; f_leb := Z.leb;
|}.

(** The wavefront values as a float type: literals, [inf], [+], [<] and [==]
    are those of [dist]; the other operations do not occur in [wavefront.py]. *)
Definition dist_ops : FloatOps dist := {|
  f_lit := Num; f_half := Num 0; f_inf := Inf;
  f_add := dist_add; f_sub := fun a _ => a; f_mul := fun a _ => a;
  f_div := fun a _ => a; f_sqrt := fun a => a;
  f_eqb := dist_eqb; f_ltb := dist_ltb; f_leb := fun a b => negb (dist_ltb b a);
|}.

Section BrushfireAgreement.
#[local] Existing Instance Heap.heapM_bind.
#[local] Existing Instance Heap.heapM_ret.
#[local] Existing Instance int_ops.
Implicit Types (h : gmap nat (list (list Z))) (a : array Z) (l : nat).

Lemma run_seed h l a queue p :
  h !! l = Some a ->
  Heap.seed l queue p h = (Brushfire.seed a queue p, h).
Proof.
  intros Hl. unfold Heap.seed, Brushfire.seed.
  rewrite (run_bind _ _ h _ (run_get h l a _ _ Hl)).
  destruct (np_get a p.1 p.2) as [v| |]; simpl; [|done..].
  change (f_eqb v (f_lit 1)) with (v =? 1). by destruct (v =? 1).
Qed.

Lemma agrees_visit l t h a queue move :
  h !! l = Some a ->
  agrees l (Heap.visit l t queue move) h (Brushfire.visit t (a, queue) move).
Proof.
  intros Hl. unfold agrees, Heap.visit, Brushfire.visit. cbv zeta.
  rewrite (run_bind _ _ h _ (run_shape h l a Hl)). cbn [fst snd].
  destruct ((t.1 + move.1 >=? nrows a) || _ || _ || _).
  { unfold Heap.ret. by rewrite insert_id. }
  rewrite (run_bind _ _ h _ (run_get h l a _ _ Hl)).
  destruct (np_get a (t.1 + move.1) (t.2 + move.2)) as [v| |]; simpl; [|eauto..].
  change (f_eqb v (f_lit 0)) with (v =? 0). destruct (v =? 0).
  2:{ unfold Heap.ret. by rewrite insert_id. }
  rewrite (run_bind _ _ h _ (run_get h l a _ _ Hl)).
  destruct (np_get a t.1 t.2) as [tv| |]; simpl; [|eauto..].
  pose proof (run_set h l a (t.1 + move.1) (t.2 + move.2) (f_add tv (f_lit 1)) Hl) as Hset.
  change (f_add tv (f_lit 1)) with (tv + 1) in *.
  destruct (np_set a (t.1 + move.1) (t.2 + move.2) (tv + 1)) as [a'| |]; simpl;
    rewrite (run_bind_step _ _ h _ _ Hset); eauto.
Qed.

Lemma agrees_propagate fuel moves l :
  forall h a queue, h !! l = Some a ->
    agrees l (Heap.propagate fuel moves l queue) h
      ((fun a' => (a', tt)) <$> Brushfire.propagate fuel moves a queue).
Proof.
  induction fuel as [|fuel IH]; intros h a [|t queue] Hl; simpl.
  - unfold Heap.ret. by rewrite insert_id.
  - by exists h.
  - unfold Heap.ret. by rewrite insert_id.
  - pose proof (agrees_for_each l moves (Heap.visit l t) (Brushfire.visit t)
                  (fun h a s x Hl => agrees_visit l t h a s x Hl) h a queue Hl) as Hloop.
    unfold agrees in Hloop |- *.
    destruct (for_each moves (Brushfire.visit t) (a, queue)) as [[a' queue']| |]; simpl.
    + rewrite (run_bind_step _ _ h _ _ Hloop).
      specialize (IH (<[l := a']> h) a' queue' (lookup_insert_eq _ _ _)).
      unfold agrees in IH.
      destruct (Brushfire.propagate fuel moves a' queue') as [a''| |]; simpl in *.
      * by rewrite IH, insert_insert_eq.
      * done.
      * done.
    + destruct Hloop as [h' Hm]. rewrite (run_bind_step _ _ h _ _ Hm). eauto.
    + destruct Hloop as [h' Hm]. rewrite (run_bind_step _ _ h _ _ Hm). eauto.
Qed.

(** The store model of [compute_obstacle_distance] ends as the value model
    does on the array at [grid_map], and the location it returns holds the
    field the value model returns. *)
Lemma run_compute_obstacle_distance h grid_map a fuel connectivity :
  h !! grid_map = Some a ->
  match Brushfire.compute_obstacle_distance fuel a connectivity with
  | Ok d => exists r h',
      Heap.compute_obstacle_distance fuel grid_map connectivity h = (Ok r, h')
      /\ h' !! r = Some d
  | Raise e => exists h',
      Heap.compute_obstacle_distance fuel grid_map connectivity h = (Raise e, h')
  | OutOfFuel => exists h',
      Heap.compute_obstacle_distance fuel grid_map connectivity h = (OutOfFuel, h')
  end.
Proof.
  intros Hg. unfold Heap.compute_obstacle_distance, Brushfire.compute_obstacle_distance.
  rewrite (run_bind_step _ _ h _ _ (run_copy h grid_map a Hg)).
  set (c := fresh (dom h)). set (h1 := <[c := a]> h).
  assert (Hc : h1 !! c = Some a) by apply lookup_insert_eq.
  rewrite (run_bind_step _ _ h1 _ _ (run_copy h1 c a Hc)).
  set (r := fresh (dom h1)). set (h2 := <[r := a]> h1).
  assert (Hr : h2 !! r = Some a) by apply lookup_insert_eq.
  rewrite (run_bind _ _ h2 _ (run_indices h2 r a Hr)).
  rewrite (run_bind _ _ h2 _
             (run_for_each_reads _ _ _ h2 [] (fun s x => run_seed h2 r a s x Hr))).
  destruct (for_each (all_cells a) (Brushfire.seed a) []) as [queue| |]; simpl; [|eauto..].
  rewrite (run_bind _ _ h2 (Brushfire.move_type connectivity)) by done.
  destruct (Brushfire.move_type connectivity) as [moves| |]; simpl; [|eauto..].
  pose proof (agrees_propagate fuel moves r h2 a queue Hr) as Hprop. unfold agrees in Hprop.
  destruct (Brushfire.propagate fuel moves a queue) as [a'| |]; simpl in *.
  2:{ destruct Hprop as [h' Hm]. rewrite (run_bind_step _ _ h2 _ _ Hm). eauto. }
  2:{ destruct Hprop as [h' Hm]. rewrite (run_bind_step _ _ h2 _ _ Hm). eauto. }
  rewrite (run_bind_step _ _ h2 _ _ Hprop).
  set (h3 := <[r := a']> h2).
  assert (Hr3 : h3 !! r = Some a') by apply lookup_insert_eq.
  unfold Heap.subtract_one.
  eexists r, _. split; [|apply lookup_insert_eq].
  unfold mbind, Heap.heapM_bind, Heap.bind, Heap.load, Heap.alloc, Heap.assign, Heap.ret.
  rewrite Hr3. cbn [fst snd]. rewrite lookup_insert_eq.
  rewrite lookup_insert_ne.
  - rewrite Hr3. reflexivity.
  - intros E. pose proof (is_fresh (dom h3)) as Hfresh. rewrite E in Hfresh.
    apply Hfresh. apply elem_of_dom. eauto.
Qed.

End BrushfireAgreement.

Section WavefrontAgreement.
#[local] Existing Instance Heap.heapM_bind.
#[local] Existing Instance Heap.heapM_ret.
#[local] Existing Instance dist_ops.
Implicit Types (h : gmap nat (list (list dist))) (a : array dist) (l : nat).

Lemma run_is_valid_cell h l a point :
  h !! l = Some a ->
  Heap.is_valid_cell l point h = (Wavefront.is_valid_cell a point, h).
Proof.
  intros Hl. unfold Heap.is_valid_cell, Wavefront.is_valid_cell.
  rewrite (run_bind _ _ h _ (run_shape h l a Hl)). cbn [fst snd].
  destruct ((point.1 <? 0) || (point.1 >=? nrows a)); [done|].
  destruct ((point.2 <? 0) || (point.2 >=? ncols a)); [done|].
  rewrite (run_bind _ _ h _ (run_get h l a _ _ Hl)).
  destruct (np_get a point.1 point.2) as [v| |]; simpl; [|done..].
  change (f_eqb v f_inf) with (dist_eqb v Inf). by destruct (dist_eqb v Inf).
Qed.

Lemma agrees_set l h a r c v :
  h !! l = Some a ->
  agrees l (Heap.set l r c v) h ((fun a' => (a', tt)) <$> np_set a r c v).
Proof.
  intros Hl. unfold agrees. rewrite (run_set h l a r c v Hl).
  destruct (np_set a r c v); simpl; eauto.
Qed.

Lemma agrees_mark l h a p :
  h !! l = Some a ->
  agrees l (Heap.mark l tt p) h ((fun a' => (a', tt)) <$> Wavefront.mark a p).
Proof.
  intros Hl. unfold Heap.mark, Wavefront.mark.
  pose proof (agrees_set l h a p.1 p.2) as Hset. unfold agrees in *.
  rewrite (run_bind _ _ h _ (run_get h l a _ _ Hl)).
  destruct (np_get a p.1 p.2) as [v| |] eqn:E; simpl; [|eauto..].
  change (f_eqb v (f_lit 1)) with (dist_eqb v (Num 1)).
  destruct (dist_eqb v (Num 1)); [by apply Hset|].
  rewrite (run_bind _ _ h _ (run_get h l a _ _ Hl)). rewrite E. simpl. by apply Hset.
Qed.

Lemma agrees_clear_inf l h a p :
  h !! l = Some a ->
  agrees l (Heap.clear_inf l tt p) h ((fun a' => (a', tt)) <$> Wavefront.clear_inf a p).
Proof.
  intros Hl. unfold Heap.clear_inf, Wavefront.clear_inf.
  pose proof (agrees_set l h a p.1 p.2) as Hset. unfold agrees in *.
  rewrite (run_bind _ _ h _ (run_get h l a _ _ Hl)).
  destruct (np_get a p.1 p.2) as [v| |] eqn:E; simpl; [|eauto..].
  change (f_eqb v f_inf) with (dist_eqb v Inf).
  destruct (dist_eqb v Inf); [by apply Hset|].
  simpl. unfold Heap.ret. by rewrite insert_id.
Qed.

Lemma agrees_relax l t h a queue move :
  h !! l = Some a ->
  agrees l (Heap.relax l t queue move) h (Wavefront.relax t (a, queue) move).
Proof.
  intros Hl. unfold agrees, Heap.relax, Wavefront.relax. cbv zeta.
  rewrite (run_bind _ _ h _ (run_is_valid_cell h l a _ Hl)).
  destruct (Wavefront.is_valid_cell a _) as [valid| |]; simpl; [|eauto..].
  destruct valid; simpl.
  2:{ unfold Heap.ret. by rewrite insert_id. }
  rewrite (run_bind _ _ h _ (run_get h l a _ _ Hl)).
  destruct (np_get a (t.1 + move.1) (t.2 + move.2)) as [v| |] eqn:Ev; simpl; [|eauto..].
  change (f_eqb v f_inf) with (dist_eqb v Inf).
  assert (Hcloser :
    (if negb (dist_eqb v Inf)
     then v' ← Heap.get l (t.1 + move.1) (t.2 + move.2);
          tv ← Heap.get l t.1 t.2;
          Heap.ret (f_ltb (f_add tv (f_lit 1)) v')
     else Heap.ret false) h
    = ((if negb (dist_eqb v Inf)
        then tv ← np_get a t.1 t.2; Ok (dist_ltb (dist_add tv (Num 1)) v)
        else Ok false), h)).
  { destruct (negb (dist_eqb v Inf)); [|done].
    rewrite (run_bind _ _ h _ (run_get h l a _ _ Hl)). rewrite Ev. simpl.
    rewrite (run_bind _ _ h _ (run_get h l a _ _ Hl)).
    by destruct (np_get a t.1 t.2). }
  rewrite (run_bind _ _ h _ Hcloser). clear Hcloser.
  destruct (if negb (dist_eqb v Inf) then _ else _) as [closer| |]; simpl; [|eauto..].
  destruct closer.
  2:{ unfold Heap.ret. by rewrite insert_id. }
  rewrite (run_bind _ _ h _ (run_get h l a _ _ Hl)).
  destruct (np_get a t.1 t.2) as [tv| |]; simpl; [|eauto..].
  pose proof (run_set h l a (t.1 + move.1) (t.2 + move.2) (f_add tv (f_lit 1)) Hl) as Hset.
  change (f_add tv (f_lit 1)) with (dist_add tv (Num 1)) in *.
  destruct (np_set a (t.1 + move.1) (t.2 + move.2) (dist_add tv (Num 1))) as [a'| |]; simpl;
    rewrite (run_bind_step _ _ h _ _ Hset); eauto.
Qed.

Lemma agrees_expand fuel moves l :
  forall h a queue, h !! l = Some a ->
    agrees l (Heap.expand fuel moves l queue) h
      ((fun a' => (a', tt)) <$> Wavefront.expand fuel moves a queue).
Proof.
  induction fuel as [|fuel IH]; intros h a [|t queue] Hl; simpl.
  - unfold Heap.ret. by rewrite insert_id.
  - by exists h.
  - unfold Heap.ret. by rewrite insert_id.
  - pose proof (agrees_for_each l moves (Heap.relax l t) (Wavefront.relax t)
                  (fun h a s x Hl => agrees_relax l t h a s x Hl) h a queue Hl) as Hloop.
    unfold agrees in Hloop |- *.
    destruct (for_each moves (Wavefront.relax t) (a, queue)) as [[a' queue']| |]; simpl.
    + rewrite (run_bind_step _ _ h _ _ Hloop).
      specialize (IH (<[l := a']> h) a' queue' (lookup_insert_eq _ _ _)).
      unfold agrees in IH.
      destruct (Wavefront.expand fuel moves a' queue') as [a''| |]; simpl in *.
      * by rewrite IH, insert_insert_eq.
      * done.
      * done.
    + destruct Hloop as [h' Hm]. rewrite (run_bind_step _ _ h _ _ Hm). eauto.
    + destruct Hloop as [h' Hm]. rewrite (run_bind_step _ _ h _ _ Hm). eauto.
Qed.

(** The store model of [compute_wavefront] ends as the value model does on
    the grid whose float copy is at [grid_map], and the two locations it
    returns hold the two fields the value model returns. *)
Lemma run_compute_wavefront h grid_map (g : array Z) fuel goal connectivity :
  h !! grid_map = Some (np_map Num g) ->
  match Wavefront.compute_wavefront fuel g goal connectivity with
  | Ok (d, vis) => exists r v h',
      Heap.compute_wavefront fuel grid_map goal connectivity h = (Ok (r, v), h')
      /\ h' !! r = Some d /\ h' !! v = Some vis
  | Raise e => exists h',
      Heap.compute_wavefront fuel grid_map goal connectivity h = (Raise e, h')
  | OutOfFuel => exists h',
      Heap.compute_wavefront fuel grid_map goal connectivity h = (OutOfFuel, h')
  end.
Proof.
  intros Hg. unfold Heap.compute_wavefront, Wavefront.compute_wavefront.
  set (a0 := np_map Num g) in *.
  rewrite (run_bind_step _ _ h _ _ (run_copy h grid_map a0 Hg)).
  set (c := fresh (dom h)). set (h1 := <[c := a0]> h).
  assert (Hc : h1 !! c = Some a0) by apply lookup_insert_eq.
  rewrite (run_bind_step _ _ h1 _ _ (run_copy h1 c a0 Hc)).
  set (r := fresh (dom h1)). set (h2 := <[r := a0]> h1).
  assert (Hr : h2 !! r = Some a0) by apply lookup_insert_eq.
  rewrite (run_bind _ _ h2 _ (run_indices h2 r a0 Hr)).
  (* the marking loop *)
  pose proof (agrees_for_each_unit r (all_cells a0) (Heap.mark r) Wavefront.mark
                (fun h a x Hl => agrees_mark r h a x Hl) h2 a0 Hr) as Hmark.
  unfold agrees in Hmark.
  destruct (for_each (all_cells a0) Wavefront.mark a0) as [a1| |]; simpl in *.
  2:{ destruct Hmark as [h' Hm]. rewrite (run_bind_step _ _ h2 _ _ Hm). eauto. }
  2:{ destruct Hmark as [h' Hm]. rewrite (run_bind_step _ _ h2 _ _ Hm). eauto. }
  rewrite (run_bind_step _ _ h2 _ _ Hmark).
  set (h3 := <[r := a1]> h2).
  assert (Hr3 : h3 !! r = Some a1) by apply lookup_insert_eq.
  (* the goal cell *)
  pose proof (run_set h3 r a1 goal.1 goal.2 (f_lit 0) Hr3) as Hset.
  change (f_lit 0) with (Num 0) in *.
  destruct (np_set a1 goal.1 goal.2 (Num 0)) as [a2| |]; simpl in *;
    rewrite (run_bind_step _ _ h3 _ _ Hset); [|eauto..].
  set (h4 := <[r := a2]> h3).
  assert (Hr4 : h4 !! r = Some a2) by apply lookup_insert_eq.
  rewrite (run_bind _ _ h4 (Wavefront.move_type connectivity)) by done.
  destruct (Wavefront.move_type connectivity) as [moves| |]; simpl; [|eauto..].
  (* the expansion *)
  pose proof (agrees_expand fuel moves r h4 a2 [(goal.1, goal.2)] Hr4) as Hexp.
  unfold agrees in Hexp.
  destruct (Wavefront.expand fuel moves a2 _) as [a3| |]; simpl in *.
  2:{ destruct Hexp as [h' Hm]. rewrite (run_bind_step _ _ h4 _ _ Hm). eauto. }
  2:{ destruct Hexp as [h' Hm]. rewrite (run_bind_step _ _ h4 _ _ Hm). eauto. }
  rewrite (run_bind_step _ _ h4 _ _ Hexp).
  set (h5 := <[r := a3]> h4).
  assert (Hr5 : h5 !! r = Some a3) by apply lookup_insert_eq.
  (* the display copy *)
  rewrite (run_bind_step _ _ h5 _ _ (run_copy h5 r a3 Hr5)).
  set (v := fresh (dom h5)). set (h6 := <[v := a3]> h5).
  assert (Hv : h6 !! v = Some a3) by apply lookup_insert_eq.
  assert (Hrv : v <> r).
  { intros E. pose proof (is_fresh (dom h5)) as Hfresh. fold v in Hfresh.
    rewrite E in Hfresh. apply Hfresh. apply elem_of_dom. eauto. }
  rewrite (run_bind _ _ h6 _ (run_indices h6 v a3 Hv)).
  pose proof (agrees_for_each_unit v (all_cells a3) (Heap.clear_inf v) Wavefront.clear_inf
                (fun h a x Hl => agrees_clear_inf v h a x Hl) h6 a3 Hv) as Hclear.
  unfold agrees in Hclear.
  destruct (for_each (all_cells a3) Wavefront.clear_inf a3) as [vis| |]; simpl in *.
  2:{ destruct Hclear as [h' Hm]. rewrite (run_bind_step _ _ h6 _ _ Hm). eauto. }
  2:{ destruct Hclear as [h' Hm]. rewrite (run_bind_step _ _ h6 _ _ Hm). eauto. }
  rewrite (run_bind_step _ _ h6 _ _ Hclear).
  exists r, v, (<[v := vis]> h6). split_and!.
  - done.
  - rewrite lookup_insert_ne by done. unfold h6. by rewrite lookup_insert_ne.
  - apply lookup_insert_eq.
Qed.

End WavefrontAgreement.

(** * Further properties of the planning core *)

(** ** Trajectories *)

(** The pair of coordinate lists an extractor returns, read as the list of
    the points of the path. *)
Definition points (trajectory : list Z * list Z) : list cell :=
  zip trajectory.1 trajectory.2.

(** Every point of the path is related by [R] to its successor. *)
Fixpoint chain (R : cell -> cell -> Prop) (path : list cell) : Prop :=
  match path with
  | p :: rest => match rest with q :: _ => R p q | [] => True end /\ chain R rest
  | [] => True
  end.

(** [q] is [p] displaced by one of [moves]. *)
Definition hop (moves : list cell) (p q : cell) : Prop :=
  exists m, m ∈ moves /\ q = cell_add p m.

Lemma points_app (start : cell) (tail : list cell) :
  points ([start.1] ++ tail.*1, [start.2] ++ tail.*2) = start :: tail.
Proof.
  unfold points. simpl. rewrite zip_fst_snd. by destruct start.
Qed.

Lemma length_points_app (start : cell) (tail : list cell) :
  length ([start.1] ++ tail.*1) = length ([start.2] ++ tail.*2).
Proof. simpl. by rewrite !length_fmap. Qed.

Lemma cell_eqb_split (p q : cell) : (p.1 =? q.1) && (p.2 =? q.2) = cell_eqb p q.
Proof. done. Qed.

Lemma zero_move_candidate connectivity moves :
  GradientDescent.move_type connectivity = Ok moves -> (0, 0) ∈ moves.
Proof.
  unfold GradientDescent.move_type. intros Hmoves.
  repeat case_match; simplify_eq; by left.
Qed.

(** ** Gradient descent: the shape of the returned path *)

Section GradientPathFacts.
Context {V : Type} (sub : V -> V -> V) (ltb eqb : V -> V -> bool).
Implicit Types (tp : array V) (current next start goal : cell).

Lemma fold_min_elem {A} (lt : A -> A -> bool) (xs : list A) (x : A) :
  fold_left (fun best item => if lt item best then item else best) xs x ∈ x :: xs.
Proof.
  revert x. induction xs as [|y xs IH]; intros x; simpl; [by left|].
  destruct (lt y x).
  - right. apply IH.
  - specialize (IH x). apply elem_of_cons in IH as [->|?]; [by left|].
    right. by right.
Qed.

Lemma potential_diffs_inv tp current moves acc ds :
  for_each moves (GradientDescent.potential_diff sub tp current) acc = Ok ds ->
  exists ds', ds = acc ++ ds'
    /\ Forall2 (fun d m => diff_at sub tp current m = Ok d) ds' moves.
Proof.
  revert acc. induction moves as [|m moves IH]; intros acc; cbn [for_each].
  - intros [= <-]. exists []. rewrite app_nil_r. split; [done|constructor].
  - destruct (GradientDescent.potential_diff sub tp current acc m) as [acc'| |] eqn:Em;
      simpl; [|done..].
    intros E. destruct (IH _ E) as (ds' & -> & HF).
    unfold GradientDescent.potential_diff in Em.
    destruct (np_get tp (current.1 + m.1) (current.2 + m.2)) as [a| |] eqn:Ea;
      simpl in Em; [|done..].
    destruct (np_get tp current.1 current.2) as [b| |] eqn:Eb; simpl in Em; [|done..].
    simplify_eq. exists (sub a b :: ds'). rewrite <- app_assoc. split; [done|].
    constructor; [|done]. unfold diff_at. by rewrite Ea, Eb.
Qed.

(** What a successful step has done: it read the field at the current cell
    and at every candidate, and moved by the candidate that [min] returned. *)
Lemma gradient_descent_step_inv tp current connectivity next :
  GradientDescent.gradient_descent_step sub ltb eqb tp current connectivity = Ok next ->
  exists moves ds d m,
    GradientDescent.move_type connectivity = Ok moves
    /\ Forall2 (fun d m => diff_at sub tp current m = Ok d) ds moves
    /\ GradientDescent.py_min ltb eqb (zip ds moves) = Ok (d, m)
    /\ (d, m) ∈ zip ds moves
    /\ next = cell_add current m.
Proof.
  unfold GradientDescent.gradient_descent_step.
  destruct (GradientDescent.move_type connectivity) as [moves| |]; simpl; [|done..].
  destruct (for_each moves _ []) as [ds| |] eqn:E; simpl; [|done..].
  apply potential_diffs_inv in E as (ds' & -> & HF). simpl.
  destruct (GradientDescent.py_min ltb eqb (zip ds' moves)) as [[d m]| |] eqn:Hmin;
    simpl; [|done..].
  intros [= <-]. exists moves, ds', d, m. split_and!; [done..| |done].
  unfold GradientDescent.py_min in Hmin.
  destruct (zip ds' moves) as [|x xs]; [done|]. injection Hmin as <-.
  apply fold_min_elem.
Qed.

(** The loop of [gradient_descent_path]: what holds of every step holds along
    the path; the loop ends early only on the goal. *)
Lemma iterate_inv (R : cell -> cell -> Prop) tp goal connectivity :
  (forall current next,
     current <> goal ->
     GradientDescent.gradient_descent_step sub ltb eqb tp current connectivity = Ok next ->
     R current next) ->
  forall iters current rows cols r,
    GradientDescent.iterate sub ltb eqb iters tp goal connectivity current rows cols = Ok r ->
    exists tail : list cell,
      r = (rows ++ tail.*1, cols ++ tail.*2)
      /\ (length tail <= iters)%nat
      /\ chain R (current :: tail)
      /\ ((length tail < iters)%nat -> last (current :: tail) = Some goal).
Proof.
  intros HR. induction iters as [|iters IH]; intros current rows cols r; simpl.
  - intros [= <-]. exists []. simpl. rewrite !app_nil_r. split_and!; [done..|lia].
  - rewrite cell_eqb_split. destruct (cell_eqb current goal) eqn:Hgoal.
    + intros [= <-]. apply cell_eqb_eq in Hgoal as ->.
      exists []. simpl. rewrite !app_nil_r. split_and!; [done|lia|done..].
    + destruct (GradientDescent.gradient_descent_step sub ltb eqb tp current connectivity)
        as [next| |] eqn:Hstep; simpl; [|done..].
      intros E. destruct (IH _ _ _ _ E) as (tail & -> & Hlen & Hchain & Hlast).
      exists (next :: tail). simpl. rewrite <- !app_assoc.
      split; [done|]. split; [lia|]. split.
      * split; [|done]. apply HR; [|done]. intros ->.
        assert (cell_eqb goal goal = true) by by apply cell_eqb_eq. congruence.
      * intros Hlt. rewrite <- Hlast by lia. by destruct tail.
Qed.

(** A returned path holds as many rows as columns, starts at [start], and has
    at most [max_iters + 1] points (one point when [max_iters] is negative). *)
Theorem gradient_descent_path_length tp start goal connectivity max_iters r :
  GradientDescent.gradient_descent_path sub ltb eqb tp start goal connectivity max_iters
    = Ok r ->
  length r.1 = length r.2
  /\ head (points r) = Some start
  /\ Z.of_nat (length (points r)) <= Z.max 0 max_iters + 1.
Proof.
  unfold GradientDescent.gradient_descent_path. intros E.
  destruct (iterate_inv (fun _ _ => True) tp goal connectivity (fun _ _ _ _ => I) _ _ _ _ _ E)
    as (tail & -> & Hlen & _).
  rewrite points_app. cbn [fst snd]. rewrite length_points_app.
  split_and!; [done|done|]. simpl length.
  destruct (Z.max_spec 0 max_iters); lia.
Qed.

(** Consecutive points of a returned path differ by one of the candidate
    moves of the connectivity, the zero move included: a point may repeat.
    Nothing says that the points lie inside the field. *)
Theorem gradient_descent_path_hops tp start goal connectivity max_iters moves r :
  GradientDescent.move_type connectivity = Ok moves ->
  GradientDescent.gradient_descent_path sub ltb eqb tp start goal connectivity max_iters
    = Ok r ->
  (0, 0) ∈ moves /\ chain (hop moves) (points r).
Proof.
  intros Hmoves E. split; [by eapply zero_move_candidate|].
  unfold GradientDescent.gradient_descent_path in E.
  eapply (iterate_inv (hop moves)) in E as (tail & -> & _ & Hchain & _).
  { by rewrite points_app. }
  intros current next _ Hstep.
  apply gradient_descent_step_inv in Hstep as (moves' & ds & d & m & Hm' & HF & _ & Hin & ->).
  assert (moves' = moves) as -> by congruence.
  exists m. split; [|done].
  by destruct (elem_of_zip_Forall2 _ _ _ _ _ HF Hin).
Qed.

(** The goal is never a point the path moves on from, and a path with fewer
    than [max_iters + 1] points ends on the goal: the loop is left early only
    by the goal test. *)
Theorem gradient_descent_path_stops_at_goal tp start goal connectivity max_iters r :
  GradientDescent.gradient_descent_path sub ltb eqb tp start goal connectivity max_iters
    = Ok r ->
  chain (fun p _ => p <> goal) (points r)
  /\ (Z.of_nat (length (points r)) < Z.max 0 max_iters + 1 -> last (points r) = Some goal).
Proof.
  unfold GradientDescent.gradient_descent_path. intros E.
  destruct (iterate_inv (fun p _ => p <> goal) tp goal connectivity
              (fun _ _ H _ => H) _ _ _ _ _ E)
    as (tail & -> & _ & Hchain & Hlast).
  rewrite points_app. split; [done|]. intros Hlt. apply Hlast. simpl length in Hlt.
  destruct (Z.max_spec 0 max_iters); lia.
Qed.

End GradientPathFacts.

Lemma gradient_descent_path_length_witness :
  length ([0; 1], [0; 1]).1 = length ([0; 1], [0; 1]).2
  /\ head (points ([0; 1], [0; 1])) = Some (0, 0)
  /\ Z.of_nat (length (points ([0; 1], [0; 1]))) <= Z.max 0 5 + 1.
Proof.
  apply (gradient_descent_path_length Z.sub Z.ltb Z.eqb
           [[5; 4; 9]; [4; 0; 9]; [9; 9; 9]] (0, 0) (1, 1) 8 5).
  reflexivity.
Defined.

Lemma gradient_descent_path_hops_witness :
  (0, 0) ∈ [(0, 0); (-1, -1); (-1, 0); (0, -1); (1, 0); (0, 1); (1, -1); (1, 1); (-1, 1)]
  /\ chain (hop [(0, 0); (-1, -1); (-1, 0); (0, -1); (1, 0); (0, 1); (1, -1); (1, 1); (-1, 1)])
       (points ([0; 1], [0; 1])).
Proof.
  apply (gradient_descent_path_hops Z.sub Z.ltb Z.eqb
           [[5; 4; 9]; [4; 0; 9]; [9; 9; 9]] (0, 0) (1, 1) 8 5); reflexivity.
Defined.

Lemma gradient_descent_path_stops_at_goal_witness :
  chain (fun p _ => p <> (1, 1)) (points ([0; 1], [0; 1]))
  /\ (Z.of_nat (length (points ([0; 1], [0; 1]))) < Z.max 0 5 + 1 ->
      last (points ([0; 1], [0; 1])) = Some (1, 1)).
Proof.
  apply (gradient_descent_path_stops_at_goal Z.sub Z.ltb Z.eqb
           [[5; 4; 9]; [4; 0; 9]; [9; 9; 9]] (0, 0) (1, 1) 8 5).
  reflexivity.
Defined.

Section GradientOrderFacts.
Context {V : Type} (sub : V -> V -> V) (ltb eqb : V -> V -> bool).
(** [<] is a strict order and [==] a partial equivalence compatible with it. *)
Hypothesis ltb_irrefl : forall x, ltb x x = false.
Hypothesis ltb_trans : forall x y z, ltb x y = true -> ltb y z = true -> ltb x z = true.
Hypothesis eqb_sym : forall x y, eqb x y = true -> eqb y x = true.
Hypothesis eqb_trans : forall x y z, eqb x y = true -> eqb y z = true -> eqb x z = true.
Hypothesis ltb_eqb_l : forall x y z, eqb x y = true -> ltb x z = ltb y z.
Hypothesis ltb_eqb_r : forall x y z, eqb x y = true -> ltb z x = ltb z y.
Implicit Types (tp : array V) (current next start goal : cell).

(** No item is below the item that [min] returns. *)
Lemma py_min_least (items : list (V * cell)) best :
  GradientDescent.py_min ltb eqb items = Ok best ->
  forall x, x ∈ items -> GradientDescent.tuple_lt ltb eqb x best = false.
Proof.
  unfold GradientDescent.py_min. destruct items as [|x xs]; [done|].
  pose proof (fold_min_least ltb eqb ltb_irrefl ltb_trans eqb_sym eqb_trans
                ltb_eqb_l ltb_eqb_r xs x) as [Hor Hleast].
  simpl in Hor, Hleast. intros [= <-].
  intros y [->|Hy]%elem_of_cons; [|by apply Hleast].
  revert Hor.
  generalize (fold_left (fun best item =>
                if GradientDescent.tuple_lt ltb eqb item best then item else best) xs x).
  intros best [->|[_ Hlt]].
  - by apply tuple_lt_irrefl.
  - destruct (GradientDescent.tuple_lt ltb eqb x best) eqn:Hx; [|done].
    pose proof (tuple_lt_trans ltb eqb ltb_irrefl ltb_trans eqb_sym eqb_trans
                  ltb_eqb_l ltb_eqb_r _ _ _ Hlt Hx) as Hbb.
    by rewrite (tuple_lt_irrefl ltb eqb ltb_irrefl) in Hbb.
Qed.

(** Along a returned path the potential difference of every step taken is
    not above the difference [P[p] - P[p]] of staying in place, both read the
    way the step reads them (numpy indexing, negative indices wrapping): on
    integer or NaN-free fields the potential never increases. *)
Theorem gradient_descent_path_never_climbs tp start goal connectivity max_iters r :
  GradientDescent.gradient_descent_path sub ltb eqb tp start goal connectivity max_iters
    = Ok r ->
  chain (fun p q => exists a b,
           np_get tp q.1 q.2 = Ok a /\ np_get tp p.1 p.2 = Ok b
           /\ ltb (sub b b) (sub a b) = false)
        (points r).
Proof.
  unfold GradientDescent.gradient_descent_path. intros E.
  eapply iterate_inv in E as (tail & -> & _ & Hchain & _).
  { rewrite points_app. exact Hchain. }
  intros current next _ Hstep.
  apply gradient_descent_step_inv in Hstep
    as (moves & ds & d & m & Hmoves & HF & Hmin & Hin & ->).
  pose proof (py_min_least _ _ Hmin) as Hleast.
  destruct (elem_of_zip_Forall2 _ _ _ _ _ HF Hin) as [Hd Hm].
  pose proof (zero_move_candidate _ _ Hmoves) as H0.
  destruct (elem_of_zip_r _ _ _ _ HF H0) as (d0 & Hin0 & Hd0).
  specialize (Hleast _ Hin0).
  unfold diff_at in Hd, Hd0. cbn [fst snd] in Hd0.
  rewrite !Z.add_0_r in Hd0.
  destruct (np_get tp (current.1 + m.1) (current.2 + m.2)) as [a| |] eqn:Ea;
    simpl in Hd; [|done..].
  destruct (np_get tp current.1 current.2) as [b| |] eqn:Eb; simpl in Hd, Hd0; [|done..].
  simplify_eq. exists a, b. split_and!; [done..|].
  unfold GradientDescent.tuple_lt in Hleast. cbn [fst snd] in Hleast.
  destruct (eqb (sub b b) (sub a b)) eqn:Heq; [|done].
  rewrite (ltb_eqb_l _ _ _ Heq). apply ltb_irrefl.
Qed.

End GradientOrderFacts.

Lemma gradient_descent_path_never_climbs_witness :
  chain (fun p q => exists a b,
           np_get [[5; 4; 9]; [4; 0; 9]; [9; 9; 9]] q.1 q.2 = Ok a
           /\ np_get [[5; 4; 9]; [4; 0; 9]; [9; 9; 9]] p.1 p.2 = Ok b
           /\ Z.ltb (Z.sub b b) (Z.sub a b) = false)
        (points ([0; 1], [0; 1])).
Proof.
  apply (gradient_descent_path_never_climbs Z.sub Z.ltb Z.eqb) with (start := (0, 0))
    (goal := (1, 1)) (connectivity := 8) (max_iters := 5).
  - apply Z.ltb_irrefl.
  - intros x y z. rewrite !Z.ltb_lt. lia.
  - intros x y. rewrite !Z.eqb_eq. lia.
  - intros x y z. rewrite !Z.eqb_eq. lia.
  - intros x y z ->%Z.eqb_eq. done.
  - intros x y z ->%Z.eqb_eq. done.
  - reflexivity.
Defined.

(** ** Gradient descent: where a step raises [IndexError] *)

Section GradientBorder.
Context {V : Type} (sub : V -> V -> V) (ltb eqb : V -> V -> bool).
Implicit Types (tp : array V) (current : cell).

(** numpy accepts exactly the indices of [-n, n) along an axis of length [n]. *)
Lemma np_get_cases tp r c :
  rect tp ->
  (- nrows tp <= r < nrows tp /\ - ncols tp <= c < ncols tp
   /\ exists v, np_get tp r c = Ok v)
  \/ ((r < - nrows tp \/ nrows tp <= r \/ c < - ncols tp \/ ncols tp <= c)
      /\ np_get tp r c = Raise IndexError).
Proof.
  intros Hr. unfold np_get.
  destruct (norm_index (nrows tp) r) as [i|] eqn:Hi.
  2:{ right. unfold norm_index in Hi. repeat case_match; try done.
      split; [lia|done]. }
  destruct (norm_index (ncols tp) c) as [j|] eqn:Hj.
  2:{ right. unfold norm_index in Hj. repeat case_match; try done.
      split; [lia|done]. }
  left.
  assert (Hir : - nrows tp <= r < nrows tp /\ Z.of_nat i < nrows tp).
  { unfold norm_index in Hi. repeat case_match; simplify_eq; lia. }
  assert (Hjc : - ncols tp <= c < ncols tp /\ Z.of_nat j < ncols tp).
  { unfold norm_index in Hj. repeat case_match; simplify_eq; lia. }
  split_and!; [lia..|].
  destruct (lookup_lt_is_Some_2 tp i) as [row Hrow]; [unfold nrows in Hir; lia|].
  pose proof (rect_row _ _ _ Hr Hrow) as Hlen.
  destruct (lookup_lt_is_Some_2 row j) as [v Hv]; [lia|].
  exists v. rewrite Hrow. simpl. by rewrite Hv.
Qed.

Lemma diff_at_cases tp current m :
  rect tp ->
  (exists d, diff_at sub tp current m = Ok d)
  \/ diff_at sub tp current m = Raise IndexError.
Proof.
  intros Hr. unfold diff_at.
  destruct (np_get_cases tp (current.1 + m.1) (current.2 + m.2) Hr)
    as [(_ & _ & a & ->)|[_ ->]]; [|by right].
  destruct (np_get_cases tp current.1 current.2 Hr) as [(_ & _ & b & ->)|[_ ->]];
    [left|by right].
  by eexists.
Qed.

(** One candidate out of range makes the whole scan of the candidates raise. *)
Lemma potential_diffs_raise tp current moves acc m :
  rect tp -> m ∈ moves -> diff_at sub tp current m = Raise IndexError ->
  for_each moves (GradientDescent.potential_diff sub tp current) acc = Raise IndexError.
Proof.
  intros Hr. revert acc. induction moves as [|m0 moves IH]; intros acc Hm Hraise.
  { by apply elem_of_nil in Hm. }
  cbn [for_each].
  assert (Hstep : forall o, diff_at sub tp current m0 = o ->
            GradientDescent.potential_diff sub tp current acc m0
            = (fun d => acc ++ [d]) <$> o).
  { intros o <-. unfold GradientDescent.potential_diff, diff_at.
    destruct (np_get tp (current.1 + m0.1) (current.2 + m0.2)); simpl; [|done..].
    by destruct (np_get tp current.1 current.2). }
  destruct (diff_at_cases tp current m0 Hr) as [[d Hd]|Hd];
    rewrite (Hstep _ Hd); simpl; [|done].
  apply elem_of_cons in Hm as [->|Hm]; [congruence|]. by apply IH.
Qed.

(** From an in-bounds cell, a step raises [IndexError] exactly on the last row
    and on the last column of the field: the candidate one row down or one
    column right is then read at an index equal to the axis length.  Anywhere
    else every candidate is read (row and column [-1] wrap around) and the
    step returns a cell. *)
Theorem gradient_descent_step_border tp current connectivity :
  rect tp -> in_bounds tp current -> connectivity = 4 \/ connectivity = 8 ->
  (current.1 = nrows tp - 1 \/ current.2 = ncols tp - 1 ->
   GradientDescent.gradient_descent_step sub ltb eqb tp current connectivity
   = Raise IndexError)
  /\ (current.1 < nrows tp - 1 -> current.2 < ncols tp - 1 ->
      exists next,
        GradientDescent.gradient_descent_step sub ltb eqb tp current connectivity
        = Ok next).
Proof.
  intros Hr [Hb1 Hb2] Hc.
  assert (exists moves, GradientDescent.move_type connectivity = Ok moves
            /\ (1, 0) ∈ moves /\ (0, 1) ∈ moves
            /\ forall m, m ∈ moves -> -1 <= m.1 <= 1 /\ -1 <= m.2 <= 1)
    as (moves & Hmoves & Hdown & Hright & Hsmall).
  { destruct Hc as [-> | ->]; eexists; (split; [reflexivity|]);
      (split_and!; [rewrite !elem_of_cons; tauto..|]);
      intros m Hm; rewrite !elem_of_cons, elem_of_nil in Hm;
      intuition (subst; simpl; lia). }
  unfold GradientDescent.gradient_descent_step. rewrite Hmoves. cbn [mbind outcome_bind].
  split.
  - intros Hlast.
    assert (exists m, m ∈ moves /\ diff_at sub tp current m = Raise IndexError)
      as (m & Hm & Hraise).
    { destruct Hlast as [Hl|Hl]; [exists (1, 0)|exists (0, 1)]; (split; [done|]);
        unfold diff_at; cbn [fst snd].
      - destruct (np_get_cases tp (current.1 + 1) (current.2 + 0) Hr)
          as [(? & ? & _)|[_ ->]]; [lia|done].
      - destruct (np_get_cases tp (current.1 + 0) (current.2 + 1) Hr)
          as [(? & ? & _)|[_ ->]]; [lia|done]. }
    by rewrite (potential_diffs_raise tp current moves [] m Hr Hm Hraise).
  - intros Hl1 Hl2.
    destruct (potential_diffs_spec sub tp current moves []) as (ds & -> & HF).
    { intros m Hm. destruct (Hsmall m Hm).
      destruct (diff_at_cases tp current m Hr) as [?|Hraise]; [done|].
      exfalso. unfold diff_at in Hraise.
      destruct (np_get_cases tp (current.1 + m.1) (current.2 + m.2) Hr)
        as [(_ & _ & a & Ea)|[? _]]; [|lia].
      destruct (np_get_cases tp current.1 current.2 Hr) as [(_ & _ & b & Eb)|[? _]]; [|lia].
      by rewrite Ea, Eb in Hraise. }
    cbn [mbind outcome_bind app].
    destruct HF as [|d m ds moves' _ _]; [by apply elem_of_nil in Hdown|].
    simpl. by eexists.
Qed.

End GradientBorder.

Lemma gradient_descent_step_border_witness :
  ((0, 1).1 = nrows [[1; 2]; [3; 4]] - 1 \/ (0, 1).2 = ncols [[1; 2]; [3; 4]] - 1 ->
   GradientDescent.gradient_descent_step Z.sub Z.ltb Z.eqb [[1; 2]; [3; 4]] (0, 1) 4
   = Raise IndexError)
  /\ ((0, 1).1 < nrows [[1; 2]; [3; 4]] - 1 -> (0, 1).2 < ncols [[1; 2]; [3; 4]] - 1 ->
      exists next,
        GradientDescent.gradient_descent_step Z.sub Z.ltb Z.eqb [[1; 2]; [3; 4]] (0, 1) 4
        = Ok next).
Proof.
  apply (gradient_descent_step_border Z.sub Z.ltb Z.eqb [[1; 2]; [3; 4]] (0, 1) 4).
  - repeat constructor.
  - unfold in_bounds, nrows, ncols; cbn; lia.
  - left; reflexivity.
Defined.

(** ** Greedy descent: which neighbour a move takes, and where the path ends *)

Section GreedyPathFacts.
Context {V : Type} (ltb : V -> V -> bool).
Hypothesis ltb_irrefl : forall x, ltb x x = false.
Hypothesis ltb_trans : forall x y z, ltb x y = true -> ltb y z = true -> ltb x z = true.
Implicit Types (a : array V) (p q current goal : cell).

(** No in-bounds neighbour of [p] has a value below the value at [q]. *)
Definition lowest_neighbour a (moves : list cell) p q : Prop :=
  exists w, peek a q = Some w
    /\ forall m v, m ∈ moves -> in_bounds a (cell_add p m) ->
                   peek a (cell_add p m) = Some v -> ltb v w = false.

(** The state [(best_value, next_cell)] after the moves [ms] were scanned. *)
Definition scanned a current (vc : V) (ms : list cell) (st : V * cell) : Prop :=
  (st = (vc, current)
   \/ (hop ms current st.2 /\ in_bounds a st.2 /\ peek a st.2 = Some st.1
       /\ ltb st.1 vc = true))
  /\ forall m v, m ∈ ms -> in_bounds a (cell_add current m) ->
                 peek a (cell_add current m) = Some v -> ltb v st.1 = false.

Lemma scanned_step a current vc ms st move :
  rect a -> scanned a current vc ms st ->
  exists st', GreedyDescent.scan_move ltb a current st move = Ok st'
              /\ scanned a current vc (ms ++ [move]) st'.
Proof.
  intros Hr [Hst Hlow]. unfold GreedyDescent.scan_move. destruct st as [best next].
  change (current.1 + move.1, current.2 + move.2) with (cell_add current move).
  change (current.1 + move.1) with (cell_add current move).1.
  change (current.2 + move.2) with (cell_add current move).2.
  set (n := cell_add current move).
  assert (Hold : (best, next) = (vc, current)
                 \/ (hop (ms ++ [move]) current next /\ in_bounds a next
                     /\ peek a next = Some best /\ ltb best vc = true)).
  { destruct Hst as [?|((m & Hm & E) & ?)]; [by left|right]. split; [|done].
    exists m. split; [|done]. apply elem_of_app. by left. }
  destruct ((0 <=? n.1) && (n.1 <? nrows a) && (0 <=? n.2) && (n.2 <? ncols a)) eqn:Hin.
  2:{ exists (best, next). split; [done|]. split; [done|].
      intros m v [Hm| ->%list_elem_of_singleton]%elem_of_app Hb Hv; [by eapply Hlow|].
      exfalso. destruct Hb as [? ?]. fold n in H, H0.
      repeat (apply andb_false_iff in Hin as [Hin|Hin]); lia. }
  assert (Hb : in_bounds a n).
  { repeat (apply andb_true_iff in Hin as [Hin ?]). unfold in_bounds. lia. }
  destruct (peek_inb a _ Hr Hb) as [v Hv].
  rewrite (np_get_peek a n v Hb Hv). simpl.
  destruct (ltb v best) eqn:Hlt; simpl.
  - exists (v, n). split; [done|]. split.
    + right. cbn [fst snd]. split_and!; [|done|done|].
      * exists move. split; [|done]. apply elem_of_app. right. by left.
      * destruct Hst as [[= -> ->]|(_ & _ & _ & Hbest)]; [done|]. by eapply ltb_trans.
    + cbn [fst snd].
      intros m v' [Hm| ->%list_elem_of_singleton]%elem_of_app Hbm Hv'.
      * destruct (ltb v' v) eqn:E; [|done].
        rewrite <- (Hlow m v' Hm Hbm Hv'). symmetry. by eapply ltb_trans.
      * fold n in Hv'. assert (v' = v) as -> by congruence. apply ltb_irrefl.
  - exists (best, next). split; [done|]. split; [done|].
    intros m v' [Hm| ->%list_elem_of_singleton]%elem_of_app Hbm Hv'; [by eapply Hlow|].
    fold n in Hv'. cbn [fst]. congruence.
Qed.

Lemma scanned_loop a current vc moves ms st :
  rect a -> scanned a current vc ms st ->
  exists st', for_each moves (GreedyDescent.scan_move ltb a current) st = Ok st'
              /\ scanned a current vc (ms ++ moves) st'.
Proof.
  intros Hr. revert ms st. induction moves as [|m moves IH]; intros ms st Hinv; cbn [for_each].
  - exists st. by rewrite app_nil_r.
  - destruct (scanned_step a current vc ms st m Hr Hinv) as (st1 & -> & Hinv1).
    simpl. destruct (IH _ _ Hinv1) as (st2 & E & Hinv2).
    exists st2. split; [done|]. by rewrite <- app_assoc in Hinv2.
Qed.

Lemma cell_add_ne p m : m <> (0, 0) -> cell_add p m <> p.
Proof.
  intros Hm E. apply Hm. destruct p, m. unfold cell_add in E. simpl in E.
  simplify_eq. f_equal; lia.
Qed.

(** The [while] loop of [greedy_descent_path], when it returns. *)
Lemma descend_inv a goal moves :
  rect a -> (forall m, m ∈ moves -> m <> (0, 0)) ->
  forall fuel current rows cols r,
    in_bounds a current ->
    GreedyDescent.descend ltb fuel a goal moves current rows cols = Ok r ->
    exists tail : list cell,
      r = (rows ++ tail.*1, cols ++ tail.*2)
      /\ chain (fun p q => hop moves p q /\ lowest_neighbour a moves p q) (current :: tail)
      /\ chain (fun p _ => p <> goal) (current :: tail)
      /\ exists e, last (current :: tail) = Some e
           /\ (e = goal \/ lowest_neighbour a moves e e).
Proof.
  intros Hr Hnz. induction fuel as [|fuel IH]; intros current rows cols r Hb; simpl.
  - destruct (negb _ || negb _) eqn:Hgoal; [done|]. intros [= <-].
    exists []. simpl. rewrite !app_nil_r. split_and!; [done..|].
    exists current. split; [done|]. left.
    apply orb_false_iff in Hgoal as [H1%negb_false_iff H2%negb_false_iff].
    apply cell_eqb_eq. unfold cell_eqb. by rewrite H1, H2.
  - destruct (negb _ || negb _) eqn:Hgoal.
    2:{ intros [= <-]. exists []. simpl. rewrite !app_nil_r. split_and!; [done..|].
        exists current. split; [done|]. left.
        apply orb_false_iff in Hgoal as [H1%negb_false_iff H2%negb_false_iff].
        apply cell_eqb_eq. unfold cell_eqb. by rewrite H1, H2. }
    assert (Hne : current <> goal).
    { intros ->. rewrite !Z.eqb_refl in Hgoal. done. }
    destruct (peek_inb a _ Hr Hb) as [vc Hvc].
    rewrite (np_get_peek a current vc Hb Hvc). simpl.
    destruct (scanned_loop a current vc moves [] (vc, current) Hr) as (st & -> & Hst & Hlow).
    { split; [by left|]. intros m v Hm. by apply elem_of_nil in Hm. }
    simpl in Hst, Hlow. simpl.
    destruct (cell_eqb st.2 current) eqn:Heq.
    + intros [= <-]. exists []. simpl. rewrite !app_nil_r. split_and!; [done..|].
      exists current. split; [done|]. right. exists vc. split; [done|].
      destruct Hst as [->|((m & Hm & E) & _)]; [done|].
      apply cell_eqb_eq in Heq. rewrite Heq in E. symmetry in E.
      by apply cell_add_ne in E; [|apply Hnz].
    + destruct Hst as [->|(Hhop & Hbn & Hvn & Hlt)].
      { simpl in Heq. assert (cell_eqb current current = true) by by apply cell_eqb_eq.
        congruence. }
      intros E. destruct (IH _ _ _ _ Hbn E) as (tail & -> & Hsteps & Hstop & Hend).
      exists (st.2 :: tail). simpl. rewrite <- !app_assoc.
      split; [done|]. split; [|split].
      * split; [|done]. split; [done|]. exists st.1. done.
      * split; [done|done].
      * destruct Hend as (e & He & Hcase). exists e. split; [|done].
        rewrite <- He. by destruct tail.
Qed.

Lemma greedy_moves_nonzero connectivity moves :
  GreedyDescent.move_type connectivity = Ok moves -> forall m, m ∈ moves -> m <> (0, 0).
Proof.
  unfold GreedyDescent.move_type. intros Hmoves m Hm.
  repeat case_match; simplify_eq;
    rewrite !elem_of_cons, elem_of_nil in Hm; intuition (subst; done).
Qed.

Lemma rank_start a start :
  in_bounds a start ->
  (rank ltb a start < Z.to_nat (nrows a) * Z.to_nat (ncols a))%nat.
Proof.
  intros Hb. unfold rank. rewrite <- length_all_cells.
  apply (length_filter_lt _ _ start); [by apply elem_of_all_cells|].
  by apply below_irrefl.
Qed.


(** A greedy descent ends on the goal or on a cell none of whose in-bounds
    neighbours has a lower value, and the goal is never a point it moves on
    from. *)
Theorem greedy_descent_path_ends a start goal connectivity moves fuel :
  rect a -> in_bounds a start -> GreedyDescent.move_type connectivity = Ok moves ->
  (Z.to_nat (nrows a) * Z.to_nat (ncols a) <= fuel)%nat ->
  exists r e,
    GreedyDescent.greedy_descent_path ltb fuel a start goal connectivity = Ok r
    /\ last (points r) = Some e
    /\ (e = goal \/ lowest_neighbour a moves e e)
    /\ chain (fun p _ => p <> goal) (points r).
Proof.
  intros Hr Hb Hmoves Hfuel. pose proof (rank_start a start Hb) as Hrank.
  unfold GreedyDescent.greedy_descent_path. rewrite Hmoves. cbn [mbind outcome_bind].
  destruct (descend_total ltb ltb_irrefl ltb_trans a goal moves Hr fuel start
              [start.1] [start.2] Hb) as (tail0 & E & _); [lia|].
  destruct (descend_inv a goal moves Hr (greedy_moves_nonzero _ _ Hmoves) _ _ _ _ _ Hb E)
    as (tail & Er & _ & Hstop & e & He & Hcase).
  rewrite E, Er. exists ([start.1] ++ tail.*1, [start.2] ++ tail.*2), e.
  rewrite points_app. done.
Qed.

End GreedyPathFacts.


Lemma greedy_descent_path_ends_witness :
  exists r e,
    GreedyDescent.greedy_descent_path Z.ltb 6 [[5; 1; 4]; [3; 0; 2]] (0, 2) (0, 0) 4 = Ok r
    /\ last (points r) = Some e
    /\ (e = (0, 0)
        \/ lowest_neighbour Z.ltb [[5; 1; 4]; [3; 0; 2]]
             [(1, 0); (0, 1); (-1, 0); (0, -1)] e e)
    /\ chain (fun p _ => p <> (0, 0)) (points r).
Proof.
  apply (greedy_descent_path_ends Z.ltb Z.ltb_irrefl).
  - intros x y z. rewrite !Z.ltb_lt. lia.
  - repeat constructor.
  - unfold in_bounds, nrows, ncols; cbn; lia.
  - reflexivity.
  - unfold nrows, ncols; cbn; lia.
Defined.

(** ** Wavefront: the goal is the only minimum of the field *)

Section WavefrontFacts.
Context (g : array Z) (goal : cell) (moves : list cell) (d : array dist).
Hypothesis g_ok : grid_ok g.
Hypothesis goal_free : free_cell g goal.
Hypothesis moves_sym : symmetric moves.
Hypothesis d_core : wf_core g goal moves d.
Hypothesis d_front : wf_front g moves d (fun _ => False).

Lemma wf_zero_is_goal p :
  in_bounds g p -> peek d p = Some (Num 0) -> p = goal.
Proof.
  intros Hp Hv.
  destruct (core_num g goal moves g_ok d p 0 d_core Hp Hv) as (_ & _ & Hwalk).
  specialize (Hwalk ltac:(unfold unreached; lia)). simpl in Hwalk.
  by inversion Hwalk.
Qed.

Lemma cell_add_back p m : cell_add (cell_add p m) (- m.1, - m.2) = p.
Proof. destruct p, m. unfold cell_add. simpl. f_equal; lia. Qed.

(** A reached cell other than the goal has a neighbour exactly one hop
    closer to the goal. *)
Lemma wf_predecessor p v :
  free_cell g p -> peek d p = Some (Num v) -> 0 < v < unreached ->
  exists m, m ∈ moves /\ free_cell g (cell_add p m)
            /\ peek d (cell_add p m) = Some (Num (v - 1)).
Proof.
  intros Hp Hv Hrange.
  destruct (core_num g goal moves g_ok d p v d_core (proj1 Hp) Hv) as (_ & _ & Hwalk).
  specialize (Hwalk ltac:(lia)).
  remember (Z.to_nat v) as n eqn:Hn.
  inversion Hwalk as [|k s q m Hwalk' Hm Hfree Ek Es Ep]; [lia|]. subst s.
  destruct (front_done_walk g goal moves g_ok goal_free d k goal q d_core d_front Hwalk' eq_refl)
    as (Hq & w & Hw & Hle).
  rewrite <- Ep in Hv.
  pose proof (front_done_step g goal moves g_ok d q m w v d_core d_front Hm
                (proj1 Hq) (proj1 Hfree) Hw Hv) as Hstep.
  exists (- m.1, - m.2). rewrite cell_add_back.
  split_and!; [by apply moves_sym|done|].
  rewrite Hw. do 2 f_equal. lia.
Qed.

(** Greedy descent on the field: from a cell that reads [k < 1e9] the loop
    takes exactly [k] moves and stops on the goal. *)
Lemma descend_wavefront gmoves :
  (forall m, m ∈ gmoves <-> m ∈ moves) ->
  forall (k : nat) current rows cols fuel,
    free_cell g current -> peek d current = Some (Num (Z.of_nat k)) ->
    Z.of_nat k < unreached -> (k <= fuel)%nat ->
    exists tail : list cell,
      GreedyDescent.descend dist_ltb fuel d goal gmoves current rows cols
        = Ok (rows ++ tail.*1, cols ++ tail.*2)
      /\ length tail = k
      /\ last (current :: tail) = Some goal
      /\ Forall (free_cell g) tail.
Proof.
  intros Hsame.
  pose proof d_core as (Hr & Hrows & Hcols & _ & _ & Hgoal).
  induction k as [|k IH]; intros current rows cols fuel Hcur Hv Hlt Hfuel.
  - assert (current = goal) as -> by (by apply wf_zero_is_goal; [destruct Hcur|]).
    exists []. simpl. rewrite !app_nil_r.
    replace (GreedyDescent.descend dist_ltb fuel d goal gmoves goal rows cols)
      with (Ok (A := list Z * list Z) (rows, cols)); [done|].
    destruct fuel; simpl; by rewrite !Z.eqb_refl.
  - destruct fuel as [|fuel]; [lia|].
    assert (Hne : cell_eqb current goal = false).
    { destruct (cell_eqb current goal) eqn:E; [|done].
      apply cell_eqb_eq in E as ->. rewrite Hgoal in Hv. by simplify_eq. }
    cbn [GreedyDescent.descend].
    assert (negb (current.1 =? goal.1) || negb (current.2 =? goal.2) = true) as ->.
    { rewrite <- negb_andb. by rewrite cell_eqb_split, Hne. }
    assert (Hbd : in_bounds d current).
    { apply (core_in_bounds g goal moves d current d_core). by destruct Hcur. }
    rewrite (np_get_peek d current _ Hbd Hv). cbn [mbind outcome_bind].
    destruct (scanned_loop dist_ltb) with (a := d) (current := current)
      (vc := Num (Z.of_nat (S k))) (moves := gmoves) (ms := @nil cell)
      (st := (Num (Z.of_nat (S k)), current)) as (st & -> & Hst & Hlow).
    { intros [x|]; simpl; [apply Z.ltb_irrefl|done]. }
    { intros [x|] [y|] [z|]; simpl; try done. rewrite !Z.ltb_lt. lia. }
    { done. }
    { split; [by left|]. intros m v Hm. by apply elem_of_nil in Hm. }
    cbn [mbind outcome_bind app] in *.
    destruct (wf_predecessor current (Z.of_nat (S k)) Hcur Hv ltac:(lia))
      as (m0 & Hm0 & Hq & Hvq).
    assert (Hbq : in_bounds d (cell_add current m0)).
    { apply (core_in_bounds g goal moves d _ d_core). by destruct Hq. }
    pose proof (Hlow m0 _ (proj2 (Hsame m0) Hm0) Hbq Hvq) as Hmin.
    destruct Hst as [->|((m & Hm & Enext) & Hbn & Hvn & Hbelow)].
    { simpl in Hmin. apply Z.ltb_ge in Hmin. lia. }
    destruct st as [best next]. cbn [fst snd] in *.
    destruct best as [w|]; [|done]. simpl in Hbelow, Hmin.
    apply Z.ltb_lt in Hbelow. apply Z.ltb_ge in Hmin.
    assert (Hbng : in_bounds g next).
    { by apply (core_in_bounds g goal moves d next d_core). }
    destruct (core_num g goal moves g_ok d next w d_core Hbng Hvn) as (Hfn & Hwr & _).
    pose proof (front_done_step g goal moves g_ok d next (- m.1, - m.2) w (Z.of_nat (S k))
                  d_core d_front) as Hback.
    rewrite Enext, cell_add_back in Hback.
    specialize (Hback (moves_sym m (proj1 (Hsame m) Hm))).
    rewrite <- Enext in Hback. specialize (Hback Hbng (proj1 Hcur) Hvn Hv).
    assert (w = Z.of_nat k) as -> by lia.
    assert (cell_eqb next current = false) as ->.
    { destruct (cell_eqb next current) eqn:E; [|done].
      apply cell_eqb_eq in E as ->. rewrite Hv in Hvn. simplify_eq. lia. }
    destruct (IH next (rows ++ [next.1]) (cols ++ [next.2]) fuel Hfn Hvn)
      as (tail & E & Hlen & Hlast & Hall); [lia|lia|].
    exists (next :: tail). rewrite E, <- !app_assoc. split_and!.
    + done.
    + simpl. by rewrite Hlen.
    + rewrite <- Hlast. by destruct tail.
    + by constructor.
Qed.

End WavefrontFacts.

Lemma greedy_moves_wavefront connectivity moves :
  Wavefront.move_type connectivity = Ok moves ->
  symmetric moves
  /\ exists gmoves, GreedyDescent.move_type connectivity = Ok gmoves
       /\ forall m, m ∈ gmoves <-> m ∈ moves.
Proof.
  unfold Wavefront.move_type, GreedyDescent.move_type. intros Hmoves.
  repeat case_match; simplify_eq; (split; [apply connectivity_moves_symmetric|]);
    eexists; (split; [reflexivity|]); intros m;
    rewrite !elem_of_cons, !elem_of_nil; tauto.
Qed.

(** The goal reads 0 and is the only cell of the field that does. *)
Theorem wavefront_goal_zero g goal connectivity :
  grid_ok g -> free_cell g goal -> connectivity = 4 \/ connectivity = 8 ->
  exists fuel0, forall fuel, (fuel0 <= fuel)%nat ->
    exists d vis,
      Wavefront.compute_wavefront fuel g goal connectivity = Ok (d, vis)
      /\ forall p, in_bounds g p -> (peek d p = Some (Num 0) <-> p = goal).
Proof.
  intros Hg Hgoal Hc. destruct (wavefront_moves connectivity Hc) as (moves & Hmoves & _).
  destruct (compute_wavefront_spec g goal connectivity moves Hg Hgoal Hmoves) as [fuel0 Hrun].
  exists fuel0. intros fuel Hfuel.
  destruct (Hrun fuel Hfuel) as (d & vis & E & Hcore & Hfront).
  exists d, vis. split; [done|]. intros p Hp. split.
  - by apply (wf_zero_is_goal g goal moves d).
  - intros ->. by destruct Hcore as (_ & _ & _ & _ & _ & ?).
Qed.

Lemma wavefront_goal_zero_witness :
  exists fuel0, forall fuel, (fuel0 <= fuel)%nat ->
    exists d vis,
      Wavefront.compute_wavefront fuel [[0; 0]; [1; 0]] (0, 0) 4 = Ok (d, vis)
      /\ forall p, in_bounds [[0; 0]; [1; 0]] p -> (peek d p = Some (Num 0) <-> p = (0, 0)).
Proof.
  apply (wavefront_goal_zero [[0; 0]; [1; 0]] (0, 0) 4).
  - grid_ok_tac.
  - cell_tac.
  - left; reflexivity.
Defined.

(** No reached cell but the goal is a local minimum of the field: it has a
    neighbour under the connectivity, free, that reads exactly one less. *)
Theorem wavefront_no_local_minimum g goal connectivity :
  grid_ok g -> free_cell g goal -> connectivity = 4 \/ connectivity = 8 ->
  exists moves fuel0,
    Wavefront.move_type connectivity = Ok moves
    /\ forall fuel, (fuel0 <= fuel)%nat ->
       exists d vis,
         Wavefront.compute_wavefront fuel g goal connectivity = Ok (d, vis)
         /\ forall p v, free_cell g p -> peek d p = Some (Num v) -> 0 < v < unreached ->
              exists m, m ∈ moves /\ free_cell g (cell_add p m)
                        /\ peek d (cell_add p m) = Some (Num (v - 1)).
Proof.
  intros Hg Hgoal Hc. destruct (wavefront_moves connectivity Hc) as (moves & Hmoves & Hsym).
  destruct (compute_wavefront_spec g goal connectivity moves Hg Hgoal Hmoves) as [fuel0 Hrun].
  exists moves, fuel0. split; [done|]. intros fuel Hfuel.
  destruct (Hrun fuel Hfuel) as (d & vis & E & Hcore & Hfront).
  exists d, vis. split; [done|]. intros p v.
  by apply (wf_predecessor g goal moves d).
Qed.

Lemma wavefront_no_local_minimum_witness :
  exists moves fuel0,
    Wavefront.move_type 8 = Ok moves
    /\ forall fuel, (fuel0 <= fuel)%nat ->
       exists d vis,
         Wavefront.compute_wavefront fuel [[0; 0]; [1; 0]] (0, 0) 8 = Ok (d, vis)
         /\ forall p v, free_cell [[0; 0]; [1; 0]] p -> peek d p = Some (Num v) ->
              0 < v < unreached ->
              exists m, m ∈ moves /\ free_cell [[0; 0]; [1; 0]] (cell_add p m)
                        /\ peek d (cell_add p m) = Some (Num (v - 1)).
Proof.
  apply (wavefront_no_local_minimum [[0; 0]; [1; 0]] (0, 0) 8).
  - grid_ok_tac.
  - cell_tac.
  - right; reflexivity.
Defined.

(** ** Wavefront and greedy descent together *)

Lemma walk_two ok moves q m1 m2 :
  m1 ∈ moves -> m2 ∈ moves -> ok (cell_add q m1) -> ok (cell_add (cell_add q m1) m2) ->
  walk ok moves 2 q (cell_add (cell_add q m1) m2).
Proof.
  intros H1 H2 Hok1 Hok2. apply walk_snoc; [|done..].
  apply walk_snoc; [apply walk_nil|done..].
Qed.

(** From every start that [n < 1e9] hops through free cells connect to the
    goal, greedy descent on the computed wavefront field, run with the same
    connectivity, ends on the goal after at most [n] moves, and never leaves
    the free cells. *)
Theorem greedy_descent_reaches_goal g goal start connectivity moves n :
  grid_ok g -> free_cell g goal -> Wavefront.move_type connectivity = Ok moves ->
  walk (free_cell g) moves n goal start -> Z.of_nat n < unreached ->
  exists fuel0, forall fuel_w fuel_g, (fuel0 <= fuel_w)%nat -> (n <= fuel_g)%nat ->
    exists d vis r,
      Wavefront.compute_wavefront fuel_w g goal connectivity = Ok (d, vis)
      /\ GreedyDescent.greedy_descent_path dist_ltb fuel_g d start goal connectivity = Ok r
      /\ head (points r) = Some start
      /\ last (points r) = Some goal
      /\ (length (points r) <= n + 1)%nat
      /\ Forall (free_cell g) (points r).
Proof.
  intros Hg Hgoal Hmoves Hwalk Hn.
  destruct (greedy_moves_wavefront _ _ Hmoves) as (Hsym & gmoves & Hgmoves & Hsame).
  destruct (compute_wavefront_spec g goal connectivity moves Hg Hgoal Hmoves) as [fuel0 Hrun].
  exists fuel0. intros fuel_w fuel_g Hfw Hfg.
  destruct (Hrun fuel_w Hfw) as (d & vis & E & Hcore & Hfront).
  destruct (front_done_walk g goal moves Hg Hgoal d n goal start Hcore Hfront Hwalk eq_refl)
    as (Hstart & v & Hv & Hle).
  destruct (core_num g goal moves Hg d start v Hcore (proj1 Hstart) Hv) as (_ & Hv0 & _).
  replace v with (Z.of_nat (Z.to_nat v)) in Hv by lia.
  destruct (descend_wavefront g goal moves d Hg Hgoal Hsym Hcore Hfront gmoves Hsame
              (Z.to_nat v) start [start.1] [start.2] fuel_g Hstart Hv)
    as (tail & Edesc & Hlen & Hlast & Hall); [lia|lia|].
  exists d, vis, ([start.1] ++ tail.*1, [start.2] ++ tail.*2).
  unfold GreedyDescent.greedy_descent_path. rewrite Hgmoves. cbn [mbind outcome_bind].
  rewrite points_app. split_and!; [done|done|done|done|simpl; lia|by constructor].
Qed.

Lemma greedy_descent_reaches_goal_witness :
  exists fuel0, forall fuel_w fuel_g, (fuel0 <= fuel_w)%nat -> (2 <= fuel_g)%nat ->
    exists d vis r,
      Wavefront.compute_wavefront fuel_w [[0; 0; 0]; [0; 1; 0]] (0, 0) 4 = Ok (d, vis)
      /\ GreedyDescent.greedy_descent_path dist_ltb fuel_g d (0, 2) (0, 0) 4 = Ok r
      /\ head (points r) = Some (0, 2)
      /\ last (points r) = Some (0, 0)
      /\ (length (points r) <= 2 + 1)%nat
      /\ Forall (free_cell [[0; 0; 0]; [0; 1; 0]]) (points r).
Proof.
  apply (greedy_descent_reaches_goal [[0; 0; 0]; [0; 1; 0]] (0, 0) (0, 2) 4
           [(1, 0); (0, 1); (-1, 0); (0, -1)] 2).
  - grid_ok_tac.
  - cell_tac.
  - reflexivity.
  - change (0, 2) with (cell_add (cell_add (0, 0) (0, 1)) (0, 1)).
    apply walk_two; [by right; left|by right; left|cell_tac|cell_tac].
  - reflexivity.
Defined.

(** ** Wavefront: the display map, the validity test, a goal out of range *)




(** [is_valid_cell] never raises on an array: it answers [True] exactly for
    the points inside the array that do not read [inf]; a negative index is
    outside, it does not wrap around. *)
Theorem is_valid_cell_decides (r : array dist) (point : cell) :
  rect r ->
  exists b, Wavefront.is_valid_cell r point = Ok b
    /\ (b = true <-> in_bounds r point /\ peek r point <> Some Inf).
Proof.
  intros Hr. destruct (is_valid_cell_spec r point Hr) as (b & E & Ht & Hf).
  exists b. split; [done|]. split.
  - intros Hb. destruct (Ht Hb) as (Hin & v & Hv). split; [done|]. by rewrite Hv.
  - intros [Hin Hv]. destruct b; [done|]. destruct (Hf eq_refl); done.
Qed.

Lemma is_valid_cell_decides_witness :
  exists b, Wavefront.is_valid_cell [[Num 0; Inf]] (0, -1) = Ok b
    /\ (b = true <-> in_bounds [[Num 0; Inf]] (0, -1)
                     /\ peek [[Num 0; Inf]] (0, -1) <> Some Inf).
Proof. apply (is_valid_cell_decides [[Num 0; Inf]] (0, -1)). repeat constructor. Defined.

Lemma np_set_out_of_range {V} (a : array V) r c v :
  r < - nrows a \/ nrows a <= r \/ c < - ncols a \/ ncols a <= c ->
  np_set a r c v = Raise IndexError.
Proof.
  intros Hout. unfold np_set, norm_index.
  repeat case_match; try done; lia.
Qed.

(** A goal outside the index range of the grid makes [compute_wavefront] raise
    [IndexError], whatever the connectivity: the goal cell is written before
    the connectivity is looked at. *)
Theorem compute_wavefront_goal_out_of_range g goal connectivity fuel :
  rect g ->
  goal.1 < - nrows g \/ nrows g <= goal.1 \/ goal.2 < - ncols g \/ ncols g <= goal.2 ->
  Wavefront.compute_wavefront fuel g goal connectivity = Raise IndexError.
Proof.
  intros Hr Hout. unfold Wavefront.compute_wavefront.
  destruct (mark_loop g Hr) as (r1 & -> & _ & Hn & Hm & _). cbn [mbind outcome_bind].
  rewrite np_set_out_of_range; [done|]. by rewrite Hn, Hm.
Qed.

Lemma compute_wavefront_goal_out_of_range_witness :
  Wavefront.compute_wavefront 0 [[0; 0]] (1, 0) 5 = Raise IndexError.
Proof.
  apply (compute_wavefront_goal_out_of_range [[0; 0]] (1, 0) 5 0).
  - repeat constructor.
  - right; left. unfold nrows; cbn; lia.
Defined.

(** ** Brushfire: more on the distance field *)

Lemma filter_none {A} (P : A -> Prop) `{forall x, Decision (P x)} (l : list A) :
  (forall x, x ∈ l -> ~ P x) -> filter P l = [].
Proof.
  induction l as [|x l IH]; intros Hall; [done|].
  rewrite filter_cons, decide_False by (apply Hall; by left).
  apply IH. intros y Hy. apply Hall. by right.
Qed.

(** On a grid without an occupied cell the queue starts empty: the loop does
    nothing, whatever the fuel, and every cell of the result reads [-1]. *)
Theorem distance_transform_no_obstacle g connectivity fuel :
  grid_ok g -> (forall p, ~ occupied g p) -> connectivity = 4 \/ connectivity = 8 ->
  exists d,
    Brushfire.compute_obstacle_distance fuel g connectivity = Ok d
    /\ nrows d = nrows g /\ ncols d = ncols g
    /\ forall p, in_bounds g p -> peek d p = Some (-1).
Proof.
  intros Hg Hnone Hc.
  destruct (brushfire_moves connectivity Hc) as (moves & Hmoves & _).
  unfold Brushfire.compute_obstacle_distance.
  rewrite (seed_loop g Hg) by (apply Forall_forall; intros p; by rewrite elem_of_all_cells).
  rewrite filter_none.
  2:{ intros p Hp%elem_of_all_cells Hv. by apply (Hnone p). }
  cbn [mbind outcome_bind app]. rewrite Hmoves. cbn [mbind outcome_bind].
  assert (Brushfire.propagate fuel moves g [] = Ok g) as -> by by destruct fuel.
  cbn [mbind outcome_bind]. eexists. split; [done|].
  rewrite nrows_np_map, ncols_np_map. split_and!; [done..|].
  intros p Hp. rewrite peek_np_map.
  destruct (grid_ok_cell g p Hg Hp) as [-> | Hv]; [done|].
  by destruct (Hnone p).
Qed.

Lemma distance_transform_no_obstacle_witness :
  exists d,
    Brushfire.compute_obstacle_distance 0 [[0; 0]] 4 = Ok d
    /\ nrows d = nrows [[0; 0]] /\ ncols d = ncols [[0; 0]]
    /\ forall p, in_bounds [[0; 0]] p -> peek d p = Some (-1).
Proof.
  apply (distance_transform_no_obstacle [[0; 0]] 4 0).
  - grid_ok_tac.
  - apply no_occupied_all_free.
  - left; reflexivity.
Defined.

(** With an obstacle on the grid, the cells that read 0 are exactly the
    occupied ones: every free cell reads at least 1. *)
Theorem distance_transform_zero_set g connectivity :
  grid_ok g -> (exists o, occupied g o) -> connectivity = 4 \/ connectivity = 8 ->
  exists fuel0, forall fuel, (fuel0 <= fuel)%nat ->
    exists d,
      Brushfire.compute_obstacle_distance fuel g connectivity = Ok d
      /\ forall p, in_bounds g p -> (peek d p = Some 0 <-> occupied g p).
Proof.
  intros Hg Ho Hc.
  destruct (compute_obstacle_distance_hops g connectivity Hg Ho Hc)
    as (moves & fuel0 & Hmoves & Hrun).
  exists fuel0. intros fuel Hfuel.
  destruct (Hrun fuel Hfuel) as (d & E & _ & _ & Hcells).
  exists d. split; [done|]. intros p Hp.
  destruct (Hcells p Hp) as (n & Hv & (o & Hocc & Hwalk) & _ & H0). split.
  - rewrite Hv. intros [= Hn]. assert (n = 0%nat) as -> by lia.
    by inversion Hwalk; subst.
  - intros Hop. by rewrite Hv, (H0 Hop).
Qed.

Lemma distance_transform_zero_set_witness :
  exists fuel0, forall fuel, (fuel0 <= fuel)%nat ->
    exists d,
      Brushfire.compute_obstacle_distance fuel [[1; 0]; [0; 0]] 8 = Ok d
      /\ forall p, in_bounds [[1; 0]; [0; 0]] p ->
           (peek d p = Some 0 <-> occupied [[1; 0]; [0; 0]] p).
Proof.
  apply (distance_transform_zero_set [[1; 0]; [0; 0]] 8).
  - grid_ok_tac.
  - exists (0, 0). cell_tac.
  - right; reflexivity.
Defined.

Lemma brushfire_moves_symmetric connectivity moves :
  Brushfire.move_type connectivity = Ok moves -> symmetric moves.
Proof.
  unfold Brushfire.move_type. intros Hmoves.
  repeat case_match; simplify_eq; apply connectivity_moves_symmetric.
Qed.

(** With an obstacle on the grid, the distances of two cells adjacent under
    the connectivity differ by at most 1. *)
Theorem distance_transform_adjacent_within_one g connectivity :
  grid_ok g -> (exists o, occupied g o) -> connectivity = 4 \/ connectivity = 8 ->
  exists moves fuel0,
    Brushfire.move_type connectivity = Ok moves
    /\ forall fuel, (fuel0 <= fuel)%nat ->
       exists d,
         Brushfire.compute_obstacle_distance fuel g connectivity = Ok d
         /\ forall p m, m ∈ moves -> in_bounds g p -> in_bounds g (cell_add p m) ->
              exists a b, peek d p = Some a /\ peek d (cell_add p m) = Some b
                          /\ Z.abs (a - b) <= 1.
Proof.
  intros Hg Ho Hc.
  destruct (compute_obstacle_distance_hops g connectivity Hg Ho Hc)
    as (moves & fuel0 & Hmoves & Hrun).
  pose proof (brushfire_moves_symmetric _ _ Hmoves) as Hsym.
  exists moves, fuel0. split; [done|]. intros fuel Hfuel.
  destruct (Hrun fuel Hfuel) as (d & E & _ & _ & Hcells).
  exists d. split; [done|]. intros p m Hm Hp Hq.
  destruct (Hcells p Hp) as (n & Hv & (o & Hocc & Hwalk) & Hmin & _).
  destruct (Hcells _ Hq) as (n' & Hv' & (o' & Hocc' & Hwalk') & Hmin' & _).
  exists (Z.of_nat n), (Z.of_nat n'). split_and!; [done..|].
  assert (n' <= S n)%nat.
  { apply Hmin'. exists o. split; [done|]. by apply walk_snoc. }
  assert (n <= S n')%nat.
  { apply Hmin. exists o'. split; [done|].
    pose proof (walk_snoc (in_bounds g) moves n' o' (cell_add p m) (- m.1, - m.2)
                  Hwalk' (Hsym m Hm)) as Hback.
    rewrite cell_add_back in Hback. by apply Hback. }
  lia.
Qed.

Lemma distance_transform_adjacent_within_one_witness :
  exists moves fuel0,
    Brushfire.move_type 4 = Ok moves
    /\ forall fuel, (fuel0 <= fuel)%nat ->
       exists d,
         Brushfire.compute_obstacle_distance fuel [[1; 0]; [0; 0]] 4 = Ok d
         /\ forall p m, m ∈ moves -> in_bounds [[1; 0]; [0; 0]] p ->
              in_bounds [[1; 0]; [0; 0]] (cell_add p m) ->
              exists a b, peek d p = Some a /\ peek d (cell_add p m) = Some b
                          /\ Z.abs (a - b) <= 1.
Proof.
  apply (distance_transform_adjacent_within_one [[1; 0]; [0; 0]] 4).
  - grid_ok_tac.
  - exists (0, 0). cell_tac.
  - left; reflexivity.
Defined.

Lemma walk_moves_mono ok moves moves' n p q :
  (forall m, m ∈ moves -> m ∈ moves') ->
  walk ok moves n p q -> walk ok moves' n p q.
Proof.
  intros Hsub. induction 1 as [|n p q m Hwalk IH Hm Hok]; [apply walk_nil|].
  apply walk_snoc; auto.
Qed.

(** A diagonal move inside the grid is two axis moves inside the grid. *)
Lemma walk_axis_moves {V} (g : array V) n p q :
  walk (in_bounds g)
    [(-1, 0); (-1, -1); (0, -1); (1, -1); (1, 0); (1, 1); (0, 1); (-1, 1)] n p q ->
  in_bounds g p ->
  exists n', (n' <= 2 * n)%nat
    /\ walk (in_bounds g) [(-1, 0); (0, -1); (1, 0); (0, 1)] n' p q.
Proof.
  set (moves4 := [(-1, 0); (0, -1); (1, 0); (0, 1)]).
  intros Hwalk Hp. induction Hwalk as [|n p q m Hwalk IH Hm Hok].
  { exists 0%nat. split; [lia|apply walk_nil]. }
  destruct (IH Hp) as (n' & Hle & Hwalk4).
  assert (Hq : in_bounds g q).
  { clear -Hwalk Hp. by destruct Hwalk. }
  assert (exists k, (k <= 2)%nat /\ walk (in_bounds g) moves4 k q (cell_add q m))
    as (k & Hk & Hstep).
  { assert (Haxis : forall m1, m1 ∈ moves4 -> in_bounds g (cell_add q m1) ->
                      exists k, (k <= 2)%nat
                        /\ walk (in_bounds g) moves4 k q (cell_add q m1)).
    { intros m1 Hm1 Hb. exists 1%nat. split; [lia|].
      apply walk_snoc; [apply walk_nil|done..]. }
    assert (Hdiag : forall dr dc, (dr, 0) ∈ moves4 -> (0, dc) ∈ moves4 ->
                      in_bounds g (cell_add q (dr, dc)) ->
                      exists k, (k <= 2)%nat
                        /\ walk (in_bounds g) moves4 k q (cell_add q (dr, dc))).
    { intros dr dc Hdr Hdc Hb. exists 2%nat. split; [lia|].
      replace (cell_add q (dr, dc)) with (cell_add (cell_add q (dr, 0)) (0, dc)).
      2:{ destruct q. unfold cell_add. simpl. f_equal; lia. }
      apply walk_two; [done|done| |].
      - destruct Hq as [? ?], Hb as [? ?]. unfold in_bounds, cell_add in *.
        simpl in *. lia.
      - destruct Hq as [? ?], Hb as [? ?]. unfold in_bounds, cell_add in *.
        simpl in *. lia. }
    rewrite !elem_of_cons, elem_of_nil in Hm.
    destruct Hm as [->|[->|[->|[->|[->|[->|[->|[->|[]]]]]]]]];
      first [apply Haxis; [unfold moves4; rewrite !elem_of_cons; tauto|done]
            |apply Hdiag; [unfold moves4; rewrite !elem_of_cons; tauto..|done]]. }
  exists (n' + k)%nat. split; [lia|]. by eapply walk_app.
Qed.

(** The distance under connectivity 8 never exceeds the distance under
    connectivity 4, and the latter is at most twice the former. *)
Theorem distance_transform_connectivities g :
  grid_ok g -> (exists o, occupied g o) ->
  exists fuel0, forall fuel, (fuel0 <= fuel)%nat ->
    exists d4 d8,
      Brushfire.compute_obstacle_distance fuel g 4 = Ok d4
      /\ Brushfire.compute_obstacle_distance fuel g 8 = Ok d8
      /\ forall p, in_bounds g p ->
           exists a b, peek d4 p = Some a /\ peek d8 p = Some b
                       /\ b <= a <= 2 * b.
Proof.
  intros Hg Ho.
  destruct (compute_obstacle_distance_hops g 4 Hg Ho (or_introl eq_refl))
    as (moves4 & fuel4 & Hmoves4 & Hrun4).
  destruct (compute_obstacle_distance_hops g 8 Hg Ho (or_intror eq_refl))
    as (moves8 & fuel8 & Hmoves8 & Hrun8).
  injection Hmoves4 as <-. injection Hmoves8 as <-.
  exists (fuel4 `max` fuel8)%nat. intros fuel Hfuel.
  destruct (Hrun4 fuel ltac:(lia)) as (d4 & E4 & _ & _ & Hcells4).
  destruct (Hrun8 fuel ltac:(lia)) as (d8 & E8 & _ & _ & Hcells8).
  exists d4, d8. split_and!; [done..|]. intros p Hp.
  destruct (Hcells4 p Hp) as (a & Ha & (o4 & Ho4 & Hwalk4) & Hmin4 & _).
  destruct (Hcells8 p Hp) as (b & Hb & (o8 & Ho8 & Hwalk8) & Hmin8 & _).
  exists (Z.of_nat a), (Z.of_nat b). split_and!; [done..| |].
  - assert (b <= a)%nat; [|lia]. apply Hmin8. exists o4. split; [done|].
    eapply walk_moves_mono; [|exact Hwalk4].
    intros m. rewrite !elem_of_cons, !elem_of_nil. tauto.
  - destruct (walk_axis_moves g b o8 p Hwalk8 (proj1 Ho8)) as (n' & Hle & Hwalk').
    assert (a <= n')%nat; [|lia]. apply Hmin4. by exists o8.
Qed.

Lemma distance_transform_connectivities_witness :
  exists fuel0, forall fuel, (fuel0 <= fuel)%nat ->
    exists d4 d8,
      Brushfire.compute_obstacle_distance fuel [[1; 0]; [0; 0]] 4 = Ok d4
      /\ Brushfire.compute_obstacle_distance fuel [[1; 0]; [0; 0]] 8 = Ok d8
      /\ forall p, in_bounds [[1; 0]; [0; 0]] p ->
           exists a b, peek d4 p = Some a /\ peek d8 p = Some b /\ b <= a <= 2 * b.
Proof.
  apply (distance_transform_connectivities [[1; 0]; [0; 0]]).
  - grid_ok_tac.
  - exists (0, 0). cell_tac.
Defined.

(** * The attractive field ([attractive_field.py]) on array values

    [compute_attractive_field] keeps only the shape of [grid_map]: the copy
    is zeroed before anything else is done.  In the modes ['4_point'] and
    ['8_point'] it runs the loop of the brushfire from the goal alone, which
    leaves a hop count in every cell, and then turns each hop count [d] into
    the potential [0.5 * scaling_factor * d ** 2].  The hop counts are whole
    numbers and are kept in [Z]; the potential is the float expression
    [Heap.quadratic] of the store model. *)

Module AttractiveField.
Section Attractive.
Context {F : Type} {float_ops : FloatOps F}.

(** [move_type] as the mode sets it; any other mode leaves it empty. *)
Definition move_type (mode : string) : list cell :=
  if String.eqb mode "4_point" then
    [(-1, 0); (0, -1); (1, 0); (0, 1)]
  else if String.eqb mode "8_point" then
    [(-1, 0); (-1, -1); (0, -1); (1, -1); (1, 0); (1, 1); (0, 1); (-1, 1)]
  else [].

(** Body of the loop of the closed-form modes. *)
Definition closed_form (dist_fn : cell -> cell -> F) (goal : cell) (scaling_factor : F)
    (result : array F) (p : cell) : outcome (array F) :=
  np_set result p.1 p.2 (Heap.quadratic scaling_factor (dist_fn p goal)).

(** The array [result] after [result[:] = result[:] - 1]: the zeroed copy
    with 1 at the goal, the brushfire loop from the queue [[goal]], minus 1. *)
Definition hop_counts {V} (fuel : nat) (grid_map : array V) (goal : cell)
    (mode : string) : outcome (array Z) :=
  let result := np_map (fun _ => 0) grid_map in
  result ← np_set result goal.1 goal.2 1;
  let queue := [(goal.1, goal.2)] in
  result ← Brushfire.propagate fuel (move_type mode) result queue;
  Ok (np_map (fun v => v - 1) result).

(** The last loop rewrites every cell from its own value; it is written as
    the elementwise map from hop counts to potentials. *)
Definition compute_attractive_field {V} (fuel : nat) (grid_map : array V) (goal : cell)
    (scaling_factor : F) (mode : string) : outcome (array F) :=
  if String.eqb mode "euclidean" || String.eqb mode "manhattan" then
    let dist_fn :=
      if String.eqb mode "euclidean" then Heap.euclidean_distance
      else Heap.manhattan_distance in
    let result := np_map (fun _ => f_lit 0) grid_map in
    for_each (all_cells result) (closed_form dist_fn goal scaling_factor) result
  else
    result ← hop_counts fuel grid_map goal mode;
    Ok (np_map (fun d => Heap.quadratic scaling_factor (f_lit d)) result).

End Attractive.
End AttractiveField.

(** ** Arrays of one shape *)

Lemma array_ext {V} (a b : array V) :
  rect a -> rect b -> nrows a = nrows b -> ncols a = ncols b ->
  (forall p, in_bounds a p -> peek a p = peek b p) -> a = b.
Proof.
  intros Hra Hrb Hn Hm Hpeek. apply list_eq. intros i.
  destruct (a !! i) as [ra|] eqn:Ha.
  - pose proof (lookup_lt_Some _ _ _ Ha) as Hi.
    destruct (lookup_lt_is_Some_2 b i) as [rb Hb]; [unfold nrows in Hn; lia|].
    rewrite Hb. f_equal.
    pose proof (rect_row _ _ _ Hra Ha) as Hla. pose proof (rect_row _ _ _ Hrb Hb) as Hlb.
    apply list_eq. intros j.
    destruct (decide (j < length ra)%nat) as [Hj|Hj].
    + specialize (Hpeek (Z.of_nat i, Z.of_nat j)). unfold peek in Hpeek. cbn [fst snd] in Hpeek.
      rewrite !Nat2Z.id, Ha, Hb in Hpeek. simpl in Hpeek. apply Hpeek.
      unfold in_bounds, nrows. simpl. lia.
    + rewrite !lookup_ge_None_2; [done|lia..].
  - symmetry. apply lookup_ge_None_2. apply lookup_ge_None_1 in Ha.
    unfold nrows in Hn. lia.
Qed.

Lemma peek_const {V W} (c : W) (g : array V) p :
  rect g -> in_bounds g p -> peek (np_map (fun _ => c) g) p = Some c.
Proof.
  intros Hr Hp. rewrite peek_np_map. by destruct (peek_inb g p Hr Hp) as [v ->].
Qed.

Lemma np_map_const_shape {V V' W} (c : W) (g : array V) (g' : array V') :
  rect g -> rect g' -> nrows g = nrows g' -> ncols g = ncols g' ->
  np_map (fun _ => c) g = np_map (fun _ => c) g'.
Proof.
  intros Hr Hr' Hn Hm. apply array_ext.
  - by apply rect_np_map.
  - by apply rect_np_map.
  - by rewrite !nrows_np_map.
  - by rewrite !ncols_np_map.
  - intros p Hp. unfold in_bounds in Hp. rewrite nrows_np_map, ncols_np_map in Hp.
    rewrite (peek_const c g p Hr Hp), (peek_const c g' p Hr'); [done|].
    unfold in_bounds. by rewrite <- Hn, <- Hm.
Qed.

(** A loop over distinct in-bounds cells whose body writes into the cell it
    visits a value computed from the index. *)
Lemma for_each_indexed {V} (f : cell -> V) (body : array V -> cell -> outcome (array V))
    (cells : list cell) (a : array V) :
  (forall r p, in_bounds r p -> body r p = Ok (poke r p (f p))) ->
  rect a -> NoDup cells -> Forall (in_bounds a) cells ->
  exists a',
    for_each cells body a = Ok a'
    /\ rect a' /\ nrows a' = nrows a /\ ncols a' = ncols a
    /\ forall p, in_bounds a p ->
         peek a' p = if decide (p ∈ cells) then Some (f p) else peek a p.
Proof.
  intros Hbody. revert a.
  induction cells as [|c cells IH]; intros a Hr Hnd Hall; cbn [for_each].
  - exists a. split_and!; [done..|]. intros p _. case_decide as Hp; [|done].
    by apply elem_of_nil in Hp.
  - apply NoDup_cons in Hnd as [Hc Hnd]. apply Forall_cons in Hall as [Hbc Hall].
    rewrite (Hbody a c Hbc). simpl.
    destruct (IH (poke a c (f c))) as (a' & E & Hr' & Hn & Hm & Hpeek).
    { by apply rect_poke. }
    { done. }
    { eapply Forall_impl; [exact Hall|]. intros q. by rewrite in_bounds_poke. }
    exists a'. rewrite E, Hn, Hm, nrows_poke, ncols_poke. split_and!; [done..|].
    intros p Hp. rewrite Hpeek by by apply in_bounds_poke.
    destruct (decide (p = c)) as [->|Hne].
    + repeat case_decide; try done.
      * by rewrite peek_poke_eq.
      * exfalso. auto using list_elem_of_here.
    + destruct Hp as [? ?], Hbc as [? ?].
      rewrite peek_poke_ne by (try lia; congruence).
      repeat case_decide; try done.
      * exfalso. auto using list_elem_of_further.
      * match goal with H : _ ∈ _ :: _ |- _ => apply elem_of_cons in H as [?|?]; done end.
Qed.

Lemma filter_singleton {A} (P : A -> Prop) `{forall x, Decision (P x)} (l : list A) (a : A) :
  NoDup l -> a ∈ l -> (forall x, x ∈ l -> P x <-> x = a) -> filter P l = [a].
Proof.
  induction l as [|x l IH]; intros Hnd Ha HP; [by apply elem_of_nil in Ha|].
  apply NoDup_cons in Hnd as [Hx Hnd]. rewrite filter_cons.
  destruct (decide (P x)) as [HPx|HPx].
  - assert (x = a) as -> by (apply HP; [by left|done]). f_equal.
    apply filter_none. intros y Hy HPy. apply HP in HPy; [|by right]. by subst.
  - apply elem_of_cons in Ha as [->|Ha]; [destruct HPx; apply HP; [by left|done]|].
    apply IH; [done..|]. intros y Hy. apply HP. by right.
Qed.

Lemma walk_ok_mono (ok ok' : cell -> Prop) moves n p q :
  (forall c, ok c -> ok' c) -> walk ok moves n p q -> walk ok' moves n p q.
Proof.
  intros Hsub. induction 1 as [|n p q m Hwalk IH Hm Hok]; [apply walk_nil|].
  apply walk_snoc; auto.
Qed.

(** ** The attractive field: hop counts *)

Section AttractiveFacts.
Context {F : Type} {float_ops : FloatOps F} {V : Type}.
Implicit Types (g : array V) (goal p : cell) (mode : string).

(** The array the loop starts from: zeros, and 1 at the goal. *)
Definition goal_grid g goal : array Z := poke (np_map (fun _ => 0) g) goal 1.

Lemma goal_grid_ok g goal : rect g -> grid_ok (goal_grid g goal).
Proof.
  intros Hr. split; [by apply rect_poke, rect_np_map|].
  unfold goal_grid, poke, np_map.
  destruct (_ !! Z.to_nat goal.1) as [row|] eqn:Hrow.
  - apply Forall_insert.
    + apply Forall_fmap, Forall_forall. intros r _. apply Forall_fmap, Forall_forall.
      intros v _. by left.
    + apply Forall_insert; [|by right].
      apply list_lookup_fmap_Some in Hrow as (r & -> & _).
      apply Forall_fmap, Forall_forall. intros v _. by left.
  - apply Forall_fmap, Forall_forall. intros r _. apply Forall_fmap, Forall_forall.
    intros v _. by left.
Qed.

Lemma goal_grid_in_bounds g goal p : in_bounds (goal_grid g goal) p <-> in_bounds g p.
Proof.
  unfold goal_grid. rewrite in_bounds_poke. unfold in_bounds.
  by rewrite nrows_np_map, ncols_np_map.
Qed.

Lemma goal_grid_occupied g goal p :
  rect g -> in_bounds g goal -> occupied (goal_grid g goal) p <-> p = goal.
Proof.
  intros Hr Hgoal. unfold occupied. rewrite goal_grid_in_bounds. split.
  - intros [Hp Hv]. destruct (decide (p = goal)) as [|Hne]; [done|]. exfalso.
    unfold goal_grid in Hv. destruct Hp as [? ?], Hgoal as [? ?].
    rewrite peek_poke_ne in Hv by (try lia; congruence).
    rewrite peek_const in Hv; [done|done|by split].
  - intros ->. split; [done|]. apply peek_poke_eq; [by apply rect_np_map|].
    unfold in_bounds. by rewrite nrows_np_map, ncols_np_map.
Qed.

Lemma goal_grid_set g goal :
  in_bounds g goal ->
  np_set (np_map (fun _ => 0) g) goal.1 goal.2 1 = Ok (goal_grid g goal).
Proof.
  intros Hgoal. apply np_set_inb. unfold in_bounds. by rewrite nrows_np_map, ncols_np_map.
Qed.

(** In the grid modes the hop counts are the brushfire distances of the grid
    whose only obstacle is the goal. *)
Lemma hop_counts_brushfire fuel g goal mode connectivity moves :
  rect g -> in_bounds g goal ->
  Brushfire.move_type connectivity = Ok moves -> AttractiveField.move_type mode = moves ->
  AttractiveField.hop_counts fuel g goal mode
  = Brushfire.compute_obstacle_distance fuel (goal_grid g goal) connectivity.
Proof.
  intros Hr Hgoal Hmoves Hmode.
  unfold AttractiveField.hop_counts, Brushfire.compute_obstacle_distance.
  rewrite (goal_grid_set g goal Hgoal). cbn [mbind outcome_bind].
  rewrite (seed_loop _ (goal_grid_ok g goal Hr))
    by (apply Forall_forall; intros p; by rewrite elem_of_all_cells).
  rewrite (filter_singleton _ _ goal).
  - cbn [mbind outcome_bind app]. rewrite Hmoves, Hmode. cbn [mbind outcome_bind].
    by rewrite <- surjective_pairing.
  - apply NoDup_all_cells.
  - apply elem_of_all_cells. by apply goal_grid_in_bounds.
  - intros p Hp%elem_of_all_cells. rewrite <- (goal_grid_occupied g goal p Hr Hgoal).
    unfold occupied. tauto.
Qed.

(** If [metric] counts the moves of a shortest walk, the hop counts are the
    metric. *)
Lemma hop_counts_metric g goal mode connectivity moves (metric : cell -> Z) :
  rect g -> in_bounds g goal -> connectivity = 4 \/ connectivity = 8 ->
  Brushfire.move_type connectivity = Ok moves -> AttractiveField.move_type mode = moves ->
  (forall n p, walk (in_bounds g) moves n goal p -> metric p <= Z.of_nat n) ->
  (forall p, in_bounds g p ->
     0 <= metric p /\ walk (in_bounds g) moves (Z.to_nat (metric p)) goal p) ->
  exists fuel0, forall fuel, (fuel0 <= fuel)%nat ->
    exists d,
      AttractiveField.hop_counts fuel g goal mode = Ok d
      /\ rect d /\ nrows d = nrows g /\ ncols d = ncols g
      /\ forall p, in_bounds g p -> peek d p = Some (metric p).
Proof.
  intros Hr Hgoal Hc Hmoves Hmode Hlow Hup.
  pose proof (goal_grid_ok g goal Hr) as Hok.
  destruct (compute_obstacle_distance_spec (goal_grid g goal) connectivity moves Hok Hmoves)
    as [fuel0 Hrun].
  exists fuel0. intros fuel Hfuel.
  destruct (Hrun fuel Hfuel) as (r & E & Hcore & Hfront).
  rewrite (hop_counts_brushfire fuel g goal mode connectivity moves) by done.
  rewrite E. eexists. split; [done|].
  pose proof Hcore as (Hrr & Hn & Hm & Hocc & Hval).
  assert (Hwalks : forall n p, walk (in_bounds (goal_grid g goal)) moves n goal p
                               <-> walk (in_bounds g) moves n goal p).
  { intros n p. split; apply walk_ok_mono; intros c; by rewrite goal_grid_in_bounds. }
  assert (Hog : occupied (goal_grid g goal) goal) by by apply goal_grid_occupied.
  split_and!.
  - by apply rect_np_map.
  - rewrite nrows_np_map, Hn. unfold goal_grid. by rewrite nrows_poke, nrows_np_map.
  - rewrite ncols_np_map, Hm. unfold goal_grid. by rewrite ncols_poke, ncols_np_map.
  - intros p Hp. destruct (Hup p Hp) as [H0 Hwalk].
    pose proof (proj2 (goal_grid_in_bounds g goal p) Hp) as Hp'.
    destruct (bf_done_walk _ moves r _ goal p Hcore Hfront (proj2 (Hwalks _ _) Hwalk) Hog)
      as (_ & v & Hv & Hv1 & Hvle).
    rewrite peek_np_map, Hv. simpl. f_equal.
    destruct (Hval p Hp') as (v' & Hv' & Hcase). assert (v' = v) as -> by congruence.
    destruct Hcase as [->|[_ (o & Ho & Hw)]]; [lia|].
    apply (goal_grid_occupied g goal o Hr Hgoal) in Ho as ->.
    apply Hwalks, Hlow in Hw. lia.
Qed.

End AttractiveFacts.

(** ** The attractive field: the grid modes are the Manhattan and the
       Chebyshev distance *)

Definition manhattan (p q : cell) : Z := Z.abs (p.1 - q.1) + Z.abs (p.2 - q.2).

Definition chebyshev (p q : cell) : Z := Z.max (Z.abs (p.1 - q.1)) (Z.abs (p.2 - q.2)).

Section Metrics.
Context {V : Type} (g : array V).

Lemma manhattan_lower n s p :
  walk (in_bounds g) [(-1, 0); (0, -1); (1, 0); (0, 1)] n s p ->
  manhattan p s <= Z.of_nat n.
Proof.
  induction 1 as [p|n s q m Hwalk IH Hm Hok].
  - unfold manhattan. lia.
  - rewrite !elem_of_cons, elem_of_nil in Hm. unfold manhattan, cell_add in *.
    destruct Hm as [->|[->|[->|[->|[]]]]]; simpl; lia.
Qed.

Lemma manhattan_walk (n : nat) s p :
  in_bounds g s -> in_bounds g p -> manhattan p s = Z.of_nat n ->
  walk (in_bounds g) [(-1, 0); (0, -1); (1, 0); (0, 1)] n s p.
Proof.
  revert s. induction n as [|n IH]; intros s Hs Hp Hd.
  - assert (s = p) as ->; [|apply walk_nil].
    unfold manhattan in Hd. destruct s, p. simpl in *. f_equal; lia.
  - assert (exists m, m ∈ [(-1, 0); (0, -1); (1, 0); (0, 1)]
              /\ in_bounds g (cell_add s m)
              /\ manhattan p (cell_add s m) = Z.of_nat n) as (m & Hm & Hb & Hd').
    { unfold manhattan, in_bounds, cell_add in *.
      destruct (Z.lt_trichotomy s.1 p.1) as [?|[?|?]].
      - exists (1, 0). rewrite !elem_of_cons. simpl. split; [tauto|lia].
      - destruct (Z.lt_trichotomy s.2 p.2) as [?|[?|?]].
        + exists (0, 1). rewrite !elem_of_cons. simpl. split; [tauto|lia].
        + lia.
        + exists (0, -1). rewrite !elem_of_cons. simpl. split; [tauto|lia].
      - exists (-1, 0). rewrite !elem_of_cons. simpl. split; [tauto|lia]. }
    apply (walk_cons _ _ _ _ m); [done|done|]. by apply IH.
Qed.

Lemma chebyshev_lower n s p :
  walk (in_bounds g)
    [(-1, 0); (-1, -1); (0, -1); (1, -1); (1, 0); (1, 1); (0, 1); (-1, 1)] n s p ->
  chebyshev p s <= Z.of_nat n.
Proof.
  induction 1 as [p|n s q m Hwalk IH Hm Hok].
  - unfold chebyshev. lia.
  - rewrite !elem_of_cons, elem_of_nil in Hm. unfold chebyshev, cell_add in *.
    destruct Hm as [->|[->|[->|[->|[->|[->|[->|[->|[]]]]]]]]]; simpl; lia.
Qed.

Lemma chebyshev_walk (n : nat) s p :
  in_bounds g s -> in_bounds g p -> chebyshev p s = Z.of_nat n ->
  walk (in_bounds g)
    [(-1, 0); (-1, -1); (0, -1); (1, -1); (1, 0); (1, 1); (0, 1); (-1, 1)] n s p.
Proof.
  revert s. induction n as [|n IH]; intros s Hs Hp Hd.
  - assert (s = p) as ->; [|apply walk_nil].
    unfold chebyshev in Hd. destruct s, p. simpl in *. f_equal; lia.
  - assert (exists m,
              m ∈ [(-1, 0); (-1, -1); (0, -1); (1, -1); (1, 0); (1, 1); (0, 1); (-1, 1)]
              /\ in_bounds g (cell_add s m)
              /\ chebyshev p (cell_add s m) = Z.of_nat n) as (m & Hm & Hb & Hd').
    { unfold chebyshev, in_bounds, cell_add in *.
      destruct (Z.lt_trichotomy s.1 p.1) as [?|[?|?]],
               (Z.lt_trichotomy s.2 p.2) as [?|[?|?]].
      - exists (1, 1). rewrite !elem_of_cons. simpl. split; [tauto|lia].
      - exists (1, 0). rewrite !elem_of_cons. simpl. split; [tauto|lia].
      - exists (1, -1). rewrite !elem_of_cons. simpl. split; [tauto|lia].
      - exists (0, 1). rewrite !elem_of_cons. simpl. split; [tauto|lia].
      - lia.
      - exists (0, -1). rewrite !elem_of_cons. simpl. split; [tauto|lia].
      - exists (-1, 1). rewrite !elem_of_cons. simpl. split; [tauto|lia].
      - exists (-1, 0). rewrite !elem_of_cons. simpl. split; [tauto|lia].
      - exists (-1, -1). rewrite !elem_of_cons. simpl. split; [tauto|lia]. }
    apply (walk_cons _ _ _ _ m); [done|done|]. by apply IH.
Qed.

End Metrics.

Section AttractiveModes.
Context {F : Type} {float_ops : FloatOps F} {V : Type}.
Implicit Types (g : array V) (goal p : cell) (mode : string) (scaling_factor : F).

(** The closed-form modes, cell by cell; the goal is only ever subtracted
    from an index, so it may lie anywhere. *)
Lemma closed_form_field g goal scaling_factor (dist_fn : cell -> cell -> F) :
  rect g ->
  exists field,
    for_each (all_cells (np_map (fun _ => f_lit 0) g))
      (AttractiveField.closed_form dist_fn goal scaling_factor)
      (np_map (fun _ => f_lit 0) g) = Ok field
    /\ rect field /\ nrows field = nrows g /\ ncols field = ncols g
    /\ forall p, in_bounds g p ->
         peek field p = Some (Heap.quadratic scaling_factor (dist_fn p goal)).
Proof.
  intros Hr.
  destruct (for_each_indexed (fun p => Heap.quadratic scaling_factor (dist_fn p goal))
              (AttractiveField.closed_form dist_fn goal scaling_factor)
              (all_cells (np_map (fun _ => f_lit 0) g)) (np_map (fun _ => f_lit 0) g))
    as (field & E & Hrf & Hn & Hm & Hpeek).
  - intros r p Hp. by apply np_set_inb.
  - by apply rect_np_map.
  - apply NoDup_all_cells.
  - apply Forall_forall. intros p. by rewrite elem_of_all_cells.
  - exists field. rewrite nrows_np_map in Hn. rewrite ncols_np_map in Hm.
    split_and!; [done..|]. intros p Hp.
    assert (Hp' : in_bounds (np_map (fun _ : V => f_lit 0) g) p).
    { unfold in_bounds. by rewrite nrows_np_map, ncols_np_map. }
    rewrite (Hpeek p Hp'). by rewrite decide_True by by apply elem_of_all_cells.
Qed.

(** The mode ['4_point'] computes the field of the mode ['manhattan']: the
    hop count that its loop leaves in a cell is the Manhattan distance of the
    cell to the goal.  The cells of [grid_map] play no part: obstacles do not
    lengthen the hop counts. *)
Theorem attractive_4_point_is_manhattan g goal scaling_factor :
  rect g -> in_bounds g goal ->
  exists fuel0, forall fuel, (fuel0 <= fuel)%nat ->
    exists field,
      AttractiveField.compute_attractive_field fuel g goal scaling_factor "4_point"
        = Ok field
      /\ AttractiveField.compute_attractive_field fuel g goal scaling_factor "manhattan"
         = Ok field
      /\ nrows field = nrows g /\ ncols field = ncols g
      /\ forall p, in_bounds g p ->
           peek field p = Some (Heap.quadratic scaling_factor (f_lit (manhattan p goal))).
Proof.
  intros Hr Hgoal.
  destruct (hop_counts_metric g goal "4_point" 4 _ (fun p => manhattan p goal) Hr Hgoal
              (or_introl eq_refl) eq_refl eq_refl) as [fuel0 Hrun].
  { intros n p. apply manhattan_lower. }
  { intros p Hp. split; [unfold manhattan; lia|].
    apply manhattan_walk; [done..|]. unfold manhattan. lia. }
  exists fuel0. intros fuel Hfuel.
  destruct (Hrun fuel Hfuel) as (d & E & Hrd & Hn & Hm & Hd).
  destruct (closed_form_field g goal scaling_factor Heap.manhattan_distance Hr)
    as (field & E' & Hrf & Hn' & Hm' & Hf).
  exists field.
  assert (Hfield : np_map (fun v => Heap.quadratic scaling_factor (f_lit v)) d = field).
  { apply array_ext.
    - by apply rect_np_map.
    - done.
    - rewrite nrows_np_map. congruence.
    - rewrite ncols_np_map. congruence.
    - intros p Hp. unfold in_bounds in Hp. rewrite nrows_np_map, ncols_np_map, Hn, Hm in Hp.
      rewrite peek_np_map, (Hd p Hp), (Hf p Hp). done. }
  unfold AttractiveField.compute_attractive_field. cbn [String.eqb Ascii.eqb Bool.eqb orb].
  rewrite E, E'. cbn [mbind outcome_bind]. rewrite Hfield.
  split_and!; [done..|]. intros p Hp. by rewrite (Hf p Hp).
Qed.

(** The mode ['8_point'] leaves the Chebyshev distance to the goal in every
    cell: the field is [0.5 * scaling_factor * max(|dr|, |dc|) ** 2]. *)
Theorem attractive_8_point_is_chebyshev g goal scaling_factor :
  rect g -> in_bounds g goal ->
  exists fuel0, forall fuel, (fuel0 <= fuel)%nat ->
    exists field,
      AttractiveField.compute_attractive_field fuel g goal scaling_factor "8_point"
        = Ok field
      /\ nrows field = nrows g /\ ncols field = ncols g
      /\ forall p, in_bounds g p ->
           peek field p = Some (Heap.quadratic scaling_factor (f_lit (chebyshev p goal))).
Proof.
  intros Hr Hgoal.
  destruct (hop_counts_metric g goal "8_point" 8 _ (fun p => chebyshev p goal) Hr Hgoal
              (or_intror eq_refl) eq_refl eq_refl) as [fuel0 Hrun].
  { intros n p. apply chebyshev_lower. }
  { intros p Hp. split; [unfold chebyshev; lia|].
    apply chebyshev_walk; [done..|]. unfold chebyshev. lia. }
  exists fuel0. intros fuel Hfuel.
  destruct (Hrun fuel Hfuel) as (d & E & Hrd & Hn & Hm & Hd).
  unfold AttractiveField.compute_attractive_field. cbn [String.eqb Ascii.eqb Bool.eqb orb].
  rewrite E. cbn [mbind outcome_bind]. eexists. split; [done|].
  rewrite nrows_np_map, ncols_np_map. split_and!; [done..|].
  intros p Hp. by rewrite peek_np_map, (Hd p Hp).
Qed.

(** A mode that is none of the four names is not rejected: [move_type] stays
    empty, the loop dequeues the goal and stops, and the field is
    [0.5 * scaling_factor * 0 ** 2] at the goal and
    [0.5 * scaling_factor * (-1) ** 2] in every other cell. *)
Theorem attractive_unknown_mode g goal scaling_factor mode fuel :
  rect g -> in_bounds g goal ->
  mode <> "euclidean" -> mode <> "manhattan" -> mode <> "4_point" -> mode <> "8_point" ->
  (1 <= fuel)%nat ->
  exists field,
    AttractiveField.compute_attractive_field fuel g goal scaling_factor mode = Ok field
    /\ peek field goal = Some (Heap.quadratic scaling_factor (f_lit 0))
    /\ forall p, in_bounds g p -> p <> goal ->
         peek field p = Some (Heap.quadratic scaling_factor (f_lit (-1))).
Proof.
  intros Hr Hgoal He Hm H4 H8 Hfuel.
  apply String.eqb_neq in He, Hm, H4, H8.
  unfold AttractiveField.compute_attractive_field, AttractiveField.hop_counts,
    AttractiveField.move_type.
  rewrite He, Hm, H4, H8. cbn [orb].
  rewrite (goal_grid_set g goal Hgoal). cbn [mbind outcome_bind].
  destruct fuel as [|fuel]; [lia|].
  assert (Brushfire.propagate (S fuel) [] (goal_grid g goal) [(goal.1, goal.2)]
          = Ok (goal_grid g goal)) as -> by by destruct fuel.
  cbn [mbind outcome_bind]. eexists. split; [done|].
  assert (Hgv : peek (goal_grid g goal) goal = Some 1).
  { by apply (goal_grid_occupied g goal goal Hr Hgoal). }
  split.
  - by rewrite !peek_np_map, Hgv.
  - intros p Hp Hne. rewrite !peek_np_map. unfold goal_grid.
    destruct Hp as [? ?], Hgoal as [? ?].
    rewrite peek_poke_ne by (try lia; congruence).
    rewrite peek_const; [done|done|by split].
Qed.

(** With the goal outside the index range of the grid, the modes that run
    the loop raise [IndexError] when they mark the goal, while the closed-form
    modes, which never index the array by the goal, return their field. *)
Theorem attractive_goal_out_of_range g goal scaling_factor fuel :
  rect g ->
  goal.1 < - nrows g \/ nrows g <= goal.1 \/ goal.2 < - ncols g \/ ncols g <= goal.2 ->
  (forall mode, mode <> "euclidean" -> mode <> "manhattan" ->
     AttractiveField.compute_attractive_field fuel g goal scaling_factor mode
     = Raise IndexError)
  /\ exists field,
       AttractiveField.compute_attractive_field fuel g goal scaling_factor "manhattan"
         = Ok field
       /\ forall p, in_bounds g p ->
            peek field p = Some (Heap.quadratic scaling_factor (f_lit (manhattan p goal))).
Proof.
  intros Hr Hout. split.
  - intros mode He Hm. apply String.eqb_neq in He, Hm.
    unfold AttractiveField.compute_attractive_field, AttractiveField.hop_counts.
    rewrite He, Hm. cbn [orb].
    rewrite np_set_out_of_range; [done|]. by rewrite nrows_np_map, ncols_np_map.
  - destruct (closed_form_field g goal scaling_factor Heap.manhattan_distance Hr)
      as (field & E & _ & _ & _ & Hf).
    exists field. split; [exact E|]. intros p Hp. by rewrite (Hf p Hp).
Qed.

End AttractiveModes.

Lemma attractive_4_point_is_manhattan_witness :
  exists fuel0, forall fuel, (fuel0 <= fuel)%nat ->
    exists field,
      AttractiveField.compute_attractive_field (float_ops := int_ops)
        fuel [[0; 1]; [0; 0]] (0, 0) 2 "4_point" = Ok field
      /\ AttractiveField.compute_attractive_field (float_ops := int_ops)
           fuel [[0; 1]; [0; 0]] (0, 0) 2 "manhattan" = Ok field
      /\ nrows field = nrows [[0; 1]; [0; 0]] /\ ncols field = ncols [[0; 1]; [0; 0]]
      /\ forall p, in_bounds [[0; 1]; [0; 0]] p ->
           peek field p
           = Some (Heap.quadratic (float_ops := int_ops) 2 (@f_lit Z int_ops (manhattan p (0, 0)))).
Proof.
  apply (attractive_4_point_is_manhattan (float_ops := int_ops) [[0; 1]; [0; 0]] (0, 0) 2).
  - repeat constructor.
  - unfold in_bounds, nrows, ncols; cbn; lia.
Defined.

Lemma attractive_8_point_is_chebyshev_witness :
  exists fuel0, forall fuel, (fuel0 <= fuel)%nat ->
    exists field,
      AttractiveField.compute_attractive_field (float_ops := int_ops)
        fuel [[0; 1]; [0; 0]] (1, 1) 2 "8_point" = Ok field
      /\ nrows field = nrows [[0; 1]; [0; 0]] /\ ncols field = ncols [[0; 1]; [0; 0]]
      /\ forall p, in_bounds [[0; 1]; [0; 0]] p ->
           peek field p
           = Some (Heap.quadratic (float_ops := int_ops) 2 (@f_lit Z int_ops (chebyshev p (1, 1)))).
Proof.
  apply (attractive_8_point_is_chebyshev (float_ops := int_ops) [[0; 1]; [0; 0]] (1, 1) 2).
  - repeat constructor.
  - unfold in_bounds, nrows, ncols; cbn; lia.
Defined.

Lemma attractive_unknown_mode_witness :
  exists field,
    AttractiveField.compute_attractive_field (float_ops := int_ops)
      1 [[0; 1]; [0; 0]] (0, 0) 2 "bfs" = Ok field
    /\ peek field (0, 0) = Some (Heap.quadratic (float_ops := int_ops) 2 (@f_lit Z int_ops 0))
    /\ forall p, in_bounds [[0; 1]; [0; 0]] p -> p <> (0, 0) ->
         peek field p = Some (Heap.quadratic (float_ops := int_ops) 2 (@f_lit Z int_ops (-1))).
Proof.
  apply (attractive_unknown_mode (float_ops := int_ops) [[0; 1]; [0; 0]] (0, 0) 2 "bfs" 1).
  - repeat constructor.
  - unfold in_bounds, nrows, ncols; cbn; lia.
  - discriminate.
  - discriminate.
  - discriminate.
  - discriminate.
  - lia.
Defined.

Lemma attractive_goal_out_of_range_witness :
  (forall mode, mode <> "euclidean" -> mode <> "manhattan" ->
     AttractiveField.compute_attractive_field (float_ops := int_ops)
       3 [[0; 1]; [0; 0]] (2, 0) 2 mode = Raise IndexError)
  /\ exists field,
       AttractiveField.compute_attractive_field (float_ops := int_ops)
         3 [[0; 1]; [0; 0]] (2, 0) 2 "manhattan" = Ok field
       /\ forall p, in_bounds [[0; 1]; [0; 0]] p ->
            peek field p
            = Some (Heap.quadratic (float_ops := int_ops) 2 (@f_lit Z int_ops (manhattan p (2, 0)))).
Proof.
  apply (attractive_goal_out_of_range (float_ops := int_ops) [[0; 1]; [0; 0]] (2, 0) 2 3).
  - repeat constructor.
  - right; left. unfold nrows; cbn; lia.
Defined.

(** The field depends on [grid_map] through its shape alone: two grids of one
    shape, whatever their cells hold, give the same field. *)
Theorem attractive_field_shape_only {F : Type} {float_ops : FloatOps F} {V V' : Type}
    (g : array V) (g' : array V') fuel goal (scaling_factor : F) mode :
  rect g -> rect g' -> nrows g = nrows g' -> ncols g = ncols g' ->
  AttractiveField.compute_attractive_field fuel g goal scaling_factor mode
  = AttractiveField.compute_attractive_field fuel g' goal scaling_factor mode.
Proof.
  intros Hr Hr' Hn Hm.
  unfold AttractiveField.compute_attractive_field, AttractiveField.hop_counts.
  by rewrite (np_map_const_shape (f_lit 0) g g'), (np_map_const_shape 0 g g').
Qed.

Lemma attractive_field_shape_only_witness :
  AttractiveField.compute_attractive_field (float_ops := int_ops)
    4 [[0; 1]; [0; 0]] (0, 0) 2 "8_point"
  = AttractiveField.compute_attractive_field (float_ops := int_ops)
      4 [[1; 1]; [1; 0]] (0, 0) 2 "8_point".
Proof.
  apply (attractive_field_shape_only (float_ops := int_ops)
           [[0; 1]; [0; 0]] [[1; 1]; [1; 0]] 4 (0, 0) 2 "8_point");
    first [by repeat constructor|reflexivity].
Defined.

(** ** Gradient descent: stalls and the border *)

Lemma chain_lookup (R : cell -> cell -> Prop) (path : list cell) (i : nat) p q :
  chain R path -> path !! i = Some p -> path !! S i = Some q -> R p q.
Proof.
  revert i. induction path as [|x path IH]; intros i Hchain Hp Hq; [done|].
  destruct Hchain as [Hhead Hchain]. destruct i as [|i].
  - destruct path as [|y path]; simplify_eq/=. done.
  - by apply (IH i).
Qed.

Section GradientOrbit.
Context {V : Type} (sub : V -> V -> V) (ltb eqb : V -> V -> bool).
Implicit Types (tp : array V) (start goal : cell).

(** Once a point repeats, the path stays on it: a step that selects the zero
    move selects it again, so a stalled descent spends every remaining
    iteration on the same cell. *)
Theorem gradient_descent_path_stalls tp start goal connectivity max_iters r :
  GradientDescent.gradient_descent_path sub ltb eqb tp start goal connectivity max_iters
    = Ok r ->
  forall (i j : nat) p,
    points r !! i = Some p -> points r !! S i = Some p ->
    (i <= j)%nat -> (j < length (points r))%nat -> points r !! j = Some p.
Proof.
  unfold GradientDescent.gradient_descent_path. intros E.
  eapply (iterate_inv sub ltb eqb
            (fun p q => GradientDescent.gradient_descent_step sub ltb eqb tp p connectivity
                        = Ok q)) in E as (tail & -> & _ & Hchain & _); [|done].
  rewrite points_app. intros i j p Hi Hi' Hle Hlt.
  pose proof (chain_lookup _ _ _ _ _ Hchain Hi Hi') as Hfix.
  induction j as [|j IH].
  - by replace i with 0%nat in Hi by lia.
  - destruct (decide (i = S j)) as [->|Hne]; [done|].
    specialize (IH ltac:(lia) ltac:(lia)).
    destruct (lookup_lt_is_Some_2 (start :: tail) (S j) Hlt) as [q Hq].
    pose proof (chain_lookup _ _ _ _ _ Hchain IH Hq) as Hstep.
    rewrite Hq. congruence.
Qed.

(** A returned path never moves on from an in-bounds cell of the last row or
    of the last column: the step taken there raises [IndexError], so such a
    cell can only be the last point of a path. *)
Theorem gradient_descent_path_avoids_border tp start goal connectivity max_iters r :
  rect tp -> connectivity = 4 \/ connectivity = 8 ->
  GradientDescent.gradient_descent_path sub ltb eqb tp start goal connectivity max_iters
    = Ok r ->
  chain (fun p _ => in_bounds tp p -> p.1 < nrows tp - 1 /\ p.2 < ncols tp - 1) (points r).
Proof.
  intros Hr Hc. unfold GradientDescent.gradient_descent_path. intros E.
  eapply (iterate_inv sub ltb eqb) in E as (tail & -> & _ & Hchain & _).
  { rewrite points_app. exact Hchain. }
  intros current next _ Hstep Hb.
  destruct (gradient_descent_step_border sub ltb eqb tp current connectivity Hr Hb Hc)
    as [Hraise _].
  destruct Hb as [? ?].
  destruct (decide (current.1 = nrows tp - 1)) as [E1|]; [rewrite Hraise in Hstep; auto; done|].
  destruct (decide (current.2 = ncols tp - 1)) as [E2|]; [rewrite Hraise in Hstep; auto; done|].
  lia.
Qed.

End GradientOrbit.

Lemma gradient_descent_path_stalls_witness :
  points ([0; 0; 0; 0], [0; 0; 0; 0]) !! 3%nat = Some (0, 0).
Proof.
  apply (gradient_descent_path_stalls Z.sub Z.ltb Z.eqb
           [[0; 4; 9]; [4; 5; 9]; [9; 9; 9]] (0, 0) (1, 1) 8 3
           ([0; 0; 0; 0], [0; 0; 0; 0]) eq_refl 0%nat 3%nat (0, 0));
    [reflexivity|reflexivity|lia|simpl; lia].
Defined.

Lemma gradient_descent_path_avoids_border_witness :
  chain (fun p _ => in_bounds [[5; 4; 9]; [4; 0; 9]; [9; 9; 9]] p ->
                    p.1 < nrows [[5; 4; 9]; [4; 0; 9]; [9; 9; 9]] - 1
                    /\ p.2 < ncols [[5; 4; 9]; [4; 0; 9]; [9; 9; 9]] - 1)
        (points ([0; 1], [0; 1])).
Proof.
  apply (gradient_descent_path_avoids_border Z.sub Z.ltb Z.eqb
           [[5; 4; 9]; [4; 0; 9]; [9; 9; 9]] (0, 0) (1, 1) 8 5).
  - repeat constructor.
  - right; reflexivity.
  - reflexivity.
Defined.

(** ** Greedy descent: no cell is visited twice *)

Section GreedyNoRevisit.
Context {V : Type} (ltb : V -> V -> bool).
Hypothesis ltb_irrefl : forall x, ltb x x = false.
Hypothesis ltb_trans : forall x y z, ltb x y = true -> ltb y z = true -> ltb x z = true.
Implicit Types (a : array V) (p q : cell).

Lemma descending_all a p rest :
  descending ltb a (p :: rest) -> forall q, q ∈ rest -> below ltb a q p.
Proof.
  revert p. induction rest as [|q0 rest IH]; intros p [Hhead Hrest] q Hq.
  { by apply elem_of_nil in Hq. }
  apply elem_of_cons in Hq as [->|Hq]; [done|].
  eapply (below_trans ltb ltb_trans); [|exact Hhead]. by apply IH.
Qed.

Lemma descending_NoDup a path : descending ltb a path -> NoDup path.
Proof.
  induction path as [|p rest IH]; intros Hd; [constructor|].
  constructor; [|apply IH; by destruct Hd].
  intros Hp. by apply (below_irrefl ltb ltb_irrefl a p), (descending_all a p rest).
Qed.

(** The path of a greedy descent holds no cell twice, whatever the field:
    every move goes strictly down. *)
Theorem greedy_descent_path_no_revisit a start goal connectivity fuel :
  rect a -> in_bounds a start -> connectivity = 4 \/ connectivity = 8 ->
  (Z.to_nat (nrows a) * Z.to_nat (ncols a) <= fuel)%nat ->
  exists r,
    GreedyDescent.greedy_descent_path ltb fuel a start goal connectivity = Ok r
    /\ NoDup (points r).
Proof.
  intros Hr Hb Hc Hfuel. pose proof (rank_start ltb ltb_irrefl a start Hb) as Hrank.
  unfold GreedyDescent.greedy_descent_path.
  assert (exists moves, GreedyDescent.move_type connectivity = Ok moves) as [moves ->].
  { destruct Hc as [-> | ->]; eexists; reflexivity. }
  cbn [mbind outcome_bind].
  destruct (descend_total ltb ltb_irrefl ltb_trans a goal moves Hr fuel start
              [start.1] [start.2] Hb) as (tail & E & Hd & _); [lia|].
  rewrite E. eexists. split; [done|]. rewrite points_app. by eapply descending_NoDup.
Qed.

End GreedyNoRevisit.

Lemma greedy_descent_path_no_revisit_witness :
  exists r,
    GreedyDescent.greedy_descent_path Z.ltb 6 [[5; 1; 4]; [3; 0; 2]] (0, 0) (1, 2) 4 = Ok r
    /\ NoDup (points r).
Proof.
  apply (greedy_descent_path_no_revisit Z.ltb Z.ltb_irrefl).
  - intros x y z. rewrite !Z.ltb_lt. lia.
  - repeat constructor.
  - unfold in_bounds, nrows, ncols; cbn; lia.
  - left; reflexivity.
  - unfold nrows, ncols; cbn; lia.
Defined.

(** ** Wavefront: the two connectivities *)

(** A cell that the wavefront reaches under connectivity 4 is reached under
    connectivity 8 in at most as many hops: diagonal moves only shorten. *)
Theorem wavefront_connectivities g goal :
  grid_ok g -> free_cell g goal ->
  exists fuel0, forall fuel, (fuel0 <= fuel)%nat ->
    exists d4 vis4 d8 vis8,
      Wavefront.compute_wavefront fuel g goal 4 = Ok (d4, vis4)
      /\ Wavefront.compute_wavefront fuel g goal 8 = Ok (d8, vis8)
      /\ forall p a, free_cell g p -> peek d4 p = Some (Num a) -> a < unreached ->
           exists b, peek d8 p = Some (Num b) /\ b <= a.
Proof.
  intros Hg Hgoal.
  destruct (compute_wavefront_spec g goal 4 _ Hg Hgoal eq_refl) as [fuel4 Hrun4].
  destruct (compute_wavefront_spec g goal 8 _ Hg Hgoal eq_refl) as [fuel8 Hrun8].
  exists (fuel4 `max` fuel8)%nat. intros fuel Hfuel.
  destruct (Hrun4 fuel ltac:(lia)) as (d4 & vis4 & E4 & Hcore4 & Hfront4).
  destruct (Hrun8 fuel ltac:(lia)) as (d8 & vis8 & E8 & Hcore8 & Hfront8).
  exists d4, vis4, d8, vis8. split_and!; [done..|]. intros p a Hp Ha Hlt.
  destruct (core_num g goal _ Hg d4 p a Hcore4 (proj1 Hp) Ha) as (_ & Hrange & Hwalk).
  specialize (Hwalk Hlt).
  destruct (front_done_walk g goal _ Hg Hgoal d8 (Z.to_nat a) goal p Hcore8 Hfront8)
    as (_ & b & Hb & Hle); [|done|].
  - eapply walk_moves_mono; [|exact Hwalk].
    intros m. rewrite !elem_of_cons, !elem_of_nil. tauto.
  - exists b. split; [done|]. lia.
Qed.

Lemma wavefront_connectivities_witness :
  exists fuel0, forall fuel, (fuel0 <= fuel)%nat ->
    exists d4 vis4 d8 vis8,
      Wavefront.compute_wavefront fuel [[0; 0]; [1; 0]] (0, 0) 4 = Ok (d4, vis4)
      /\ Wavefront.compute_wavefront fuel [[0; 0]; [1; 0]] (0, 0) 8 = Ok (d8, vis8)
      /\ forall p a, free_cell [[0; 0]; [1; 0]] p -> peek d4 p = Some (Num a) ->
           a < unreached -> exists b, peek d8 p = Some (Num b) /\ b <= a.
Proof.
  apply (wavefront_connectivities [[0; 0]; [1; 0]] (0, 0)).
  - grid_ok_tac.
  - cell_tac.
Defined.
